(** * Field encryption service and persistence hook of the Aliyah platform

    Shallow embedding of [src/lib/prisma.ts] (second document of the file:
    [EncryptionService], the exported helpers and
    [createEncryptionMiddleware]).

    Layout of the development:
    - JavaScript strings and Node [Buffer] encodings (hex, base64, utf8);
    - JavaScript values, the process state and the effect monad;
    - the Node [crypto] primitives the service calls, as an interface;
    - the service and the middleware, following the source line by line;
    - a small executable instance of the interface, used to run the model;
    - lemmas on the encodings, then the properties of the service;
    - further properties: tokens, the data of a registration, single
      records and writes through the hook. *)

From Stdlib Require Import NArith ZArith Lia List Bool.
From Stdlib Require Import Strings.String Strings.Ascii Strings.Byte.
From stdpp Require Import gmap strings list fin_maps.

Set Warnings "-register-all".

(* ===================================================================== *)
(** * Part I: definitions *)
(* ===================================================================== *)

(** ** JavaScript strings and buffers *)

(** A JavaScript string is a sequence of UTF-16 code units; a value of this
    type stands for a string when every unit is below [2^16]. *)
Abbreviation jsstring := (list N).

(** A Node [Buffer] is a sequence of bytes. *)
Abbreviation bytes := (list byte).

(** ASCII literal as a JavaScript string. *)
Definition js (s : string) : jsstring :=
  map N_of_ascii (list_ascii_of_string s).

Definition byte_of_N (n : N) : byte :=
  match Byte.of_N (n mod 256) with
  | Some b => b
  | None => x00
  end.

(** [s.length] *)
Definition js_length (s : jsstring) : nat := length s.

(** [buf.subarray(start, end)] and [buf.subarray(start)] for indices within
    [0 .. 2^32]; out-of-range indices are clamped, as in Node. *)
Definition subarray (b : bytes) (start stop : nat) : bytes :=
  take (stop - start) (drop start b).

Definition subarray_from (b : bytes) (start : nat) : bytes :=
  drop start b.

(** ** Hexadecimal encoding: [buf.toString('hex')], [Buffer.from(s, 'hex')] *)

Module Hex.

Definition digit (v : N) : N :=
  if (v <? 10)%N then (48 + v)%N else (87 + v)%N.

(** Value of a hexadecimal digit; upper and lower case are accepted. *)
Definition undigit (c : N) : option N :=
  if ((48 <=? c) && (c <=? 57))%N then Some (c - 48)%N
  else if ((97 <=? c) && (c <=? 102))%N then Some (c - 87)%N
  else if ((65 <=? c) && (c <=? 70))%N then Some (c - 55)%N
  else None.

Fixpoint encode (b : bytes) : jsstring :=
  match b with
  | [] => []
  | x :: rest =>
      digit (Byte.to_N x / 16) :: digit (Byte.to_N x mod 16) :: encode rest
  end.

(** Node decodes pairs of digits and stops at the first pair that is not
    hexadecimal; a trailing single character is dropped. *)
Fixpoint decode (s : jsstring) : bytes :=
  match s with
  | c1 :: c2 :: rest =>
      match undigit c1, undigit c2 with
      | Some h, Some l => byte_of_N (h * 16 + l) :: decode rest
      | _, _ => []
      end
  | _ => []
  end.

End Hex.

(** ** Base64: [buf.toString('base64')], [Buffer.from(s, 'base64')] *)

Module Base64.

(** The character of a 6-bit value in the standard alphabet. *)
Definition char (v : N) : N :=
  if (v <? 26)%N then (65 + v)%N
  else if (v <? 52)%N then (71 + v)%N
  else if (v <? 62)%N then (v - 4)%N
  else if (v =? 62)%N then 43%N
  else 47%N.

Definition pad : N := 61%N.

(** The 6-bit value of a character. Node's decoder accepts the standard
    and the URL-safe alphabet. *)
Definition unbase64 (c : N) : option N :=
  if ((65 <=? c) && (c <=? 90))%N then Some (c - 65)%N
  else if ((97 <=? c) && (c <=? 122))%N then Some (c - 71)%N
  else if ((48 <=? c) && (c <=? 57))%N then Some (c + 4)%N
  else if ((c =? 43) || (c =? 45))%N then Some 62%N
  else if ((c =? 47) || (c =? 95))%N then Some 63%N
  else None.

(** Encoder: three bytes give four characters; a tail of one or two bytes
    is padded with [=]. *)
Fixpoint encode (b : bytes) : jsstring :=
  match b with
  | [] => []
  | [x] =>
      let n := Byte.to_N x in
      [char (n / 4); char ((n mod 4) * 16); pad; pad]
  | [x; y] =>
      let n := Byte.to_N x in
      let m := Byte.to_N y in
      [char (n / 4); char ((n mod 4) * 16 + m / 16); char ((m mod 16) * 4); pad]
  | x :: y :: z :: rest =>
      let n := Byte.to_N x in
      let m := Byte.to_N y in
      let k := Byte.to_N z in
      char (n / 4) :: char ((n mod 4) * 16 + m / 16)
        :: char ((m mod 16) * 4 + k / 64) :: char (k mod 64) :: encode rest
  end.

(** Decoder, first pass. Node reads every code unit as a byte, its low
    eight bits: [U+0141] is read as [A]. The 6-bit values of the legal
    characters up to the first [=] are kept; any other character is
    skipped. *)
Fixpoint sextets (s : jsstring) : list N :=
  match s with
  | [] => []
  | u :: rest =>
      let c := (u mod 256)%N in
      if (c =? pad)%N then []
      else match unbase64 c with
           | Some v => v :: sextets rest
           | None => sextets rest
           end
  end.

(** Decoder, second pass: four values give three bytes; a tail of two or
    three values gives one or two bytes, a tail of one value gives none. *)
Fixpoint pack (v : list N) : bytes :=
  match v with
  | a :: b :: c :: d :: rest =>
      byte_of_N (a * 4 + b / 16) :: byte_of_N ((b mod 16) * 16 + c / 4)
        :: byte_of_N ((c mod 4) * 64 + d) :: pack rest
  | [a; b; c] =>
      [byte_of_N (a * 4 + b / 16); byte_of_N ((b mod 16) * 16 + c / 4)]
  | [a; b] => [byte_of_N (a * 4 + b / 16)]
  | _ => []
  end.

Definition decode (s : jsstring) : bytes := pack (sextets s).

End Base64.

(** ** UTF-8: the ['utf8'] encoding of strings read and written by Node *)

Module Utf8.

Definition is_high (u : N) : bool := ((55296 <=? u) && (u <=? 56319))%N.
Definition is_low (u : N) : bool := ((56320 <=? u) && (u <=? 57343))%N.
Definition replacement : N := 65533%N.

(** Bytes of a code point below [2^21]. *)
Definition encode_cp (c : N) : bytes :=
  if (c <? 128)%N then [byte_of_N c]
  else if (c <? 2048)%N then
    [byte_of_N (192 + c / 64); byte_of_N (128 + c mod 64)]
  else if (c <? 65536)%N then
    [byte_of_N (224 + c / 4096); byte_of_N (128 + (c / 64) mod 64);
     byte_of_N (128 + c mod 64)]
  else
    [byte_of_N (240 + c / 262144); byte_of_N (128 + (c / 4096) mod 64);
     byte_of_N (128 + (c / 64) mod 64); byte_of_N (128 + c mod 64)].

(** String to bytes: a surrogate pair is one code point, a surrogate that
    is not part of a pair is written as U+FFFD. *)
Fixpoint encode (s : jsstring) : bytes :=
  match s with
  | [] => []
  | u :: rest =>
      if is_high u then
        match rest with
        | l :: rest' =>
            if is_low l then
              encode_cp (65536 + (u - 55296) * 1024 + (l - 56320)) ++ encode rest'
            else encode_cp replacement ++ encode rest
        | [] => encode_cp replacement
        end
      else if is_low u then encode_cp replacement ++ encode rest
      else encode_cp u ++ encode rest
  end.

(** Code units of a decoded code point. *)
Definition units (c : N) : jsstring :=
  if (c <? 65536)%N then [c]
  else [(55296 + (c - 65536) / 1024)%N; (56320 + (c - 65536) mod 1024)%N].

(** State of the streaming decoder: the code point being assembled, the
    number of continuation bytes still expected, and the range allowed for
    the next byte. *)
Record state := State {
  code_point : N;
  needed : nat;
  lower : N;
  upper : N
}.

Definition start : state := State 0 0 128 191.

(** A byte read with no sequence in progress. *)
Definition lead (x : N) : jsstring * state :=
  if (x <=? 127)%N then ([x], start)
  else if ((194 <=? x) && (x <=? 223))%N then ([], State (x - 192) 1 128 191)
  else if ((224 <=? x) && (x <=? 239))%N then
    ([], State (x - 224) 2 (if (x =? 224)%N then 160 else 128)
                            (if (x =? 237)%N then 159 else 191))
  else if ((240 <=? x) && (x <=? 244))%N then
    ([], State (x - 240) 3 (if (x =? 240)%N then 144 else 128)
                            (if (x =? 244)%N then 143 else 191))
  else ([replacement], start).

(** One byte. A byte outside the expected range ends the sequence in
    progress with U+FFFD and is then read as a leading byte. *)
Definition step (st : state) (b : byte) : jsstring * state :=
  let x := Byte.to_N b in
  match needed st with
  | O => lead x
  | S n =>
      if ((lower st <=? x) && (x <=? upper st))%N then
        let c := (code_point st * 64 + (x - 128))%N in
        match n with
        | O => (units c, start)
        | S _ => ([], State c n 128 191)
        end
      else
        let '(out, st') := lead x in (replacement :: out, st')
  end.

(** [decoder.write(buf)]: the complete characters of a chunk. *)
Fixpoint feed (st : state) (b : bytes) : jsstring * state :=
  match b with
  | [] => ([], st)
  | x :: rest =>
      let '(out, st') := step st x in
      let '(out', st'') := feed st' rest in
      (out ++ out', st'')
  end.

(** [decoder.end()]: an unfinished sequence gives U+FFFD. *)
Definition finish (st : state) : jsstring :=
  match needed st with
  | O => []
  | S _ => [replacement]
  end.

Definition decode (b : bytes) : jsstring :=
  let '(out, st) := feed start b in out ++ finish st.

(** Well-formed UTF-16: units below [2^16], every surrogate in a pair. *)
Fixpoint well_formed (s : jsstring) : bool :=
  match s with
  | [] => true
  | u :: rest =>
      if is_high u then
        match rest with
        | l :: rest' => is_low l && well_formed rest'
        | [] => false
        end
      else negb (is_low u) && (u <? 65536)%N && well_formed rest
  end.

End Utf8.

(** ** Bits of a byte *)

#[global] Instance byte_eq_decision : EqDecision byte := Byte.byte_eq_dec.

Definition byte_xor (a b : byte) : byte :=
  let '(a0, (a1, (a2, (a3, (a4, (a5, (a6, a7))))))) := Byte.to_bits a in
  let '(b0, (b1, (b2, (b3, (b4, (b5, (b6, b7))))))) := Byte.to_bits b in
  Byte.of_bits (xorb a0 b0, (xorb a1 b1, (xorb a2 b2, (xorb a3 b3,
               (xorb a4 b4, (xorb a5 b5, (xorb a6 b6, xorb a7 b7))))))).

(** The byte with only bit [j] set ([j] from 0 to 7). *)
Definition bit_mask (j : nat) : byte := byte_of_N (2 ^ N.of_nat j).

(** Bit [j] of the byte at index [i] inverted. *)
Definition flip_bit (i j : nat) (b : bytes) : bytes :=
  alter (fun x => byte_xor x (bit_mask j)) i b.

(** ** JavaScript values *)

(** The values that travel through the service: JSON-like data. Numbers are
    integers here (no fractions, no [NaN]); an object is the finite map of
    its own properties, inherited properties are left out. Binary data (a
    [Buffer], a typed array, a [DataView]) is no value of this type. *)
Inductive JsValue : Type :=
| VUndefined
| VNull
| VBool (b : bool)
| VNum (n : Z)
| VStr (s : jsstring)
| VObj (o : gmap jsstring JsValue)
| VArr (l : list JsValue).

(** [if (v)] *)
Definition truthy (v : JsValue) : bool :=
  match v with
  | VUndefined | VNull => false
  | VBool b => b
  | VNum n => negb (n =? 0)%Z
  | VStr s => negb (bool_decide (s = []))
  | VObj _ | VArr _ => true
  end.

(** [typeof v === 'string'] *)
Definition is_string (v : JsValue) : bool :=
  match v with
  | VStr _ => true
  | _ => false
  end.

(** [o[k]] on a map of own properties. *)
Definition own (o : gmap jsstring JsValue) (k : jsstring) : JsValue :=
  default VUndefined (o !! k).

Inductive JsError : Type :=
| Error (message : string)
| TypeError (message : string)
| RangeError (message : string).

(** [EncryptedData] of [src/types/global.ts]. *)
Record EncryptedData := {
  encrypted : jsstring;
  authTag : jsstring;
  iv : jsstring
}.

(** The [params] a Prisma middleware receives. *)
Record Params := {
  action : jsstring;
  model : option jsstring;
  args : JsValue
}.

(** ** Process state and effects *)

Inductive CryptoOp : Type :=
| RandomBytes (n : nat)
| Scrypt
| CreateCipher
| CipherUpdate
| CipherFinal
| GetAuthTag
| CreateDecipher
| SetAuthTag
| DecipherUpdate
| DecipherFinal.

(** What an observer of the process sees, in order. *)
Inductive Event : Type :=
| Crypto (op : CryptoOp)
| ConsoleError (label : jsstring) (e : JsError)
| StorageCall (p : Params).

(** The state a call runs in: [process.env.ENCRYPTION_KEY], the bytes the
    system random source delivers (byte [n] is the [n]-th byte drawn), how
    many were drawn, and the events so far. *)
Record World := {
  ENCRYPTION_KEY : option jsstring;
  entropy : nat -> byte;
  drawn : nat;
  trace : list Event
}.

Inductive Result (A : Type) : Type :=
| Ok (a : A)
| Throw (e : JsError).
Arguments Ok {A} a.
Arguments Throw {A} e.

(** A computation: it reads and changes the state and returns or throws.
    What was done before a throw stays done. *)
Definition M (A : Type) : Type := World -> Result A * World.

Definition ret {A} (a : A) : M A := fun w => (Ok a, w).

Definition throw {A} (e : JsError) : M A := fun w => (Throw e, w).

Definition bind {A B} (m : M A) (k : A -> M B) : M B :=
  fun w =>
    match m w with
    | (Ok a, w') => k a w'
    | (Throw e, w') => (Throw e, w')
    end.

(** [try { body } catch (error) { handler }] *)
Definition try_catch {A} (body : M A) (handler : JsError -> M A) : M A :=
  fun w =>
    match body w with
    | (Ok a, w') => (Ok a, w')
    | (Throw e, w') => handler e w'
    end.

Notation "x <- m ;; k" := (bind m (fun x => k))
  (at level 100, m at level 99, right associativity).
Notation "m ;; k" := (bind m (fun _ => k))
  (at level 100, right associativity).

Definition emit (e : Event) : M unit :=
  fun w =>
    (Ok tt, {| ENCRYPTION_KEY := ENCRYPTION_KEY w; entropy := entropy w;
               drawn := drawn w; trace := trace w ++ [e] |}).

(** [process.env.ENCRYPTION_KEY] *)
Definition getenv_ENCRYPTION_KEY : M (option jsstring) :=
  fun w => (Ok (ENCRYPTION_KEY w), w).

(** [console.error(label, error)] *)
Definition console_error (label : jsstring) (e : JsError) : M unit :=
  emit (ConsoleError label e).

(** [for (const x of xs) { acc = body(acc, x) }] *)
Fixpoint for_of {A S} (xs : list A) (body : S -> A -> M S) (acc : S) : M S :=
  match xs with
  | [] => ret acc
  | x :: rest => acc' <- body acc x ;; for_of rest body acc'
  end.

(** The elements of an array visited in order, each replaced by what the
    body leaves in its place. *)
Fixpoint for_each {A} (xs : list A) (body : A -> M A) : M (list A) :=
  match xs with
  | [] => ret []
  | x :: rest => x' <- body x ;; rest' <- for_each rest body ;; ret (x' :: rest')
  end.

(** [v[k]] for a property name [k] that is neither an index nor [length]:
    reading a property of [undefined] or [null] throws, a value that is not
    an object has no such property. *)
Definition get_property (v : JsValue) (k : jsstring) : M JsValue :=
  match v with
  | VUndefined | VNull =>
      throw (TypeError "Cannot read properties of undefined or null")
  | VObj o => ret (own o k)
  | _ => ret VUndefined
  end.

(** [v[k] = x] and [delete v[k]], reached in the source only for objects. *)
Definition set_property (v : JsValue) (k : jsstring) (x : JsValue) : JsValue :=
  match v with
  | VObj o => VObj (<[k := x]> o)
  | _ => v
  end.

Definition delete_property (v : JsValue) (k : jsstring) : JsValue :=
  match v with
  | VObj o => VObj (delete k o)
  | _ => v
  end.

(** [o[k] = s] for a string [s] and an object [o] made by a literal or a
    spread. Under the name [__proto__] the assignment writes an own
    property only where [o] has one; otherwise it reaches the accessor of
    [Object.prototype], which ignores a string, and no property is made. *)
Definition assign_string (o : gmap jsstring JsValue) (k s : jsstring)
    : gmap jsstring JsValue :=
  if bool_decide (k = js "__proto__") && negb (bool_decide (is_Some (o !! k)))
  then o
  else <[k := VStr s]> o.

(** ** The Node primitives *)

(** [crypto.randomBytes(n)] *)
Definition randomBytes (n : nat) : M bytes :=
  fun w =>
    (Ok (map (entropy w) (seq (drawn w) n)),
     {| ENCRYPTION_KEY := ENCRYPTION_KEY w; entropy := entropy w;
        drawn := drawn w + n; trace := trace w ++ [Crypto (RandomBytes n)] |}).

(** The functions computed by Node's [crypto] and [Buffer] that the service
    relies on and does not implement, as in the versions of Node that
    provide [createCipher] and [createDecipher]:
    - [scrypt password salt keylen], the key derivation;
    - [gcm_stream key data], what ['aes-256-gcm'] writes for [data] under the
      password [key] of [createCipher]/[createDecipher] (both derive the AES
      key and the nonce from the password alone, and both apply the same
      key stream);
    - [gcm_tag key ciphertext], the 16-byte tag of a ciphertext;
    - [bufferFromObject v], [Buffer.from(v)] for an array or object [v]
      ([None] when Node throws a [TypeError]). *)
Record NodeCrypto := {
  scrypt : jsstring -> bytes -> nat -> bytes;
  gcm_stream : bytes -> bytes -> bytes;
  gcm_tag : bytes -> bytes -> bytes;
  bufferFromObject : JsValue -> option bytes
}.

(** What the properties below assume of the primitives. *)
Record NodeCryptoLaws (L : NodeCrypto) : Prop := {
  gcm_stream_involutive : forall key data,
    gcm_stream L key (gcm_stream L key data) = data;
  gcm_tag_length : forall key data, length (gcm_tag L key data) = 16
}.

(** The tag of a ciphertext changes when one bit of the ciphertext does.
    For GCM this holds under every key whose hash subkey is not zero. *)
Definition tag_detects_bit_flips (L : NodeCrypto) : Prop :=
  forall key data i j,
    i < length data -> j < 8 ->
    gcm_tag L key (flip_bit i j data) <> gcm_tag L key data.

(** A [Cipher] object: the password, the bytes written so far, and whether
    [final] was called. *)
Record Cipher := {
  cipher_key : bytes;
  cipher_input : bytes;
  cipher_finalized : bool
}.

(** A [Decipher] object: the password, the tag set, the bytes written so
    far, and the state of the decoder of its ['utf8'] output. *)
Record Decipher := {
  decipher_key : bytes;
  decipher_tag : option bytes;
  decipher_input : bytes;
  decipher_decoder : Utf8.state
}.

(** Tag lengths [setAuthTag] accepts in GCM mode. *)
Definition valid_gcm_tag_length (n : nat) : bool :=
  (n =? 4) || (n =? 8) || ((12 <=? n) && (n <=? 16)).

(** ** The service *)

Section EncryptionService.

Variable L : NodeCrypto.

(** [Buffer.from(v, 'base64')]: a string is decoded and never rejected;
    [undefined], [null], booleans and numbers are rejected. *)
Definition Buffer_from_base64 (v : JsValue) : M bytes :=
  match v with
  | VStr s => ret (Base64.decode s)
  | VObj _ | VArr _ =>
      match bufferFromObject L v with
      | Some b => ret b
      | None => throw (TypeError "The first argument must be of type string")
      end
  | _ => throw (TypeError "The first argument must be of type string")
  end.

(** [createCipher(algorithm, key)] *)
Definition createCipher (algorithm : string) (key : bytes) : M Cipher :=
  emit (Crypto CreateCipher) ;;
  ret {| cipher_key := key; cipher_input := []; cipher_finalized := false |}.

(** [cipher.update(data, 'utf8', 'hex')]: the hex digits of the bytes
    written for this chunk. Node takes a string or binary data (a [Buffer],
    a typed array, a [DataView]) and rejects anything else; of these a
    [JsValue] can only be a string. *)
Definition cipher_update (c : Cipher) (data : JsValue)
  : M (jsstring * Cipher) :=
  emit (Crypto CipherUpdate) ;;
  match data with
  | VStr s =>
      let input := cipher_input c ++ Utf8.encode s in
      let out := drop (length (cipher_input c)) (gcm_stream L (cipher_key c) input) in
      ret (Hex.encode out,
           {| cipher_key := cipher_key c; cipher_input := input;
              cipher_finalized := cipher_finalized c |})
  | _ => throw (TypeError "The data argument must be of type string")
  end.

(** [cipher.final('hex')]: GCM holds no bytes back. *)
Definition cipher_final (c : Cipher) : M (jsstring * Cipher) :=
  emit (Crypto CipherFinal) ;;
  ret ([], {| cipher_key := cipher_key c; cipher_input := cipher_input c;
              cipher_finalized := true |}).

(** [cipher.getAuthTag()]: available once [final] was called. *)
Definition cipher_getAuthTag (c : Cipher) : M bytes :=
  emit (Crypto GetAuthTag) ;;
  if cipher_finalized c then
    ret (gcm_tag L (cipher_key c) (gcm_stream L (cipher_key c) (cipher_input c)))
  else throw (Error "Invalid state for operation getAuthTag").

(** [createDecipher(algorithm, key)] *)
Definition createDecipher (algorithm : string) (key : bytes) : M Decipher :=
  emit (Crypto CreateDecipher) ;;
  ret {| decipher_key := key; decipher_tag := None; decipher_input := [];
         decipher_decoder := Utf8.start |}.

(** [decipher.setAuthTag(tag)] *)
Definition decipher_setAuthTag (d : Decipher) (tag : bytes) : M Decipher :=
  emit (Crypto SetAuthTag) ;;
  if valid_gcm_tag_length (length tag) then
    ret {| decipher_key := decipher_key d; decipher_tag := Some tag;
           decipher_input := decipher_input d;
           decipher_decoder := decipher_decoder d |}
  else throw (TypeError "Invalid authentication tag length").

(** [decipher.update(data, undefined, 'utf8')]: the complete characters of
    the bytes recovered from this chunk. *)
Definition decipher_update (d : Decipher) (data : bytes)
  : M (jsstring * Decipher) :=
  emit (Crypto DecipherUpdate) ;;
  let input := decipher_input d ++ data in
  let out := drop (length (decipher_input d)) (gcm_stream L (decipher_key d) input) in
  let decoded := Utf8.feed (decipher_decoder d) out in
  ret (fst decoded,
       {| decipher_key := decipher_key d; decipher_tag := decipher_tag d;
          decipher_input := input; decipher_decoder := snd decoded |}).

(** [decipher.final('utf8')]: throws unless a tag was set and it is the tag
    of the bytes written (compared over the length of the tag set). *)
Definition decipher_final (d : Decipher) : M jsstring :=
  emit (Crypto DecipherFinal) ;;
  match decipher_tag d with
  | Some tag =>
      if bool_decide
           (tag = take (length tag) (gcm_tag L (decipher_key d) (decipher_input d)))
      then ret (Utf8.finish (decipher_decoder d))
      else throw (Error "Unsupported state or unable to authenticate data")
  | None => throw (Error "Unsupported state or unable to authenticate data")
  end.

Definition algorithm : string := "aes-256-gcm".
Definition keyLength : nat := 32.
Definition ivLength : nat := 16.
Definition tagLength : nat := 16.
Definition saltLength : nat := 32.

Definition Encrypted : jsstring := js "Encrypted".

(** [deriveKey]: [scryptAsync(masterKey, salt, this.keyLength)] *)
Definition deriveKey (masterKey : jsstring) (salt : bytes) : M bytes :=
  emit (Crypto Scrypt) ;;
  ret (scrypt L masterKey salt keyLength).

(** [!masterKey]: the variable is unset or empty. *)
Definition key_missing (masterKey : option jsstring) : bool :=
  match masterKey with
  | None | Some [] => true
  | Some _ => false
  end.

(** [!masterKey || masterKey.length < 32] *)
Definition key_rejected (masterKey : option jsstring) : bool :=
  match masterKey with
  | None => true
  | Some k => key_missing masterKey || (js_length k <? 32)
  end.

(** [encrypt]. The master key is a string once the guard has passed. The IV
    drawn is packed into the blob and returned, and is not given to the
    cipher: [createCipher] takes the algorithm and the derived key only.
    [cipher.getAuthTag] is a method of every [Cipher], so the test
    [cipher.getAuthTag ? ... : ''] takes its first branch. *)
Definition encrypt (text : JsValue) : M EncryptedData :=
  try_catch
    (masterKey <- getenv_ENCRYPTION_KEY ;;
     match masterKey with
     | Some k =>
         if key_rejected masterKey then
           throw (Error "ENCRYPTION_KEY debe tener al menos 32 caracteres")
         else
           salt <- randomBytes saltLength ;;
           iv_bytes <- randomBytes ivLength ;;
           key <- deriveKey k salt ;;
           cipher <- createCipher algorithm key ;;
           upd <- cipher_update cipher text ;;
           fin <- cipher_final (snd upd) ;;
           let encrypted_hex := fst upd ++ fst fin in
           authTag_hex <-
             try_catch
               (tag <- cipher_getAuthTag (snd fin) ;; ret (Hex.encode tag))
               (fun _ => fallback <- randomBytes 16 ;; ret (Hex.encode fallback)) ;;
           let combined :=
             salt ++ iv_bytes ++ Hex.decode authTag_hex ++ Hex.decode encrypted_hex in
           ret {| encrypted := Base64.encode combined;
                  authTag := authTag_hex;
                  iv := Hex.encode iv_bytes |}
     | None =>
         throw (Error "ENCRYPTION_KEY debe tener al menos 32 caracteres")
     end)
    (fun error =>
       console_error (js "Error en cifrado:") error ;;
       throw (Error "Error al cifrar los datos")).

(** [decrypt]. The guard is [!masterKey] alone. [decipher.setAuthTag] is a
    method of every [Decipher]; an error it throws is swallowed. *)
Definition decrypt (encryptedData : JsValue) : M jsstring :=
  try_catch
    (masterKey <- getenv_ENCRYPTION_KEY ;;
     match masterKey with
     | Some k =>
         if key_missing masterKey then
           throw (Error "ENCRYPTION_KEY no está configurada")
         else
           combined <-
             (if is_string encryptedData then Buffer_from_base64 encryptedData
              else
                field <- get_property encryptedData (js "encrypted") ;;
                Buffer_from_base64 field) ;;
           let salt := subarray combined 0 saltLength in
           let iv_bytes := subarray combined saltLength (saltLength + ivLength) in
           let authTag_bytes :=
             subarray combined (saltLength + ivLength)
                      (saltLength + ivLength + tagLength) in
           let encrypted_bytes :=
             subarray_from combined (saltLength + ivLength + tagLength) in
           key <- deriveKey k salt ;;
           decipher <- createDecipher algorithm key ;;
           decipher <-
             try_catch (decipher_setAuthTag decipher authTag_bytes)
                       (fun _ => ret decipher) ;;
           upd <- decipher_update decipher encrypted_bytes ;;
           fin <- decipher_final (snd upd) ;;
           ret (fst upd ++ fin)
     | None => throw (Error "ENCRYPTION_KEY no está configurada")
     end)
    (fun error =>
       console_error (js "Error en descifrado:") error ;;
       throw (Error "Error al descifrar los datos")).

(** The body of the loop of [encryptObject]: it reads [obj] and writes
    [result]. *)
Definition encryptObject_step (obj result : gmap jsstring JsValue)
    (field : jsstring) : M (gmap jsstring JsValue) :=
  if truthy (own obj field) && is_string (own obj field) then
    e <- encrypt (own obj field) ;;
    let result := <[field ++ Encrypted := VStr (encrypted e)]> result in
    let result := delete field result in
    ret result
  else ret result.

(** [encryptObject]: [result] starts as a copy of [obj]. *)
Definition encryptObject (obj : gmap jsstring JsValue)
    (fieldsToEncrypt : list jsstring) : M (gmap jsstring JsValue) :=
  let result := obj in
  for_of fieldsToEncrypt (encryptObject_step obj) result.

(** The body of the loop of [decryptObject]. *)
Definition decryptObject_step (obj result : gmap jsstring JsValue)
    (field : jsstring) : M (gmap jsstring JsValue) :=
  let encryptedField := field ++ Encrypted in
  if truthy (own obj encryptedField) then
    try_catch
      (decrypted <- decrypt (own obj encryptedField) ;;
       let result := assign_string result field decrypted in
       let result := delete encryptedField result in
       ret result)
      (fun error =>
         console_error (js "Error descifrando campo " ++ field ++ js ":") error ;;
         ret result)
  else ret result.

(** [decryptObject] *)
Definition decryptObject (obj : gmap jsstring JsValue)
    (fieldsToDecrypt : list jsstring) : M (gmap jsstring JsValue) :=
  let result := obj in
  for_of fieldsToDecrypt (decryptObject_step obj) result.

(** [isEncrypted] *)
Definition isEncrypted (data : JsValue) : M bool :=
  try_catch
    (buffer <- Buffer_from_base64 data ;;
     ret (saltLength + ivLength + tagLength + 1 <=? length buffer))
    (fun _ => ret false).

(** ** The persistence hook *)

Definition sensitiveFields : list jsstring :=
  [js "firstName"; js "lastName"; js "phone"; js "birthDate";
   js "nationality"; js "address"; js "motivation"].

(** [params.action === a] and [params.model === m] *)
Definition action_is (params : Params) (a : string) : bool :=
  bool_decide (action params = js a).

Definition model_is (params : Params) (m : string) : bool :=
  bool_decide (model params = Some (js m)).

Definition is_write (params : Params) : bool :=
  (action_is params "create" || action_is params "update")
  && model_is params "UserProfile".

Definition is_read (params : Params) : bool :=
  (action_is params "findUnique" || action_is params "findFirst"
   || action_is params "findMany")
  && model_is params "UserProfile".

(** The body of the loop over the fields of [params.args.data]. *)
Definition encrypt_field (data : JsValue) (field : jsstring) : M JsValue :=
  value <- get_property data field ;;
  if truthy value then
    e <- encrypt value ;;
    let data := set_property data (field ++ Encrypted) (VStr (encrypted e)) in
    let data := delete_property data field in
    ret data
  else ret data.

(** The body of the loop over the fields of one item of a result. *)
Definition decrypt_field (item : JsValue) (field : jsstring) : M JsValue :=
  let encryptedField := field ++ Encrypted in
  value <- get_property item encryptedField ;;
  if truthy value then
    try_catch
      (decrypted <- decrypt value ;;
       let item := set_property item field (VStr decrypted) in
       let item := delete_property item encryptedField in
       ret item)
      (fun error =>
         console_error (js "Error descifrando " ++ field ++ js ":") error ;;
         ret item)
  else ret item.

Definition decrypt_item (item : JsValue) : M JsValue :=
  if truthy item then for_of sensitiveFields decrypt_field item
  else ret item.

(** The write half: [params] as the loop leaves them. *)
Definition encrypt_payload (params : Params) : M Params :=
  if is_write params then
    data <- get_property (args params) (js "data") ;;
    if truthy data then
      data <- for_of sensitiveFields encrypt_field data ;;
      ret {| action := action params; model := model params;
             args := set_property (args params) (js "data") data |}
    else ret params
  else ret params.

(** The read half: [result] as the loops leave it. *)
Definition decrypt_result (params : Params) (result : JsValue) : M JsValue :=
  if is_read params then
    if truthy result then
      match result with
      | VArr items => items <- for_each items decrypt_item ;; ret (VArr items)
      | _ => decrypt_item result
      end
    else ret result
  else ret result.

(** [await next(params)]: the call to the storage layer. *)
Definition call_next (next : Params -> M JsValue) (params : Params)
  : M JsValue :=
  emit (StorageCall params) ;;
  next params.

(** The function [createEncryptionMiddleware] returns. *)
Definition createEncryptionMiddleware (params : Params)
    (next : Params -> M JsValue) : M JsValue :=
  params <- encrypt_payload params ;;
  result <- call_next next params ;;
  decrypt_result params result.

End EncryptionService.

(** ** Vocabulary of the properties *)

(** A character the base64 encoder can write: [=] or a character of the
    standard alphabet. *)
Definition base64_output_char (c : N) : Prop :=
  c = Base64.pad \/ exists v, (v < 64)%N /\ c = Base64.char v.

(** A Unicode scalar value: a code point that is not a surrogate. *)
Definition scalar (c : N) : Prop :=
  (c < 1114112)%N /\ ~ (55296 <= c <= 57343)%N.

(** The state after more events. *)
Definition extend (w : World) (evs : list Event) : World :=
  {| ENCRYPTION_KEY := ENCRYPTION_KEY w; entropy := entropy w;
     drawn := drawn w; trace := trace w ++ evs |}.

(** The state after [n] random bytes were drawn and more events. *)
Definition advance (w : World) (n : nat) (evs : list Event) : World :=
  {| ENCRYPTION_KEY := ENCRYPTION_KEY w; entropy := entropy w;
     drawn := drawn w + n; trace := trace w ++ evs |}.

(** The bytes the random source delivers from position [from] on. *)
Definition draw (w : World) (from n : nat) : bytes :=
  map (entropy w) (seq from n).

(** The calls to the storage layer among the events. *)
Definition storage_calls (t : list Event) : list Params :=
  omap (fun e => match e with StorageCall p => Some p | _ => None end) t.

(** The operations of [crypto] among the events. *)
Definition crypto_ops (t : list Event) : list CryptoOp :=
  omap (fun e => match e with Crypto op => Some op | _ => None end) t.

(** The errors the two operations throw, whatever went wrong. *)
Definition encrypt_error : JsError := Error "Error al cifrar los datos".
Definition decrypt_error : JsError := Error "Error al descifrar los datos".

(** The buffer [encrypt] packs for a string, given the key and the bytes
    drawn. *)
Definition sealed (L : NodeCrypto) (k : jsstring) (salt iv_bytes : bytes)
    (s : jsstring) : bytes :=
  let key := scrypt L k salt keyLength in
  let ciphertext := gcm_stream L key (Utf8.encode s) in
  salt ++ iv_bytes ++ gcm_tag L key ciphertext ++ ciphertext.

(** What [decrypt] recovers from a buffer, if the tag is accepted. *)
Definition opened (L : NodeCrypto) (k : jsstring) (combined : bytes)
    : option jsstring :=
  let salt := subarray combined 0 saltLength in
  let tag := subarray combined (saltLength + ivLength)
                      (saltLength + ivLength + tagLength) in
  let ciphertext := subarray_from combined (saltLength + ivLength + tagLength) in
  let key := scrypt L k salt keyLength in
  if valid_gcm_tag_length (length tag)
     && bool_decide (tag = take (length tag) (gcm_tag L key ciphertext))
  then Some (Utf8.decode (gcm_stream L key ciphertext))
  else None.

Definition encrypt_events : list Event :=
  [Crypto (RandomBytes saltLength); Crypto (RandomBytes ivLength); Crypto Scrypt;
   Crypto CreateCipher; Crypto CipherUpdate; Crypto CipherFinal;
   Crypto GetAuthTag].

(** The events of a call of [decrypt] on a string, from what it recovers:
    the operations, then the log of the rejection of the tag. *)
Definition decrypt_events (recovered : option jsstring) : list Event :=
  [Crypto Scrypt; Crypto CreateDecipher; Crypto SetAuthTag;
   Crypto DecipherUpdate; Crypto DecipherFinal]
  ++ match recovered with
     | Some _ => []
     | None =>
         [ConsoleError (js "Error en descifrado:")
            (Error "Unsupported state or unable to authenticate data")]
     end.

(** The state of a fresh process with the given key. *)
Definition blank (key : option jsstring) : World :=
  {| ENCRYPTION_KEY := key; entropy := fun _ => x00; drawn := 0; trace := [] |}.

(** What a computation returns and what it logs when started in a fresh
    process. *)
Definition outcome {A} (m : M A) (key : option jsstring) : Result A :=
  fst (m (blank key)).

Definition logged {A} (m : M A) (key : option jsstring) : list Event :=
  trace (snd (m (blank key))).

(** A quiet computation behaves in every state as in a fresh process with
    the same key, and calls no storage. *)
Definition quiet {A} (m : M A) : Prop :=
  forall w,
    m w = (outcome m (ENCRYPTION_KEY w), extend w (logged m (ENCRYPTION_KEY w)))
    /\ storage_calls (logged m (ENCRYPTION_KEY w)) = [].

(** The master key is unset or has fewer than 32 characters. *)
Definition key_too_short (key : option jsstring) : Prop :=
  match key with
  | None => True
  | Some k => length k < 32
  end.

(** The master key is unset or empty. *)
Definition key_unset (key : option jsstring) : Prop :=
  key = None \/ key = Some [].

(** A string that decodes to 66 bytes and starts with [!]. *)
Definition long_garbage : jsstring := 33%N :: replicate 88 65%N.

(** Two states of one process between which no storage call was made. *)
Definition same_process (w w' : World) : Prop :=
  ENCRYPTION_KEY w' = ENCRYPTION_KEY w
  /\ entropy w' = entropy w
  /\ storage_calls (trace w') = storage_calls (trace w).

(** A computation that stays inside the process. *)
Definition internal {A} (m : M A) : Prop :=
  forall w, same_process w (snd (m w)).

(** The encryption of a sensitive field fails during the loop of the hook
    over the fields [fields] of [data], started in state [w]: it throws [e]
    in state [w']. *)
Inductive field_failure (L : NodeCrypto)
  : list jsstring -> JsValue -> World -> JsError -> World -> Prop :=
| fails_here field rest data w value e w' :
    get_property data field w = (Ok value, w) ->
    truthy value = true ->
    encrypt L value w = (Throw e, w') ->
    field_failure L (field :: rest) data w e w'
| fails_later field rest data w data1 w1 e w' :
    encrypt_field L data field w = (Ok data1, w1) ->
    field_failure L rest data1 w1 e w' ->
    field_failure L (field :: rest) data w e w'.

(** What [decrypt] returns for a value under a given master key. *)
Definition decrypt_value (L : NodeCrypto) (key : option jsstring)
    (v : JsValue) : Result jsstring :=
  outcome (decrypt L v) key.

(** One turn of the loop over the fields of an object read from storage:
    the object after the field was decrypted, or unchanged. *)
Definition decrypt_field_of (L : NodeCrypto) (key : option jsstring)
    (o : gmap jsstring JsValue) (field : jsstring) : gmap jsstring JsValue :=
  let encryptedField := field ++ Encrypted in
  if truthy (own o encryptedField) then
    match decrypt_value L key (own o encryptedField) with
    | Ok decrypted => delete encryptedField (<[field := VStr decrypted]> o)
    | Throw _ => o
    end
  else o.

Definition decrypt_item_of (L : NodeCrypto) (key : option jsstring)
    (item : JsValue) : JsValue :=
  match item with
  | VObj o => VObj (foldl (decrypt_field_of L key) o sensitiveFields)
  | _ => item
  end.

(** The encrypted and the plain property of a field after its turn of the
    loop, from what they were before. *)
Definition after_decrypt (L : NodeCrypto) (key : option jsstring)
    (enc plain : option JsValue) : option JsValue * option JsValue :=
  let v := default VUndefined enc in
  if truthy v then
    match decrypt_value L key v with
    | Ok decrypted => (None, Some (VStr decrypted))
    | Throw _ => (enc, plain)
    end
  else (enc, plain).


(** ** An executable instance of the primitives

    A stand-in for Node's [crypto] with the same shape (a derived key, a key
    stream applied by exclusive or, a 16-byte tag of the ciphertext), small
    enough to run the service on concrete inputs. It has none of the
    strength of the real primitives. *)

Module Demo.

Definition xor_all (init : byte) (b : bytes) : byte :=
  fold_right byte_xor init b.

Definition derive (password : jsstring) (salt : bytes) (keylen : nat) : bytes :=
  map (fun i => byte_of_N (N.of_nat i + foldr N.add 0%N password
                           + Byte.to_N (nth i salt x00)))
      (seq 0 keylen).

Definition stream (key data : bytes) : bytes :=
  map (byte_xor (xor_all x5a key)) data.

Definition tag (key data : bytes) : bytes :=
  xor_all (xor_all xa5 key) data :: replicate 15 (xor_all x3c key).

Definition crypto : NodeCrypto := {|
  scrypt := derive;
  gcm_stream := stream;
  gcm_tag := tag;
  bufferFromObject := fun _ => None
|}.

(** A master key of 32 characters and one of 10. *)
Definition key32 : jsstring := js "0123456789abcdef0123456789abcdef".
Definition key10 : jsstring := js "0123456789".

(** A process with the given master key whose random source delivers the
    bytes 3, 10, 17, ... *)
Definition world (key : option jsstring) : World := {|
  ENCRYPTION_KEY := key;
  entropy := fun n => byte_of_N (N.of_nat (7 * n + 3));
  drawn := 0;
  trace := []
|}.

(** A process whose random source delivers the same byte forever. *)
Definition stuck_world (key : option jsstring) : World := {|
  ENCRYPTION_KEY := key;
  entropy := fun _ => x2a;
  drawn := 0;
  trace := []
|}.

(** [{firstName: "Dana", other: "x"}] *)
Definition profile : gmap jsstring JsValue :=
  <[js "firstName" := VStr (js "Dana")]> (<[js "other" := VStr (js "x")]> ∅).

(** An operation [action] on [UserProfile] with [profile] as its data. *)
Definition operation (action : string) : Params :=
  {| action := js action; model := Some (js "UserProfile");
     args := VObj (<[js "data" := VObj profile]> ∅) |}.

(** A storage layer that stores nothing and answers [null]. *)
Definition storage (p : Params) : M JsValue := ret VNull.

(** The blob of ["555"] under the 32-character key. *)
Definition phone_blob : jsstring :=
  Base64.encode (sealed crypto key32 (replicate 32 x07) (replicate 16 x09)
                   (js "555")).

(** Two records: the first with a corrupted [phoneEncrypted], the second
    with a valid one. *)
Definition corrupted : gmap jsstring JsValue :=
  <[js "id" := VNum 1]> (<[js "phoneEncrypted" := VStr (js "not a blob")]> ∅).
Definition valid : gmap jsstring JsValue :=
  <[js "id" := VNum 2]> (<[js "phoneEncrypted" := VStr phone_blob]> ∅).

Definition findMany : Params :=
  {| action := js "findMany"; model := Some (js "UserProfile");
     args := VUndefined |}.

(** A storage layer that answers with the two records. *)
Definition records (p : Params) : M JsValue :=
  ret (VArr [VObj corrupted; VObj valid]).


End Demo.

(** ** The service: tokens and the data of a registration *)

(** [s.startsWith(p)] *)
Fixpoint String_startsWith (s p : jsstring) {struct p} : bool :=
  match p, s with
  | [], _ => true
  | a :: p', b :: s' => (b =? a)%N && String_startsWith s' p'
  | _ :: _, [] => false
  end.

(** [s.endsWith(p)] *)
Definition String_endsWith (s p : jsstring) : bool :=
  bool_decide (drop (length s - length p) s = p).

(** [s.replace(p, r)] for a string [p] and a replacement [r] without [$]:
    the first occurrence of [p] is replaced, the others are kept. *)
Fixpoint String_replace (s p r : jsstring) : jsstring :=
  if String_startsWith s p then r ++ drop (length p) s
  else match s with
       | [] => []
       | c :: rest => c :: String_replace rest p r
       end.

(** [buffer.constants.MAX_STRING_LENGTH], the longest string of V8 on a
    64-bit platform: [2^29 - 24], in hexadecimal [1fffffe8]. *)
Definition max_string_length : N := 536870888.

(** [crypto.randomBytes(size)] for a size that is a whole number, checked
    as Node checks it: a size above [2^31 - 1] is out of range, and nothing
    is drawn. *)
Definition randomBytes_sized (size : N) : M bytes :=
  if (size <=? 2147483647)%N then randomBytes (N.to_nat size)
  else throw (RangeError "The value of size is out of range").

(** [buf.toString('hex')]: two digits a byte, unless the string would be
    longer than V8 allows. *)
Definition Buffer_toString_hex (b : bytes) : M jsstring :=
  if (2 * N.of_nat (length b) <=? max_string_length)%N then ret (Hex.encode b)
  else throw (Error "Cannot create a string longer than 0x1fffffe8 characters").

(** [generateSecureToken(length = 32)], for a length that is a whole
    number. *)
Definition generateSecureToken (length : option N) : M jsstring :=
  let length := default 32%N length in
  token <- randomBytes_sized length ;;
  Buffer_toString_hex token.

Section UserData.

Variable L : NodeCrypto.

(** The body of the loop of [encryptSensitiveUserData] over an entry
    [[key, value]]; [result] is the object named [encrypted] in the source. *)
Definition encryptSensitiveUserData_step (result : gmap jsstring JsValue)
    (entry : jsstring * JsValue) : M (gmap jsstring JsValue) :=
  let key := fst entry in
  let value := snd entry in
  if truthy value && is_string value then
    encryptedData <- encrypt L value ;;
    ret (<[key ++ Encrypted := VStr (encrypted encryptedData)]> result)
  else ret result.

(** [encryptSensitiveUserData]; the argument is [Object.entries(userData)],
    the properties of the object in their order. *)
Definition encryptSensitiveUserData (userData : list (jsstring * JsValue))
  : M (gmap jsstring JsValue) :=
  for_of userData encryptSensitiveUserData_step ∅.

(** The body of the loop of [decryptSensitiveUserData]; [result] is the
    object named [decrypted] in the source. *)
Definition decryptSensitiveUserData_step (result : gmap jsstring JsValue)
    (entry : jsstring * JsValue) : M (gmap jsstring JsValue) :=
  let key := fst entry in
  let value := snd entry in
  if String_endsWith key Encrypted && truthy value then
    try_catch
      (let originalKey := String_replace key Encrypted [] in
       decrypted <- decrypt L value ;;
       ret (assign_string result originalKey decrypted))
      (fun error =>
         console_error (js "Error descifrando " ++ key ++ js ":") error ;;
         ret result)
  else ret result.

(** [decryptSensitiveUserData]; the argument is
    [Object.entries(encryptedData)]. *)
Definition decryptSensitiveUserData (encryptedData : list (jsstring * JsValue))
  : M (gmap jsstring JsValue) :=
  for_of encryptedData decryptSensitiveUserData_step ∅.

End UserData.

(** ** Vocabulary of the further properties *)


(** The digits [toString('hex')] writes. *)
Definition hex_digits : jsstring := js "0123456789abcdef".

(** The key stream of the cipher writes one byte for every byte read. *)
Definition stream_keeps_length (L : NodeCrypto) : Prop :=
  forall key data, length (gcm_stream L key data) = length data.

(** A value that is a string and not empty: what [encryptObject] and
    [encryptSensitiveUserData] encrypt. *)
Definition filled (v : JsValue) : bool := truthy v && is_string v.

(** A truthy value that is neither a string nor binary data: [true], a
    number other than 0, an array, or an object such as [{set: ...}]. *)
Definition truthy_non_string (v : JsValue) : Prop :=
  match v with
  | VBool b => b = true
  | VNum n => n <> 0%Z
  | VObj _ | VArr _ => True
  | _ => False
  end.

(** A value [decrypt] never accepts: [undefined], [null], a boolean, a
    number, or a string that decodes to fewer than 52 bytes. *)
Definition too_short (v : JsValue) : Prop :=
  match v with
  | VStr blob => length (Base64.decode blob) < 52
  | VObj _ | VArr _ => False
  | _ => True
  end.

(** The field [f] of [obj] has an encrypted counterpart that [decrypt]
    accepts under [key], with plaintext [p]. *)
Definition decrypts (L : NodeCrypto) (key : option jsstring)
    (obj : gmap jsstring JsValue) (f p : jsstring) : Prop :=
  truthy (own obj (f ++ Encrypted)) = true
  /\ decrypt_value L key (own obj (f ++ Encrypted)) = Ok p.

(** One turn of the loop of [decryptObject] under [key]. *)
Definition decryptObject_of (L : NodeCrypto) (key : option jsstring)
    (obj result : gmap jsstring JsValue) (field : jsstring)
    : gmap jsstring JsValue :=
  let encryptedField := field ++ Encrypted in
  if truthy (own obj encryptedField) then
    match decrypt_value L key (own obj encryptedField) with
    | Ok decrypted => delete encryptedField (assign_string result field decrypted)
    | Throw _ => result
    end
  else result.

(** One turn of the loop of [decryptSensitiveUserData] under [key]. *)
Definition decryptSensitiveUserData_of (L : NodeCrypto) (key : option jsstring)
    (result : gmap jsstring JsValue) (entry : jsstring * JsValue)
    : gmap jsstring JsValue :=
  if String_endsWith (fst entry) Encrypted && truthy (snd entry) then
    match decrypt_value L key (snd entry) with
    | Ok decrypted =>
        assign_string result (String_replace (fst entry) Encrypted []) decrypted
    | Throw _ => result
    end
  else result.

(** An entry the loop of [decryptSensitiveUserData] records: its key ends
    in ["Encrypted"] and is not ["__proto__Encrypted"], its value is truthy
    and [decrypt] accepts it. *)
Definition recovered_entry (L : NodeCrypto) (key : option jsstring)
    (entry : jsstring * JsValue) (p : jsstring) : Prop :=
  String_endsWith (fst entry) Encrypted = true
  /\ truthy (snd entry) = true
  /\ decrypt_value L key (snd entry) = Ok p
  /\ String_replace (fst entry) Encrypted [] <> js "__proto__".

(** ** Sample data for the further properties *)

Module Samples.

(** A [create] on [UserProfile] with [data] as its payload. *)
Definition create (data : gmap jsstring JsValue) : Params :=
  {| action := js "create"; model := Some (js "UserProfile");
     args := VObj (<[js "data" := VObj data]> ∅) |}.

Definition findUnique : Params :=
  {| action := js "findUnique"; model := Some (js "UserProfile");
     args := VUndefined |}.

(** [{phone: 555}]: a number where a string is expected. *)
Definition numeric : gmap jsstring JsValue := <[js "phone" := VNum 555]> ∅.

(** [{userId: 7, phoneEncrypted: <blob>}]: a payload encrypted by the
    caller. *)
Definition sealed_payload : gmap jsstring JsValue :=
  <[js "userId" := VNum 7]> (<[js "phoneEncrypted" := VStr Demo.phone_blob]> ∅).

(** A storage layer that answers with the record [valid]. *)
Definition found (p : Params) : M JsValue := ret (VObj Demo.valid).

(** [{id: 3, phoneEncrypted: <blob>, addressEncrypted: "not a blob"}] *)
Definition mixed : gmap jsstring JsValue :=
  <[js "id" := VNum 3]>
    (<[js "phoneEncrypted" := VStr Demo.phone_blob]>
       (<[js "addressEncrypted" := VStr (js "not a blob")]> ∅)).

(** The data of a registration: some fields filled, [phone] left out,
    [motivation] empty. *)
Definition registration : list (jsstring * JsValue) :=
  [(js "firstName", VStr (js "Dana")); (js "lastName", VStr (js "Levi"));
   (js "phone", VUndefined); (js "birthDate", VStr (js "1990-01-01"));
   (js "nationality", VStr (js "AR")); (js "address", VUndefined);
   (js "motivation", VStr [])].

End Samples.

(* ===================================================================== *)
(** * Part II: the encodings *)
(* ===================================================================== *)

(** Comparisons on [N] in the goal are split into their two cases. *)
Ltac split_N :=
  repeat match goal with
    | |- context [N.ltb ?a ?b] => destruct (N.ltb_spec a b)
    | |- context [N.leb ?a ?b] => destruct (N.leb_spec a b)
    | |- context [N.eqb ?a ?b] => destruct (N.eqb_spec a b)
    end.

(** Linear arithmetic with division and remainder by constants. *)
Ltac euclid := zify; Z.to_euclidean_division_equations; lia.

(** Comparisons on [N] in the goal whose outcome follows from the context
    are replaced by it. *)
Ltac decide_N :=
  repeat first
    [ rewrite (proj2 (N.ltb_lt _ _)) by euclid
    | rewrite (proj2 (N.ltb_ge _ _)) by euclid
    | rewrite (proj2 (N.leb_le _ _)) by euclid
    | rewrite (proj2 (N.leb_gt _ _)) by euclid
    | rewrite (proj2 (N.eqb_eq _ _)) by euclid
    | rewrite (proj2 (N.eqb_neq _ _)) by euclid ];
  cbn [andb orb negb].

Lemma to_N_lt (b : byte) : (Byte.to_N b < 256)%N.
Proof. pose proof (Byte.to_N_bounded b). lia. Qed.

Lemma byte_of_to_N (b : byte) : byte_of_N (Byte.to_N b) = b.
Proof.
  unfold byte_of_N. rewrite N.mod_small by apply to_N_lt.
  by rewrite Byte.of_to_N.
Qed.

Lemma to_of_byte_N (n : N) : (n < 256)%N -> Byte.to_N (byte_of_N n) = n.
Proof.
  intros Hn. unfold byte_of_N. rewrite N.mod_small by done.
  destruct (Byte.of_N n) as [b|] eqn:Hb.
  - by apply Byte.to_of_N.
  - apply Byte.of_N_None_iff in Hb. lia.
Qed.

Lemma byte_of_N_eq (n : N) (b : byte) : n = Byte.to_N b -> byte_of_N n = b.
Proof. intros ->. apply byte_of_to_N. Qed.

Lemma hex_undigit_digit (v : N) :
  (v < 16)%N -> Hex.undigit (Hex.digit v) = Some v.
Proof.
  intros Hv. unfold Hex.digit.
  destruct (N.ltb_spec v 10); unfold Hex.undigit; decide_N; f_equal; lia.
Qed.

(** Hex: what [toString('hex')] writes, [Buffer.from(_, 'hex')] reads back. *)
Lemma hex_decode_encode (b : bytes) : Hex.decode (Hex.encode b) = b.
Proof.
  induction b as [|x b IH]; [done|].
  pose proof (to_N_lt x) as Hx.
  cbn [Hex.encode Hex.decode].
  rewrite !hex_undigit_digit by euclid.
  rewrite IH. f_equal. apply byte_of_N_eq. euclid.
Qed.

Lemma hex_encode_app (a b : bytes) :
  Hex.encode (a ++ b) = Hex.encode a ++ Hex.encode b.
Proof. induction a as [|x a IH]; [done|]. cbn. by rewrite IH. Qed.

Lemma base64_unbase64_char (v : N) :
  (v < 64)%N -> Base64.unbase64 (Base64.char v) = Some v.
Proof.
  intros Hv. unfold Base64.char.
  split_N; unfold Base64.unbase64; decide_N; f_equal; lia.
Qed.

Lemma base64_char_not_pad (v : N) : Base64.char v <> Base64.pad.
Proof. unfold Base64.char, Base64.pad. split_N; lia. Qed.

Lemma base64_char_lt (v : N) : (v < 64)%N -> (Base64.char v < 256)%N.
Proof. intros Hv. unfold Base64.char. split_N; lia. Qed.

Lemma base64_sextets_char (v : N) (s : jsstring) :
  (v < 64)%N ->
  Base64.sextets (Base64.char v :: s) = v :: Base64.sextets s.
Proof.
  intros Hv. cbn [Base64.sextets]. cbv zeta.
  rewrite N.mod_small by (by apply base64_char_lt).
  destruct (N.eqb_spec (Base64.char v) Base64.pad) as [E|_].
  - by destruct (base64_char_not_pad v).
  - by rewrite base64_unbase64_char.
Qed.

Lemma base64_sextets_pad (s : jsstring) :
  Base64.sextets (Base64.pad :: s) = [].
Proof. done. Qed.

(** Induction on a list three elements at a time. *)
Lemma list_ind3 {A} (P : list A -> Prop) :
  P [] -> (forall x, P [x]) -> (forall x y, P [x; y]) ->
  (forall x y z l, P l -> P (x :: y :: z :: l)) ->
  forall l, P l.
Proof.
  intros H0 H1 H2 H3.
  fix IH 1. intros [|x [|y [|z l]]]; [apply H0 | apply H1 | apply H2 | apply H3, IH].
Qed.

(** Base64: what [toString('base64')] writes, [Buffer.from(_, 'base64')]
    reads back. *)
Lemma base64_decode_encode (b : bytes) : Base64.decode (Base64.encode b) = b.
Proof.
  unfold Base64.decode.
  induction b as [|x|x y|x y z b IH] using list_ind3.
  - done.
  - pose proof (to_N_lt x).
    cbn [Base64.encode].
    rewrite !base64_sextets_char, base64_sextets_pad by euclid.
    cbn [Base64.pack]. f_equal. apply byte_of_N_eq. euclid.
  - pose proof (to_N_lt x). pose proof (to_N_lt y).
    cbn [Base64.encode].
    rewrite !base64_sextets_char, base64_sextets_pad by euclid.
    cbn [Base64.pack].
    f_equal; [|f_equal]; apply byte_of_N_eq; euclid.
  - pose proof (to_N_lt x). pose proof (to_N_lt y). pose proof (to_N_lt z).
    cbn [Base64.encode].
    rewrite !base64_sextets_char by euclid.
    cbn [Base64.pack]. rewrite IH.
    f_equal; [|f_equal; [|f_equal]]; apply byte_of_N_eq; euclid.
Qed.

Lemma base64_encode_inj (a b : bytes) :
  Base64.encode a = Base64.encode b -> a = b.
Proof.
  intros H. rewrite <- (base64_decode_encode a), <- (base64_decode_encode b).
  by rewrite H.
Qed.

(** The encoder writes only characters of the standard alphabet and [=]. *)
Lemma base64_output_char_intro (v : N) :
  (v < 64)%N -> base64_output_char (Base64.char v).
Proof. intros Hv. right. by exists v. Qed.

Lemma base64_encode_chars (b : bytes) :
  Forall base64_output_char (Base64.encode b).
Proof.
  induction b as [|x|x y|x y z b IH] using list_ind3;
    [constructor|..];
    pose proof (to_N_lt x); try pose proof (to_N_lt y);
    try pose proof (to_N_lt z);
    cbn [Base64.encode];
    repeat first [apply Forall_nil_2 | apply Forall_cons_2];
    first [assumption | by left | apply base64_output_char_intro; euclid].
Qed.

(** ** UTF-8 *)

Lemma utf8_feed_app (st : Utf8.state) (a b : bytes) :
  Utf8.feed st (a ++ b)
  = (fst (Utf8.feed st a) ++ fst (Utf8.feed (snd (Utf8.feed st a)) b),
     snd (Utf8.feed (snd (Utf8.feed st a)) b)).
Proof.
  revert st. induction a as [|x a IH]; intros st.
  - cbn. by destruct (Utf8.feed st b).
  - cbn [app Utf8.feed]. destruct (Utf8.step st x) as [o1 st1].
    rewrite IH. destruct (Utf8.feed st1 a) as [o2 st2]. cbn.
    by rewrite app_assoc.
Qed.

(** One byte read by the decoder, with the byte given by its number. *)
Lemma utf8_step_lead (n : N) :
  (n < 256)%N -> Utf8.step Utf8.start (byte_of_N n) = Utf8.lead n.
Proof. intros Hn. unfold Utf8.step. cbn. by rewrite to_of_byte_N. Qed.

Lemma utf8_step_last (c lo hi n : N) :
  (n < 256)%N -> (lo <= n <= hi)%N ->
  Utf8.step (Utf8.State c 1 lo hi) (byte_of_N n)
  = (Utf8.units (c * 64 + (n - 128)), Utf8.start).
Proof.
  intros Hn Hr. unfold Utf8.step. cbn [Utf8.needed Utf8.lower Utf8.upper Utf8.code_point].
  rewrite to_of_byte_N by done. by decide_N.
Qed.

Lemma utf8_step_more (c lo hi n : N) (k : nat) :
  (n < 256)%N -> (lo <= n <= hi)%N ->
  Utf8.step (Utf8.State c (S (S k)) lo hi) (byte_of_N n)
  = ([], Utf8.State (c * 64 + (n - 128)) (S k) 128 191).
Proof.
  intros Hn Hr. unfold Utf8.step. cbn [Utf8.needed Utf8.lower Utf8.upper Utf8.code_point].
  rewrite to_of_byte_N by done. by decide_N.
Qed.

(** The base-64 digits of a number. *)
Lemma digits64 (c : N) :
  exists d0 d1 d2 d3 : N,
    (c mod 64 = d0 /\ (c / 64) mod 64 = d1 /\ (c / 4096) mod 64 = d2
     /\ c / 262144 = d3 /\ c / 4096 = d2 + 64 * d3
     /\ c / 64 = d1 + 64 * d2 + 4096 * d3
     /\ c = d0 + 64 * d1 + 4096 * d2 + 262144 * d3
     /\ d0 < 64 /\ d1 < 64 /\ d2 < 64)%N.
Proof.
  exists (c mod 64)%N, ((c / 64) mod 64)%N, ((c / 4096) mod 64)%N, (c / 262144)%N.
  repeat split; euclid.
Qed.

(** The decoder reads back the bytes of a scalar value. *)
Lemma utf8_feed_encode_cp (c : N) :
  scalar c -> Utf8.feed Utf8.start (Utf8.encode_cp c) = (Utf8.units c, Utf8.start).
Proof.
  intros [Hc Hs]. unfold Utf8.encode_cp.
  destruct (digits64 c)
    as (d0 & d1 & d2 & d3 & E0 & E1 & E2 & E3 & E4 & E5 & E & B0 & B1 & B2).
  rewrite ?E0, ?E1, ?E2, ?E3, ?E4, ?E5. clear E0 E1 E2 E3 E4 E5.
  destruct (N.ltb_spec c 128); [|destruct (N.ltb_spec c 2048); [|destruct (N.ltb_spec c 65536)]].
  - cbn [Utf8.feed]. rewrite utf8_step_lead by lia.
    unfold Utf8.lead, Utf8.units. decide_N. done.
  - cbn [Utf8.feed]. rewrite utf8_step_lead by lia.
    unfold Utf8.lead. decide_N.
    rewrite utf8_step_last by lia. cbn [app].
    rewrite app_nil_r. do 2 f_equal. lia.
  - cbn [Utf8.feed]. rewrite utf8_step_lead by lia.
    unfold Utf8.lead. decide_N.
    destruct (N.eqb_spec (224 + (d2 + 64 * d3)) 224),
             (N.eqb_spec (224 + (d2 + 64 * d3)) 237);
      (rewrite utf8_step_more by lia);
      (rewrite utf8_step_last by lia);
      cbn [app]; rewrite app_nil_r; do 2 f_equal; lia.
  - cbn [Utf8.feed]. rewrite utf8_step_lead by lia.
    unfold Utf8.lead. decide_N.
    destruct (N.eqb_spec (240 + d3) 240), (N.eqb_spec (240 + d3) 244);
      (rewrite utf8_step_more by lia);
      (rewrite utf8_step_more by lia);
      (rewrite utf8_step_last by lia);
      cbn [app]; rewrite app_nil_r; do 2 f_equal; lia.
Qed.

Lemma utf8_units_pair (u l : N) :
  Utf8.is_high u = true -> Utf8.is_low l = true ->
  scalar (65536 + (u - 55296) * 1024 + (l - 56320))
  /\ Utf8.units (65536 + (u - 55296) * 1024 + (l - 56320)) = [u; l].
Proof.
  unfold Utf8.is_high, Utf8.is_low. intros Hu Hl.
  apply andb_true_iff in Hu as [Hu1 Hu2]. apply andb_true_iff in Hl as [Hl1 Hl2].
  apply N.leb_le in Hu1, Hu2, Hl1, Hl2.
  split; [split; lia|].
  unfold Utf8.units. decide_N. f_equal; [|f_equal]; euclid.
Qed.

Lemma utf8_units_single (u : N) :
  Utf8.is_high u = false -> Utf8.is_low u = false -> (u < 65536)%N ->
  scalar u /\ Utf8.units u = [u].
Proof.
  unfold Utf8.is_high, Utf8.is_low. intros Hu Hl Hb.
  apply andb_false_iff in Hu. apply andb_false_iff in Hl.
  rewrite !N.leb_gt in Hu, Hl.
  split; [split; lia|]. unfold Utf8.units. by decide_N.
Qed.

Lemma utf8_feed_encode_bounded (n : nat) (s : jsstring) :
  length s <= n -> Utf8.well_formed s = true ->
  Utf8.feed Utf8.start (Utf8.encode s) = (s, Utf8.start).
Proof.
  revert s. induction n as [|n IH]; intros [|u rest] Hn Hwf; try done.
  - cbn in Hn. lia.
  - cbn [Utf8.well_formed Utf8.encode] in *.
    destruct (Utf8.is_high u) eqn:Hhigh.
    + destruct rest as [|l rest']; [done|].
      apply andb_true_iff in Hwf as [Hlow Hwf]. rewrite Hlow.
      destruct (utf8_units_pair u l Hhigh Hlow) as [Hs Hu].
      rewrite utf8_feed_app, utf8_feed_encode_cp by done. cbn [fst snd].
      rewrite IH by (cbn in Hn |- *; lia || done). by rewrite Hu.
    + apply andb_true_iff in Hwf as [Hwf Hrest].
      apply andb_true_iff in Hwf as [Hlow Hb].
      apply negb_true_iff in Hlow. apply N.ltb_lt in Hb. rewrite Hlow.
      destruct (utf8_units_single u Hhigh Hlow Hb) as [Hs Hu].
      rewrite utf8_feed_app, utf8_feed_encode_cp by done. cbn [fst snd].
      rewrite IH by (cbn in Hn |- *; lia || done). by rewrite Hu.
Qed.

(** UTF-8: a well-formed string written as bytes is read back unchanged. *)
Lemma utf8_decode_encode (s : jsstring) :
  Utf8.well_formed s = true -> Utf8.decode (Utf8.encode s) = s.
Proof.
  intros Hwf. unfold Utf8.decode.
  rewrite (utf8_feed_encode_bounded (length s)) by done.
  cbn. apply app_nil_r.
Qed.

Lemma utf8_decode_feed (b : bytes) :
  Utf8.decode b
  = fst (Utf8.feed Utf8.start b) ++ Utf8.finish (snd (Utf8.feed Utf8.start b)).
Proof. unfold Utf8.decode. by destruct (Utf8.feed Utf8.start b). Qed.

(** ** Exclusive or on bytes *)

Lemma to_bits_inj (a b : byte) : Byte.to_bits a = Byte.to_bits b -> a = b.
Proof.
  intros H. rewrite <- (Byte.of_bits_to_bits a), <- (Byte.of_bits_to_bits b).
  by rewrite H.
Qed.

(** A byte taken apart into its eight bits. *)
Ltac bits_of x :=
  let H := fresh "E" x in
  destruct (Byte.to_bits x) as [? [? [? [? [? [? [? ?]]]]]]] eqn:H.

(** An equation between tuples, component by component. *)
Ltac pairwise := repeat match goal with |- (_, _) = (_, _) => f_equal end.

Lemma to_bits_xor (a b : byte) :
  Byte.to_bits (byte_xor a b)
  = (let '(a0, (a1, (a2, (a3, (a4, (a5, (a6, a7))))))) := Byte.to_bits a in
     let '(b0, (b1, (b2, (b3, (b4, (b5, (b6, b7))))))) := Byte.to_bits b in
     (xorb a0 b0, (xorb a1 b1, (xorb a2 b2, (xorb a3 b3,
     (xorb a4 b4, (xorb a5 b5, (xorb a6 b6, xorb a7 b7)))))))).
Proof.
  unfold byte_xor. bits_of a. bits_of b. apply Byte.to_bits_of_bits.
Qed.

Lemma byte_xor_comm (a b : byte) : byte_xor a b = byte_xor b a.
Proof.
  apply to_bits_inj. rewrite !to_bits_xor. bits_of a. bits_of b.
  pairwise; apply xorb_comm.
Qed.

Lemma byte_xor_assoc (a b c : byte) :
  byte_xor a (byte_xor b c) = byte_xor (byte_xor a b) c.
Proof.
  apply to_bits_inj. rewrite !to_bits_xor. bits_of a. bits_of b. bits_of c.
  pairwise; symmetry; apply xorb_assoc.
Qed.

Lemma byte_xor_nilpotent (a : byte) : byte_xor a a = x00.
Proof.
  apply to_bits_inj. rewrite to_bits_xor. bits_of a.
  rewrite !xorb_nilpotent. reflexivity.
Qed.

Lemma byte_xor_zero_r (a : byte) : byte_xor a x00 = a.
Proof.
  apply to_bits_inj. rewrite to_bits_xor. bits_of a. cbn.
  by rewrite !xorb_false_r.
Qed.

Lemma byte_xor_involutive (k a : byte) : byte_xor k (byte_xor k a) = a.
Proof.
  rewrite byte_xor_assoc, byte_xor_nilpotent, byte_xor_comm.
  apply byte_xor_zero_r.
Qed.

Lemma byte_xor_fixed (a m : byte) : byte_xor a m = a -> m = x00.
Proof.
  intros H. rewrite <- (byte_xor_involutive a m), H.
  apply byte_xor_nilpotent.
Qed.

Lemma bit_mask_nonzero (j : nat) : j < 8 -> bit_mask j <> x00.
Proof.
  intros Hj. do 8 (destruct j as [|j]; [discriminate|]). lia.
Qed.

(** Inverting a bit changes the byte, hence the buffer. *)
Lemma flip_bit_changes (i j : nat) (b : bytes) :
  i < length b -> j < 8 -> flip_bit i j b <> b.
Proof.
  intros Hi Hj H. unfold flip_bit in H.
  destruct (lookup_lt_is_Some_2 b i Hi) as [x Hx].
  assert (alter (λ x, byte_xor x (bit_mask j)) i b !! i = Some x) as Hy
    by (by rewrite H).
  rewrite list_lookup_alter_eq, Hx in Hy. simpl in Hy.
  inversion Hy as [Hz]. by apply byte_xor_fixed, bit_mask_nonzero in Hz.
Qed.

Lemma flip_bit_length (i j : nat) (b : bytes) :
  length (flip_bit i j b) = length b.
Proof. apply length_alter. Qed.

(** ** The executable instance satisfies what is assumed of Node *)

Lemma demo_xor_all_flip (init : byte) (i j : nat) (b : bytes) :
  i < length b ->
  Demo.xor_all init (flip_bit i j b)
  = byte_xor (Demo.xor_all init b) (bit_mask j).
Proof.
  revert i. induction b as [|x b IH]; intros i Hi; cbn in Hi; [lia|].
  destruct i as [|i]; cbn.
  - rewrite <- !byte_xor_assoc. f_equal. apply byte_xor_comm.
  - unfold flip_bit in IH. rewrite IH by lia. apply byte_xor_assoc.
Qed.

Lemma demo_laws : NodeCryptoLaws Demo.crypto.
Proof.
  split; cbn; intros key data.
  - unfold Demo.stream. rewrite map_map.
    induction data as [|x data IH]; [done|].
    cbn. by rewrite byte_xor_involutive, IH.
  - unfold Demo.tag. reflexivity.
Qed.

Lemma demo_tag_detects_bit_flips : tag_detects_bit_flips Demo.crypto.
Proof.
  intros key data i j Hi Hj. cbn. unfold Demo.tag. intros H.
  injection H as H. rewrite demo_xor_all_flip in H by done.
  by apply byte_xor_fixed, bit_mask_nonzero in H.
Qed.

(** ** The encodings on examples *)

Example hex_example :
  Hex.encode [x00; x1f; xff] = js "001fff"
  /\ Hex.decode (js "001FfF7") = [x00; x1f; xff].
Proof. split; reflexivity. Qed.

Example base64_example :
  Base64.encode [x4d; x61; x6e] = js "TWFu"
  /\ Base64.encode [x4d; x61] = js "TWE="
  /\ Base64.encode [x4d] = js "TQ=="
  /\ Base64.decode (js "TW Fu!TQ==TWFu") = [x4d; x61; x6e; x4d].
Proof. repeat split; reflexivity. Qed.

(** Code units above [U+00FF] are read by their low byte: [U+0141] as [A],
    [U+0151] as [Q]. *)
Example base64_low_byte_example :
  Base64.decode [321; 337; 321; 321]%N = Base64.decode (js "AQAA")
  /\ Base64.decode (js "AQAA") = [x01; x00; x00].
Proof. split; reflexivity. Qed.

Example utf8_example :
  Utf8.encode [233; 8364; 55357; 56832]%N
  = [xc3; xa9; xe2; x82; xac; xf0; x9f; x98; x80]
  /\ Utf8.decode [xc3; xa9; xe2; x82; xac; xf0; x9f; x98; x80]
     = [233; 8364; 55357; 56832]%N
  /\ Utf8.decode [xe2; x82; x41; xff; xf0; x9f] = [65533; 65; 65533; 65533]%N
  /\ Utf8.encode [55296%N] = [xef; xbf; xbd].
Proof. repeat split; reflexivity. Qed.

(* ===================================================================== *)
(** * Part III: runs of the service *)
(* ===================================================================== *)

(** Unfolding of the monad and of the primitives, leaving the encodings,
    the lengths and the primitives of [crypto] folded. *)
Ltac run :=
  cbv [try_catch bind ret throw emit console_error getenv_ENCRYPTION_KEY
       randomBytes deriveKey createCipher cipher_update cipher_final
       cipher_getAuthTag createDecipher decipher_setAuthTag decipher_update
       decipher_final Buffer_from_base64 get_property
       ENCRYPTION_KEY entropy drawn trace fst snd
       cipher_key cipher_input cipher_finalized
       decipher_key decipher_tag decipher_input decipher_decoder
       is_string].

Section Runs.

Variable L : NodeCrypto.

Lemma encrypt_string (w : World) (k s : jsstring) :
  ENCRYPTION_KEY w = Some k -> key_rejected (Some k) = false ->
  encrypt L (VStr s) w
  = (let salt := draw w (drawn w) saltLength in
     let iv_bytes := draw w (drawn w + saltLength) ivLength in
     let key := scrypt L k salt keyLength in
     let ciphertext := gcm_stream L key (Utf8.encode s) in
     (Ok {| encrypted := Base64.encode (sealed L k salt iv_bytes s);
            authTag := Hex.encode (gcm_tag L key ciphertext);
            iv := Hex.encode iv_bytes |},
      advance w (saltLength + ivLength) encrypt_events)).
Proof.
  intros Hk Hr. unfold encrypt. destruct w as [key ent dr tr]. cbn in Hk. subst key.
  run. rewrite Hr. run.
  unfold sealed, draw, advance, encrypt_events. run.
  cbn [app length drop]. rewrite !app_nil_r, !hex_decode_encode.
  rewrite <- !app_assoc, Nat.add_assoc. reflexivity.
Qed.

Lemma encrypt_rejected (w : World) (text : JsValue) :
  key_rejected (ENCRYPTION_KEY w) = true ->
  encrypt L text w
  = (Throw encrypt_error,
     extend w [ConsoleError (js "Error en cifrado:")
                 (Error "ENCRYPTION_KEY debe tener al menos 32 caracteres")]).
Proof.
  intros Hr. unfold encrypt. destruct w as [[k|] ent dr tr]; cbn in Hr; run.
  - cbn. rewrite Hr. reflexivity.
  - reflexivity.
Qed.

Lemma encrypt_not_string (w : World) (k : jsstring) (text : JsValue) :
  ENCRYPTION_KEY w = Some k -> key_rejected (Some k) = false ->
  is_string text = false ->
  encrypt L text w
  = (Throw encrypt_error,
     advance w (saltLength + ivLength)
       [Crypto (RandomBytes saltLength); Crypto (RandomBytes ivLength);
        Crypto Scrypt; Crypto CreateCipher; Crypto CipherUpdate;
        ConsoleError (js "Error en cifrado:")
          (TypeError "The data argument must be of type string")]).
Proof.
  intros Hk Hr Ht. unfold encrypt. destruct w as [key ent dr tr]. cbn in Hk. subst key.
  run. rewrite Hr. run.
  destruct text; try discriminate Ht; run; unfold advance; run;
    rewrite <- !app_assoc, Nat.add_assoc; reflexivity.
Qed.

(** Whatever [encrypt] returns was packed from a string under an accepted
    key. *)
Lemma encrypt_Ok_inv (w w' : World) (text : JsValue) (e : EncryptedData) :
  encrypt L text w = (Ok e, w') ->
  exists k s,
    text = VStr s /\ ENCRYPTION_KEY w = Some k /\ key_rejected (Some k) = false.
Proof.
  intros H.
  destruct (key_rejected (ENCRYPTION_KEY w)) eqn:Hr.
  { rewrite encrypt_rejected in H by done. discriminate. }
  destruct (ENCRYPTION_KEY w) as [k|] eqn:Hk; [|discriminate].
  destruct (is_string text) eqn:Ht.
  - destruct text; try discriminate. eauto.
  - rewrite (encrypt_not_string w k) in H by done. discriminate.
Qed.

Lemma decrypt_missing (w : World) (v : JsValue) :
  key_missing (ENCRYPTION_KEY w) = true ->
  decrypt L v w
  = (Throw decrypt_error,
     extend w [ConsoleError (js "Error en descifrado:")
                 (Error "ENCRYPTION_KEY no está configurada")]).
Proof.
  intros Hr. unfold decrypt. destruct w as [[k|] ent dr tr]; cbn in Hr; run.
  - cbn. rewrite Hr. reflexivity.
  - reflexivity.
Qed.

Lemma decrypt_string (w : World) (k blob : jsstring) :
  ENCRYPTION_KEY w = Some k -> key_missing (Some k) = false ->
  decrypt L (VStr blob) w
  = (match opened L k (Base64.decode blob) with
     | Some s => Ok s
     | None => Throw decrypt_error
     end,
     extend w (decrypt_events (opened L k (Base64.decode blob)))).
Proof.
  intros Hk Hr. unfold decrypt. destruct w as [key ent dr tr]. cbn in Hk. subst key.
  run. rewrite Hr. run. unfold opened.
  set (combined := Base64.decode blob).
  set (tag := subarray combined _ _).
  set (key := scrypt L k _ _).
  set (ct := subarray_from combined _).
  destruct (valid_gcm_tag_length (length tag)) eqn:Hv; run.
  - cbn [app length andb]. rewrite drop_0.
    destruct (bool_decide (tag = take (length tag) (gcm_tag L key ct))); run.
    + rewrite utf8_decode_feed.
      unfold extend, decrypt_events; run; rewrite <- !app_assoc; reflexivity.
    + unfold extend, decrypt_events; run; rewrite <- !app_assoc; reflexivity.
  - cbn [andb].
    unfold extend, decrypt_events; run; rewrite <- !app_assoc; reflexivity.
Qed.

(** Whatever goes wrong, the two operations throw one error each. *)
Lemma encrypt_throws_generic (w w' : World) (text : JsValue) (e : JsError) :
  encrypt L text w = (Throw e, w') -> e = encrypt_error.
Proof.
  unfold encrypt, try_catch.
  match goal with
  | |- context [match ?m w with _ => _ end] => destruct (m w) as [[a|e0] w0]
  end.
  - discriminate.
  - run. intros H. apply pair_equal_spec in H as [H _].
    unfold encrypt_error. congruence.
Qed.

Lemma decrypt_throws_generic (w w' : World) (v : JsValue) (e : JsError) :
  decrypt L v w = (Throw e, w') -> e = decrypt_error.
Proof.
  unfold decrypt, try_catch.
  match goal with
  | |- context [match ?m w with _ => _ end] => destruct (m w) as [[a|e0] w0]
  end.
  - discriminate.
  - run. intros H. apply pair_equal_spec in H as [H _].
    unfold decrypt_error. congruence.
Qed.

End Runs.

(** ** Computations that only read the key and add events *)

Lemma extend_extend (w : World) (a b : list Event) :
  extend (extend w a) b = extend w (a ++ b).
Proof. unfold extend. cbn. by rewrite app_assoc. Qed.

Lemma storage_calls_app (a b : list Event) :
  storage_calls (a ++ b) = storage_calls a ++ storage_calls b.
Proof. apply omap_app. Qed.

Lemma quiet_ret {A} (a : A) : quiet (ret a).
Proof. intros w. split; [|done]. unfold extend. destruct w. cbn. by rewrite app_nil_r. Qed.

Lemma quiet_throw {A} (e : JsError) : quiet (@throw A e).
Proof. intros w. split; [|done]. unfold extend. destruct w. cbn. by rewrite app_nil_r. Qed.

Lemma quiet_getenv : quiet getenv_ENCRYPTION_KEY.
Proof. intros w. split; [|done]. unfold extend. destruct w. cbn. by rewrite app_nil_r. Qed.

Lemma quiet_crypto (op : CryptoOp) : quiet (emit (Crypto op)).
Proof. intros w. by split. Qed.

Lemma quiet_console_error (label : jsstring) (e : JsError) :
  quiet (console_error label e).
Proof. intros w. by split. Qed.

(** The state a quiet computation ends in, started in a fresh process. *)
Lemma quiet_blank {A} (m : M A) (key : option jsstring) :
  quiet m -> m (blank key) = (outcome m key, extend (blank key) (logged m key)).
Proof. intros Hm. apply (Hm (blank key)). Qed.

Lemma quiet_bind {A B} (m : M A) (k : A -> M B) :
  quiet m -> (forall a, quiet (k a)) -> quiet (bind m k).
Proof.
  intros Hm Hk w. set (key := ENCRYPTION_KEY w).
  unfold outcome, logged, bind.
  rewrite (quiet_blank m key Hm). destruct (Hm w) as [-> Hs]. fold key in Hs |- *.
  destruct (outcome m key) as [a|e].
  - destruct (Hk a (extend w (logged m key))) as [-> Hs1].
    destruct (Hk a (extend (blank key) (logged m key))) as [-> Hs2].
    cbn [fst snd ENCRYPTION_KEY extend blank trace app] in *. fold key in Hs1 |- *.
    rewrite storage_calls_app, Hs, Hs1.
    split; [|done]. f_equal. unfold extend. cbn. by rewrite app_assoc.
  - cbn. by split.
Qed.

Lemma quiet_try_catch {A} (m : M A) (h : JsError -> M A) :
  quiet m -> (forall e, quiet (h e)) -> quiet (try_catch m h).
Proof.
  intros Hm Hh w. set (key := ENCRYPTION_KEY w).
  unfold outcome, logged, try_catch.
  rewrite (quiet_blank m key Hm). destruct (Hm w) as [-> Hs]. fold key in Hs |- *.
  destruct (outcome m key) as [a|e].
  - cbn. by split.
  - destruct (Hh e (extend w (logged m key))) as [-> Hs1].
    destruct (Hh e (extend (blank key) (logged m key))) as [-> Hs2].
    cbn [fst snd ENCRYPTION_KEY extend blank trace app] in *. fold key in Hs1 |- *.
    rewrite storage_calls_app, Hs, Hs1.
    split; [|done]. f_equal. unfold extend. cbn. by rewrite app_assoc.
Qed.

Lemma quiet_for_of {A S} (xs : list A) (body : S -> A -> M S) (acc : S) :
  (forall acc x, quiet (body acc x)) -> quiet (for_of xs body acc).
Proof.
  intros Hb. revert acc. induction xs as [|x xs IH]; intros acc; cbn.
  - apply quiet_ret.
  - apply quiet_bind; auto.
Qed.

Lemma quiet_for_each {A} (xs : list A) (body : A -> M A) :
  (forall x, quiet (body x)) -> quiet (for_each xs body).
Proof.
  intros Hb. induction xs as [|x xs IH]; cbn.
  - apply quiet_ret.
  - apply quiet_bind; [auto|]. intros x'.
    apply quiet_bind; [auto|]. intros rest'. apply quiet_ret.
Qed.

Create HintDb quiet.
#[export] Hint Resolve quiet_ret quiet_throw quiet_getenv quiet_crypto
  quiet_console_error : quiet.

(** A computation built from quiet parts is quiet. *)
Ltac quiet_step :=
  first
    [ solve [auto with quiet]
    | apply quiet_bind; [|intros ?]
    | apply quiet_try_catch; [|intros ?]
    | match goal with
      | |- quiet (match ?x with _ => _ end) => destruct x
      end
    | progress cbv zeta ].

Section Quiet.

Variable L : NodeCrypto.

Lemma quiet_get_property (v : JsValue) (k : jsstring) :
  quiet (get_property v k).
Proof. unfold get_property. repeat quiet_step. Qed.

Lemma quiet_Buffer_from_base64 (v : JsValue) : quiet (Buffer_from_base64 L v).
Proof. unfold Buffer_from_base64. repeat quiet_step. Qed.

Lemma quiet_decrypt (v : JsValue) : quiet (decrypt L v).
Proof.
  pose proof quiet_get_property. pose proof quiet_Buffer_from_base64.
  unfold decrypt, deriveKey, createDecipher, decipher_setAuthTag,
    decipher_update, decipher_final.
  repeat quiet_step.
Qed.

End Quiet.

(** ** The packed buffer *)

Lemma Ok_inj {A} (a b : A) : Ok a = Ok b -> a = b.
Proof. congruence. Qed.

(** A run that returned: what was returned and the state it ended in. *)
Lemma run_Ok_inj {A} (a b : A) (w w' : World) :
  (Ok a, w) = (Ok b, w') -> a = b /\ w = w'.
Proof. intros [H1 H2]%pair_equal_spec. by apply Ok_inj in H1. Qed.

Lemma draw_length (w : World) (from n : nat) : length (draw w from n) = n.
Proof. unfold draw. by rewrite length_map, length_seq. Qed.

Lemma draw_app (w : World) (from n m : nat) :
  draw w from n ++ draw w (from + n) m = draw w from (n + m).
Proof. unfold draw. by rewrite <- map_app, <- seq_app. Qed.

Lemma key_accepted (k : jsstring) :
  32 <= length k ->
  key_rejected (Some k) = false /\ key_missing (Some k) = false.
Proof.
  intros Hk. unfold key_rejected, key_missing, js_length.
  destruct k as [|u k]; [cbn in Hk; lia|].
  split; [|done]. cbn [orb]. apply Nat.ltb_ge. done.
Qed.

Lemma key_rejected_missing (key : option jsstring) :
  key_rejected key = false -> key_missing key = false.
Proof.
  unfold key_rejected. destruct key as [k|]; [|done].
  by intros [? _]%orb_false_iff.
Qed.

Section Layout.

Variables salt iv_bytes tag ciphertext : bytes.
Hypothesis salt_length : length salt = saltLength.
Hypothesis iv_length : length iv_bytes = ivLength.
Hypothesis tag_length : length tag = tagLength.

Lemma layout_salt :
  subarray (salt ++ iv_bytes ++ tag ++ ciphertext) 0 saltLength = salt.
Proof. unfold subarray. cbn [drop]. rewrite Nat.sub_0_r. by apply take_app_length'. Qed.

Lemma layout_iv :
  subarray (salt ++ iv_bytes ++ tag ++ ciphertext)
           saltLength (saltLength + ivLength)
  = iv_bytes.
Proof.
  unfold subarray.
  rewrite drop_app_length' by done.
  replace (saltLength + ivLength - saltLength) with ivLength by lia.
  by apply take_app_length'.
Qed.

Lemma layout_tag :
  subarray (salt ++ iv_bytes ++ tag ++ ciphertext)
           (saltLength + ivLength) (saltLength + ivLength + tagLength)
  = tag.
Proof.
  unfold subarray.
  rewrite app_assoc, drop_app_length' by (rewrite length_app; lia).
  replace (saltLength + ivLength + tagLength - (saltLength + ivLength))
    with tagLength by lia.
  by apply take_app_length'.
Qed.

Lemma layout_ciphertext :
  subarray_from (salt ++ iv_bytes ++ tag ++ ciphertext)
                (saltLength + ivLength + tagLength)
  = ciphertext.
Proof.
  unfold subarray_from.
  rewrite !app_assoc, drop_app_length'; [done|].
  rewrite !length_app. lia.
Qed.

End Layout.

Section Sealed.

Variable L : NodeCrypto.
Hypothesis laws : NodeCryptoLaws L.

(** Opening a buffer laid out as [encrypt] does: the tag decides. *)
Lemma opened_layout (k : jsstring) (salt iv_bytes tag ciphertext : bytes) :
  length salt = saltLength -> length iv_bytes = ivLength ->
  length tag = tagLength ->
  opened L k (salt ++ iv_bytes ++ tag ++ ciphertext)
  = if bool_decide (tag = gcm_tag L (scrypt L k salt keyLength) ciphertext)
    then Some (Utf8.decode (gcm_stream L (scrypt L k salt keyLength) ciphertext))
    else None.
Proof.
  intros Hs Hi Ht. unfold opened.
  rewrite layout_salt, layout_tag, layout_ciphertext by done.
  rewrite Ht. cbn [valid_gcm_tag_length andb orb].
  rewrite take_ge; [done|].
  rewrite (gcm_tag_length L laws). done.
Qed.

Lemma opened_sealed (k s : jsstring) (salt iv_bytes : bytes) :
  length salt = saltLength -> length iv_bytes = ivLength ->
  Utf8.well_formed s = true ->
  opened L k (sealed L k salt iv_bytes s) = Some s.
Proof.
  intros Hs Hi Hwf. unfold sealed.
  rewrite opened_layout by (done || apply (gcm_tag_length L laws)).
  rewrite bool_decide_eq_true_2 by done.
  by rewrite (gcm_stream_involutive L laws), utf8_decode_encode.
Qed.

End Sealed.

(* ===================================================================== *)
(** * Part IV: properties of the service and of the hook *)
(* ===================================================================== *)

(** ** Round trip *)



(** A surrogate outside a pair comes back as U+FFFD, whatever the
    primitives. *)
Lemma lone_surrogate_replaced (L : NodeCrypto) (w w2 : World) (k : jsstring) :
  NodeCryptoLaws L ->
  ENCRYPTION_KEY w = Some k -> 32 <= length k ->
  ENCRYPTION_KEY w2 = Some k ->
  exists e w1,
    encrypt L (VStr [55296%N]) w = (Ok e, w1)
    /\ fst (decrypt L (VStr (encrypted e)) w2) = Ok [65533%N].
Proof.
  intros laws Hk Hlen Hk2. destruct (key_accepted k Hlen) as [Hr Hm].
  rewrite (encrypt_string L w k _ Hk Hr). cbv zeta.
  eexists _, _. split; [reflexivity|]. cbn [encrypted].
  rewrite (decrypt_string L w2 k _ Hk2 Hm). cbn [fst].
  rewrite base64_decode_encode. unfold sealed.
  rewrite opened_layout
    by (done || apply draw_length || apply (gcm_tag_length L laws)).
  rewrite bool_decide_eq_true_2 by done.
  by rewrite (gcm_stream_involutive L laws).
Qed.


(** ** Wire format *)

(** C4: the blob [encrypt] returns decodes to a 32-byte salt, a 16-byte IV,
    a 16-byte tag and the ciphertext, in this order and with nothing else,
    whatever the string and whatever bytes the random source delivered. The
    salt and the IV are the 48 bytes drawn; the ciphertext is what the
    cipher writes for the UTF-8 bytes of the plaintext under the key derived
    from the master key and the salt; the tag is the tag of that ciphertext
    under that key. Cutting the buffer at the offsets 32, 48 and 64, as
    [decrypt] does, gives the four parts back. *)
Theorem encrypt_blob_layout (L : NodeCrypto) (w w' : World) (s : jsstring)
    (e : EncryptedData) :
  NodeCryptoLaws L ->
  encrypt L (VStr s) w = (Ok e, w') ->
  exists k salt iv_bytes tag ciphertext,
    ENCRYPTION_KEY w = Some k
    /\ Base64.decode (encrypted e) = salt ++ iv_bytes ++ tag ++ ciphertext
    /\ length salt = 32 /\ length iv_bytes = 16 /\ length tag = 16
    /\ salt = draw w (drawn w) 32
    /\ iv_bytes = draw w (drawn w + 32) 16
    /\ ciphertext = gcm_stream L (scrypt L k salt 32) (Utf8.encode s)
    /\ tag = gcm_tag L (scrypt L k salt 32) ciphertext
    /\ subarray (Base64.decode (encrypted e)) 0 32 = salt
    /\ subarray (Base64.decode (encrypted e)) 32 48 = iv_bytes
    /\ subarray (Base64.decode (encrypted e)) 48 64 = tag
    /\ subarray_from (Base64.decode (encrypted e)) 64 = ciphertext.
Proof.
  intros laws H.
  destruct (encrypt_Ok_inv L w w' _ e H) as (k & s' & _ & Hk & Hr).
  rewrite (encrypt_string L w k s Hk Hr) in H. cbv zeta in H.
  apply run_Ok_inj in H as [<- _]. cbn [encrypted].
  rewrite base64_decode_encode. unfold sealed.
  pose proof (draw_length w (drawn w) saltLength) as Hs.
  pose proof (draw_length w (drawn w + saltLength) ivLength) as Hi.
  pose proof (gcm_tag_length L laws
                (scrypt L k (draw w (drawn w) saltLength) keyLength)
                (gcm_stream L (scrypt L k (draw w (drawn w) saltLength) keyLength)
                   (Utf8.encode s))) as Ht.
  exists k. eexists _, _, _, _.
  split; [exact Hk|]. split; [reflexivity|].
  split; [exact Hs|]. split; [exact Hi|]. split; [exact Ht|].
  split; [reflexivity|]. split; [reflexivity|].
  split; [reflexivity|]. split; [reflexivity|].
  split; [by apply layout_salt|]. split; [by apply layout_iv|].
  split; [by apply layout_tag|]. by apply layout_ciphertext.
Qed.

Lemma encrypt_blob_layout_witness :
  let w := Demo.world (Some Demo.key32) in
  exists e w',
    encrypt Demo.crypto (VStr (js "Dana")) w = (Ok e, w')
    /\ exists k salt iv_bytes tag ciphertext,
         ENCRYPTION_KEY w = Some k
         /\ Base64.decode (encrypted e) = salt ++ iv_bytes ++ tag ++ ciphertext
         /\ length salt = 32 /\ length iv_bytes = 16 /\ length tag = 16
         /\ salt = draw w (drawn w) 32
         /\ iv_bytes = draw w (drawn w + 32) 16
         /\ ciphertext
            = gcm_stream Demo.crypto (scrypt Demo.crypto k salt 32)
                (Utf8.encode (js "Dana"))
         /\ tag = gcm_tag Demo.crypto (scrypt Demo.crypto k salt 32) ciphertext
         /\ subarray (Base64.decode (encrypted e)) 0 32 = salt
         /\ subarray (Base64.decode (encrypted e)) 32 48 = iv_bytes
         /\ subarray (Base64.decode (encrypted e)) 48 64 = tag
         /\ subarray_from (Base64.decode (encrypted e)) 64 = ciphertext.
Proof.
  cbv zeta. eexists _, _. split; [vm_compute; reflexivity|].
  eapply (encrypt_blob_layout Demo.crypto (Demo.world (Some Demo.key32)) _
            (js "Dana") _ demo_laws).
  vm_compute. reflexivity.
Defined.

(** The blob of ["Dana"] under the 32-character key, part by part: the 48
    bytes 3, 10, 17, ... of the random source, the tag of the four bytes of
    ciphertext, and these four bytes. *)
Example encrypt_blob_layout_example :
  let w := Demo.world (Some Demo.key32) in
  let key := Demo.derive Demo.key32 (draw w 0 32) 32 in
  let ciphertext := Demo.stream key [x44; x61; x6e; x61] in
  match fst (encrypt Demo.crypto (VStr (js "Dana")) w) with
  | Ok e =>
      Base64.decode (encrypted e)
      = draw w 0 32 ++ draw w 32 16 ++ Demo.tag key ciphertext ++ ciphertext
      /\ length (Base64.decode (encrypted e)) = 32 + 16 + 16 + 4
  | Throw _ => False
  end.
Proof. vm_compute. split; reflexivity. Qed.

(** ** Tampering *)

Lemma flip_bit_app_l (i j : nat) (a b : bytes) :
  i < length a -> flip_bit i j (a ++ b) = flip_bit i j a ++ b.
Proof. apply alter_app_l. Qed.

Lemma flip_bit_app_r (i j : nat) (a b : bytes) :
  length a <= i -> flip_bit i j (a ++ b) = a ++ flip_bit (i - length a) j b.
Proof. apply alter_app_r_alt. Qed.

(** C2, as the code has it: after one bit of the tag or of the ciphertext of
    a blob of [encrypt] is inverted, [decrypt] returns no plaintext; it
    throws the error it throws for every failure, [Error('Error al descifrar
    los datos')]. The primitives are assumed to detect an inverted bit of
    the ciphertext. *)
Theorem tampered_blob_rejected (L : NodeCrypto) (w w1 w2 : World)
    (text : JsValue) (e : EncryptedData) (i j : nat) :
  NodeCryptoLaws L -> tag_detects_bit_flips L ->
  encrypt L text w = (Ok e, w1) ->
  saltLength + ivLength <= i < length (Base64.decode (encrypted e)) ->
  j < 8 ->
  ENCRYPTION_KEY w2 = ENCRYPTION_KEY w ->
  fst (decrypt L (VStr (Base64.encode (flip_bit i j (Base64.decode (encrypted e))))) w2)
  = Throw decrypt_error.
Proof.
  intros laws detects H Hi Hj Hk2.
  destruct (encrypt_Ok_inv L w w1 text e H) as (k & s & -> & Hk & Hr).
  rewrite (encrypt_string L w k s Hk Hr) in H. cbv zeta in H.
  apply run_Ok_inj in H as [<- _]. cbn [encrypted] in *.
  rewrite Hk in Hk2.
  rewrite (decrypt_string L w2 k _ Hk2 (key_rejected_missing _ Hr)).
  cbn [fst]. rewrite !base64_decode_encode in *.
  unfold sealed in *.
  pose proof (draw_length w (drawn w) saltLength) as Hs.
  pose proof (draw_length w (drawn w + saltLength) ivLength) as Hv.
  remember (draw w (drawn w) saltLength) as salt eqn:Esalt.
  remember (draw w (drawn w + saltLength) ivLength) as iv_bytes eqn:Eiv.
  remember (scrypt L k salt keyLength) as key eqn:Ekey.
  remember (gcm_stream L key (Utf8.encode s)) as ct eqn:Ect.
  pose proof (gcm_tag_length L laws key ct) as Ht.
  change 16 with tagLength in Ht.
  clear Esalt Eiv Ect.
  rewrite !length_app in Hi.
  rewrite flip_bit_app_r; [|lia]. rewrite Hs.
  rewrite flip_bit_app_r; [|lia]. rewrite Hv.
  destruct (decide (i - saltLength - ivLength < tagLength)) as [Hlt|Hge].
  - rewrite flip_bit_app_l by lia.
    rewrite opened_layout by (done || (rewrite flip_bit_length; done)).
    rewrite <- Ekey. rewrite bool_decide_eq_false_2; [done|].
    apply flip_bit_changes; lia.
  - rewrite flip_bit_app_r; [|lia]. rewrite Ht.
    rewrite opened_layout by done.
    rewrite <- Ekey. rewrite bool_decide_eq_false_2; [done|].
    intros Heq. symmetry in Heq. revert Heq. apply detects; [|done].
    unfold saltLength, ivLength, tagLength in *. lia.
Qed.

Lemma tampered_blob_rejected_witness :
  let w := Demo.world (Some Demo.key32) in
  exists e w1,
    encrypt Demo.crypto (VStr (js "Dana")) w = (Ok e, w1)
    /\ fst (decrypt Demo.crypto
              (VStr (Base64.encode (flip_bit 66 3 (Base64.decode (encrypted e)))))
              w1)
       = Throw decrypt_error.
Proof.
  cbv zeta. eexists _, _. split; [vm_compute; reflexivity|].
  eapply (tampered_blob_rejected Demo.crypto (Demo.world (Some Demo.key32))
            _ _ (VStr (js "Dana")) _ 66 3 demo_laws demo_tag_detects_bit_flips).
  - vm_compute. reflexivity.
  - vm_compute. lia.
  - lia.
  - reflexivity.
Defined.

(** C2 as stated fails: a caller cannot tell a rejected tag from a missing
    key. The blob of ["Dana"] with bit 3 of byte 50 (in the tag) inverted
    makes [decrypt] throw the same error as the same call without any
    master key. *)
Lemma tampering_error_not_distinct :
  let blob :=
    js "AwoRGB8mLTQ7QklQV15lbHN6gYiPlp2kq7K5wMfO1dzj6vH4/wYNFBsiKTA3PkVMjzw8PDw8PDw8PDw8PDw8PB47NDs=" in
  let tampered := Base64.encode (flip_bit 50 3 (Base64.decode blob)) in
  fst (encrypt Demo.crypto (VStr (js "Dana")) (Demo.world (Some Demo.key32)))
  = Ok {| encrypted := blob;
          authTag := js "8f3c3c3c3c3c3c3c3c3c3c3c3c3c3c3c";
          iv := js "e3eaf1f8ff060d141b222930373e454c" |}
  /\ fst (decrypt Demo.crypto (VStr tampered) (Demo.world (Some Demo.key32)))
     = Throw (Error "Error al descifrar los datos")
  /\ fst (decrypt Demo.crypto (VStr tampered) (Demo.world None))
     = Throw (Error "Error al descifrar los datos").
Proof. cbv zeta. repeat split; vm_compute; reflexivity. Qed.

(** ** The master key *)

Lemma key_too_short_rejected (key : option jsstring) :
  key_too_short key -> key_rejected key = true.
Proof.
  destruct key as [k|]; [|done].
  unfold key_too_short, key_rejected, js_length. intros Hk.
  apply orb_true_iff. right. by apply Nat.ltb_lt.
Qed.

Lemma key_unset_missing (key : option jsstring) :
  key_unset key -> key_missing key = true.
Proof. by intros [->| ->]. Qed.

Lemma crypto_ops_app (a b : list Event) :
  crypto_ops (a ++ b) = crypto_ops a ++ crypto_ops b.
Proof. apply omap_app. Qed.

(** [decrypt] runs the cipher under any key that is not empty. *)
Lemma decrypt_ignores_key_length (L : NodeCrypto) (w : World)
    (k blob : jsstring) :
  ENCRYPTION_KEY w = Some k -> k <> [] ->
  crypto_ops (trace (snd (decrypt L (VStr blob) w)))
  = crypto_ops (trace w)
    ++ [Scrypt; CreateDecipher; SetAuthTag; DecipherUpdate; DecipherFinal].
Proof.
  intros Hk Hne.
  rewrite (decrypt_string L w k blob Hk) by (by destruct k).
  cbn [snd extend trace]. unfold decrypt_events.
  rewrite !crypto_ops_app. f_equal.
  destruct (opened L k (Base64.decode blob)); cbn; reflexivity.
Qed.

(** C3, as the code has it: [encrypt] with a master key that is unset or
    shorter than 32 characters, and [decrypt] with a master key that is unset
    or empty, throw before any random byte is drawn and before any key
    derivation or cipher operation. The error is the one the operation
    throws for every failure; [decrypt] does not look at the length of the
    key. *)
Theorem invalid_key_guard (L : NodeCrypto) (w : World) (v : JsValue) :
  (key_too_short (ENCRYPTION_KEY w) ->
   exists w',
     encrypt L v w = (Throw encrypt_error, w')
     /\ crypto_ops (trace w') = crypto_ops (trace w)
     /\ drawn w' = drawn w)
  /\ (key_unset (ENCRYPTION_KEY w) ->
      exists w',
        decrypt L v w = (Throw decrypt_error, w')
        /\ crypto_ops (trace w') = crypto_ops (trace w)
        /\ drawn w' = drawn w).
Proof.
  split; intros Hk.
  - rewrite encrypt_rejected by by apply key_too_short_rejected.
    eexists. split; [reflexivity|]. cbn.
    rewrite crypto_ops_app. cbn. by rewrite app_nil_r.
  - rewrite decrypt_missing by by apply key_unset_missing.
    eexists. split; [reflexivity|]. cbn.
    rewrite crypto_ops_app. cbn. by rewrite app_nil_r.
Qed.

Lemma invalid_key_guard_witness :
  let w := Demo.world None in
  (exists w',
     encrypt Demo.crypto (VStr (js "Dana")) w = (Throw encrypt_error, w')
     /\ crypto_ops (trace w') = crypto_ops (trace w)
     /\ drawn w' = drawn w)
  /\ (exists w',
        decrypt Demo.crypto (VStr (js "Dana")) w = (Throw decrypt_error, w')
        /\ crypto_ops (trace w') = crypto_ops (trace w)
        /\ drawn w' = drawn w).
Proof.
  cbv zeta.
  destruct (invalid_key_guard Demo.crypto (Demo.world None) (VStr (js "Dana")))
    as [Hencrypt Hdecrypt].
  split; [apply Hencrypt; exact I | apply Hdecrypt; left; reflexivity].
Defined.

(** C3 as stated fails for [decrypt]: with a master key of 10 characters it
    derives a key, runs the cipher and returns the plaintext of a buffer
    packed under that key. Nor is the failure for a missing key a distinct
    error: [encrypt] without a key throws what it throws when the cipher
    rejects its input. *)
Lemma short_key_decrypts :
  let salt := replicate 32 x01 in
  let iv_bytes := replicate 16 x02 in
  let blob :=
    Base64.encode (sealed Demo.crypto Demo.key10 salt iv_bytes (js "Dana")) in
  let run := decrypt Demo.crypto (VStr blob) (Demo.world (Some Demo.key10)) in
  length Demo.key10 = 10
  /\ fst run = Ok (js "Dana")
  /\ crypto_ops (trace (snd run))
     = [Scrypt; CreateDecipher; SetAuthTag; DecipherUpdate; DecipherFinal]
  /\ fst (encrypt Demo.crypto (VStr (js "Dana")) (Demo.world None))
     = fst (encrypt Demo.crypto (VNum 5) (Demo.world (Some Demo.key32))).
Proof. cbv zeta. repeat split; vm_compute; reflexivity. Qed.

(** ** Randomness *)

(** C8, as the code has it: two calls of [encrypt] return different blobs
    whenever the 48 random bytes they draw (salt, then IV) differ. *)
Theorem distinct_draws_distinct_blobs (L : NodeCrypto) (w1 w2 w1' w2' : World)
    (text : JsValue) (e1 e2 : EncryptedData) :
  encrypt L text w1 = (Ok e1, w1') ->
  encrypt L text w2 = (Ok e2, w2') ->
  draw w1 (drawn w1) (saltLength + ivLength)
    <> draw w2 (drawn w2) (saltLength + ivLength) ->
  encrypted e1 <> encrypted e2.
Proof.
  intros H1 H2 Hdraw Heq.
  destruct (encrypt_Ok_inv L w1 w1' text e1 H1) as (k1 & s & -> & Hk1 & Hr1).
  destruct (encrypt_Ok_inv L w2 w2' _ e2 H2) as (k2 & s' & Hs & Hk2 & Hr2).
  assert (s' = s) as -> by congruence. clear Hs.
  rewrite (encrypt_string L w1 k1 s Hk1 Hr1) in H1.
  rewrite (encrypt_string L w2 k2 s Hk2 Hr2) in H2. cbv zeta in H1, H2.
  apply run_Ok_inj in H1 as [<- _]. apply run_Ok_inj in H2 as [<- _].
  cbn [encrypted] in Heq. apply base64_encode_inj in Heq.
  unfold sealed in Heq. rewrite !(app_assoc (draw _ _ _)), !draw_app in Heq.
  apply app_inj_1 in Heq as [Heq _]; [done|].
  by rewrite !draw_length.
Qed.

Lemma distinct_draws_distinct_blobs_witness :
  let w1 := Demo.world (Some Demo.key32) in
  let w2 := Demo.stuck_world (Some Demo.key32) in
  exists e1 w1' e2 w2',
    encrypt Demo.crypto (VStr (js "Dana")) w1 = (Ok e1, w1')
    /\ encrypt Demo.crypto (VStr (js "Dana")) w2 = (Ok e2, w2')
    /\ encrypted e1 <> encrypted e2.
Proof.
  cbv zeta. eexists _, _, _, _.
  split; [vm_compute; reflexivity|]. split; [vm_compute; reflexivity|].
  eapply (distinct_draws_distinct_blobs Demo.crypto
            (Demo.world (Some Demo.key32)) (Demo.stuck_world (Some Demo.key32))
            _ _ (VStr (js "Dana"))).
  - vm_compute. reflexivity.
  - vm_compute. reflexivity.
  - vm_compute. discriminate.
Defined.

(** Equal draws under equal keys give equal results. *)
Lemma equal_draws_equal_results (L : NodeCrypto) (w1 w2 : World)
    (text : JsValue) :
  ENCRYPTION_KEY w1 = ENCRYPTION_KEY w2 ->
  draw w1 (drawn w1) (saltLength + ivLength)
  = draw w2 (drawn w2) (saltLength + ivLength) ->
  fst (encrypt L text w1) = fst (encrypt L text w2).
Proof.
  intros Hk Hd.
  destruct (key_rejected (ENCRYPTION_KEY w1)) eqn:Hr.
  { rewrite !encrypt_rejected by congruence. done. }
  destruct (ENCRYPTION_KEY w1) as [k|] eqn:Hk1; [|discriminate].
  symmetry in Hk.
  destruct (is_string text) eqn:Ht.
  - destruct text; try discriminate.
    rewrite (encrypt_string L w1 k s Hk1 Hr), (encrypt_string L w2 k s Hk Hr).
    cbv zeta. cbn [fst].
    rewrite <- !draw_app in Hd.
    apply app_inj_1 in Hd as [-> ->]; [done|by rewrite !draw_length].
  - by rewrite (encrypt_not_string L w1 k text Hk1 Hr Ht),
      (encrypt_not_string L w2 k text Hk Hr Ht).
Qed.

(** C8 as stated fails when the random source repeats itself: two
    successive calls on the same plaintext then return the same blob. *)
Lemma equal_draws_equal_blobs :
  let w := Demo.stuck_world (Some Demo.key32) in
  exists e1 w1 e2 w2,
    encrypt Demo.crypto (VStr (js "Dana")) w = (Ok e1, w1)
    /\ encrypt Demo.crypto (VStr (js "Dana")) w1 = (Ok e2, w2)
    /\ drawn w1 = 48 /\ drawn w2 = 96
    /\ encrypted e1 = encrypted e2.
Proof.
  cbv zeta. eexists _, _, _, _.
  split; [vm_compute; reflexivity|]. split; [vm_compute; reflexivity|].
  repeat split; vm_compute; reflexivity.
Qed.

(** ** [isEncrypted] *)

(** C9: on a string, [isEncrypted] returns whether the string decodes to at
    least 65 bytes; it never throws, whatever the value; and it returns
    [true] for a string that no call of [encrypt] returns. *)
Theorem isEncrypted_spec (L : NodeCrypto) :
  (forall s w,
     isEncrypted L (VStr s) w
     = (Ok (bool_decide (65 <= length (Base64.decode s))), w))
  /\ (forall v w, exists b, isEncrypted L v w = (Ok b, w))
  /\ (exists s,
        (forall w, isEncrypted L (VStr s) w = (Ok true, w))
        /\ forall text w e w',
             encrypt L text w = (Ok e, w') -> encrypted e <> s).
Proof.
  split; [|split].
  - intros s w. unfold isEncrypted. run. do 2 f_equal.
    change (saltLength + ivLength + tagLength + 1) with 65.
    destruct (Nat.leb_spec 65 (length (Base64.decode s)));
      [rewrite bool_decide_eq_true_2 | rewrite bool_decide_eq_false_2];
      (done || lia).
  - intros v w. unfold isEncrypted.
    destruct v; run; eauto.
    all: destruct (bufferFromObject L _); eauto.
  - exists long_garbage. split; [done|].
    intros text w e w' H Heq.
    destruct (encrypt_Ok_inv L w w' text e H) as (k & s & -> & Hk & Hr).
    rewrite (encrypt_string L w k s Hk Hr) in H. cbv zeta in H.
    apply run_Ok_inj in H as [<- _]. cbn [encrypted] in Heq.
    pose proof (base64_encode_chars (sealed L k (draw w (drawn w) saltLength)
                  (draw w (drawn w + saltLength) ivLength) s)) as Hc.
    rewrite Heq in Hc. apply Forall_cons_1 in Hc as [[Hc|(v & Hv & Hc)] _].
    + discriminate.
    + revert Hc. unfold Base64.char. split_N; lia.
Qed.

Lemma isEncrypted_spec_witness :
  isEncrypted Demo.crypto (VStr long_garbage) (Demo.world None)
  = (Ok (bool_decide (65 <= length (Base64.decode long_garbage))),
     Demo.world None).
Proof. apply (isEncrypted_spec Demo.crypto). Defined.

(** Node reads each code unit of the string as a byte: 88 times [U+0141]
    is read as 88 times [A], which decodes to 66 bytes. *)
Example isEncrypted_low_byte_example :
  fst (isEncrypted Demo.crypto (VStr (replicate 88 321%N)) (Demo.world None))
  = Ok true.
Proof. vm_compute. reflexivity. Qed.

(** ** Computations that stay inside the process *)

Lemma same_process_refl (w : World) : same_process w w.
Proof. by repeat split. Qed.

Lemma same_process_trans (w1 w2 w3 : World) :
  same_process w1 w2 -> same_process w2 w3 -> same_process w1 w3.
Proof.
  intros (H1 & H2 & H3) (H4 & H5 & H6).
  repeat split; congruence.
Qed.

Lemma internal_ret {A} (a : A) : internal (ret a).
Proof. intros w. apply same_process_refl. Qed.

Lemma internal_throw {A} (e : JsError) : internal (@throw A e).
Proof. intros w. apply same_process_refl. Qed.

Lemma internal_getenv : internal getenv_ENCRYPTION_KEY.
Proof. intros w. apply same_process_refl. Qed.

Lemma internal_crypto (op : CryptoOp) : internal (emit (Crypto op)).
Proof.
  intros w. repeat split. cbn. rewrite storage_calls_app. apply app_nil_r.
Qed.

Lemma internal_console_error (label : jsstring) (e : JsError) :
  internal (console_error label e).
Proof.
  intros w. repeat split. cbn. rewrite storage_calls_app. apply app_nil_r.
Qed.

Lemma internal_randomBytes (n : nat) : internal (randomBytes n).
Proof.
  intros w. repeat split. cbn. rewrite storage_calls_app. apply app_nil_r.
Qed.

Lemma internal_bind {A B} (m : M A) (k : A -> M B) :
  internal m -> (forall a, internal (k a)) -> internal (bind m k).
Proof.
  intros Hm Hk w. unfold bind. specialize (Hm w).
  destruct (m w) as [[a|e] w1]; [|done].
  eapply same_process_trans; [exact Hm | apply Hk].
Qed.

Lemma internal_try_catch {A} (m : M A) (h : JsError -> M A) :
  internal m -> (forall e, internal (h e)) -> internal (try_catch m h).
Proof.
  intros Hm Hh w. unfold try_catch. specialize (Hm w).
  destruct (m w) as [[a|e] w1]; [done|].
  eapply same_process_trans; [exact Hm | apply Hh].
Qed.

Lemma internal_for_of {A S} (xs : list A) (body : S -> A -> M S) (acc : S) :
  (forall acc x, internal (body acc x)) -> internal (for_of xs body acc).
Proof.
  intros Hb. revert acc. induction xs as [|x xs IH]; intros acc; cbn.
  - apply internal_ret.
  - apply internal_bind; auto.
Qed.

Lemma quiet_internal {A} (m : M A) : quiet m -> internal m.
Proof.
  intros Hm w. destruct (Hm w) as [-> Hs]. repeat split. cbn.
  rewrite storage_calls_app, Hs. apply app_nil_r.
Qed.

Create HintDb internal.
#[export] Hint Resolve internal_ret internal_throw internal_getenv
  internal_crypto internal_console_error internal_randomBytes : internal.

Ltac internal_step :=
  first
    [ solve [auto with internal]
    | apply internal_bind; [|intros ?]
    | apply internal_try_catch; [|intros ?]
    | match goal with
      | |- internal (match ?x with _ => _ end) => destruct x
      end
    | progress cbv zeta ].

Section Internal.

Variable L : NodeCrypto.

Lemma internal_get_property (v : JsValue) (k : jsstring) :
  internal (get_property v k).
Proof. apply quiet_internal, quiet_get_property. Qed.

Lemma internal_encrypt (text : JsValue) : internal (encrypt L text).
Proof.
  unfold encrypt, deriveKey, createCipher, cipher_update, cipher_final,
    cipher_getAuthTag.
  repeat internal_step.
Qed.

Lemma internal_encrypt_field (data : JsValue) (field : jsstring) :
  internal (encrypt_field L data field).
Proof.
  pose proof internal_get_property. pose proof internal_encrypt.
  unfold encrypt_field. repeat internal_step.
Qed.

Lemma internal_encrypt_payload (params : Params) :
  internal (encrypt_payload L params).
Proof.
  pose proof internal_get_property.
  pose proof (fun xs acc =>
                internal_for_of xs (encrypt_field L) acc internal_encrypt_field).
  unfold encrypt_payload. repeat internal_step.
Qed.

(** A failure of a field is a failure of the loop. *)
Lemma field_failure_loop (fields : list jsstring) (data : JsValue)
    (w w' : World) (e : JsError) :
  field_failure L fields data w e w' ->
  for_of fields (encrypt_field L) data w = (Throw e, w').
Proof.
  induction 1 as [field rest data w value e w' Hget Ht Henc
                 |field rest data w data1 w1 e w' Hstep _ IH].
  - cbn [for_of]. unfold bind at 1, encrypt_field, bind at 1.
    rewrite Hget, Ht. unfold bind. by rewrite Henc.
  - cbn [for_of]. unfold bind at 1. by rewrite Hstep.
Qed.

End Internal.

(** ** The hook: writes *)

(** C7: when the encryption of a sensitive field of a [create] or [update]
    of [UserProfile] fails, the hook throws and the storage layer is not
    called. *)
Theorem failed_encryption_aborts_write (L : NodeCrypto) (params : Params)
    (next : Params -> M JsValue) (w w' : World) (data : JsValue)
    (e : JsError) :
  is_write params = true ->
  get_property (args params) (js "data") w = (Ok data, w) ->
  truthy data = true ->
  field_failure L sensitiveFields data w e w' ->
  createEncryptionMiddleware L params next w = (Throw e, w')
  /\ storage_calls (trace w') = storage_calls (trace w).
Proof.
  intros Hw Hget Ht Hfail.
  assert (encrypt_payload L params w = (Throw e, w')) as Hp.
  { unfold encrypt_payload. rewrite Hw. unfold bind at 1. rewrite Hget, Ht.
    unfold bind. by rewrite (field_failure_loop L _ _ _ _ _ Hfail). }
  split.
  - unfold createEncryptionMiddleware, bind at 1. by rewrite Hp.
  - pose proof (internal_encrypt_payload L params w) as (_ & _ & Hs).
    by rewrite Hp in Hs.
Qed.



(** ** The hook: scope *)

Lemma is_write_iff (params : Params) :
  is_write params = true
  <-> model params = Some (js "UserProfile")
      /\ (action params = js "create" \/ action params = js "update").
Proof.
  unfold is_write, action_is, model_is.
  rewrite andb_true_iff, orb_true_iff, !bool_decide_eq_true. tauto.
Qed.

Lemma is_read_iff (params : Params) :
  is_read params = true
  <-> model params = Some (js "UserProfile")
      /\ (action params = js "findUnique" \/ action params = js "findFirst"
          \/ action params = js "findMany").
Proof.
  unfold is_read, action_is, model_is.
  rewrite andb_true_iff, !orb_true_iff, !bool_decide_eq_true. tauto.
Qed.

Lemma is_read_not_write (params : Params) :
  is_read params = true -> is_write params = false.
Proof.
  intros [_ Hr]%is_read_iff. apply not_true_iff_false.
  intros [_ Hw]%is_write_iff.
  destruct Hr as [Hr|[Hr|Hr]], Hw as [Hw|Hw]; rewrite Hr in Hw; discriminate Hw.
Qed.

(** C10: the hook changes the payload only of [create] and [update] on
    [UserProfile] and the result only of [findUnique], [findFirst] and
    [findMany] on [UserProfile]; for any other model or action it is the
    call to the storage layer, with the same arguments and the same
    result. *)
Theorem hook_scope (L : NodeCrypto) (params : Params)
    (next : Params -> M JsValue) (w : World) :
  (is_write params = true
   <-> model params = Some (js "UserProfile")
       /\ (action params = js "create" \/ action params = js "update"))
  /\ (is_read params = true
      <-> model params = Some (js "UserProfile")
          /\ (action params = js "findUnique" \/ action params = js "findFirst"
              \/ action params = js "findMany"))
  /\ (is_write params = false -> encrypt_payload L params w = (Ok params, w))
  /\ (is_read params = false ->
      forall result, decrypt_result L params result w = (Ok result, w))
  /\ (is_write params = false -> is_read params = false ->
      createEncryptionMiddleware L params next w = call_next next params w).
Proof.
  split; [apply is_write_iff|]. split; [apply is_read_iff|].
  assert (is_write params = false -> encrypt_payload L params w = (Ok params, w))
    as Hwrite by (intros Hw; unfold encrypt_payload; by rewrite Hw).
  assert (is_read params = false ->
          forall result w1, decrypt_result L params result w1 = (Ok result, w1))
    as Hread by (intros Hr result w1; unfold decrypt_result; by rewrite Hr).
  split; [done|]. split; [auto|].
  intros Hw Hr. unfold createEncryptionMiddleware, bind at 1.
  rewrite (Hwrite Hw). unfold bind.
  destruct (call_next next params w) as [[result|e] w1]; [|done].
  by apply Hread.
Qed.

(** An [upsert] of a profile: the storage layer receives the first name in
    clear. *)
Lemma hook_scope_witness :
  let params := Demo.operation "upsert" in
  let w := Demo.world (Some Demo.key32) in
  createEncryptionMiddleware Demo.crypto params Demo.storage w
  = call_next Demo.storage params w
  /\ storage_calls
       (trace (snd (createEncryptionMiddleware Demo.crypto params
                      Demo.storage w)))
     = [params]
  /\ get_property (args params) (js "data") w = (Ok (VObj Demo.profile), w)
  /\ Demo.profile !! js "firstName" = Some (VStr (js "Dana")).
Proof.
  cbv zeta.
  destruct (hook_scope Demo.crypto (Demo.operation "upsert")
              Demo.storage (Demo.world (Some Demo.key32)))
    as (_ & _ & _ & _ & Hpass).
  split; [apply Hpass; reflexivity|].
  rewrite Hpass by reflexivity.
  repeat split; vm_compute; reflexivity.
Defined.

Lemma failed_encryption_aborts_write_witness :
  let params := Demo.operation "create" in
  let w := Demo.world None in
  exists e w',
    createEncryptionMiddleware Demo.crypto params Demo.storage w
    = (Throw e, w')
    /\ storage_calls (trace w') = storage_calls (trace w).
Proof.
  cbv zeta. eexists _, _.
  apply (failed_encryption_aborts_write Demo.crypto
           (Demo.operation "create") Demo.storage (Demo.world None)
           _ (VObj Demo.profile)).
  - reflexivity.
  - vm_compute. reflexivity.
  - reflexivity.
  - eapply fails_here.
    + vm_compute. reflexivity.
    + reflexivity.
    + vm_compute. reflexivity.
Defined.

(** ** What quiet computations return *)

Lemma outcome_ret {A} (a : A) (key : option jsstring) :
  outcome (ret a) key = Ok a.
Proof. done. Qed.

Lemma outcome_bind {A B} (m : M A) (k : A -> M B) (key : option jsstring) :
  quiet m -> (forall a, quiet (k a)) ->
  outcome (bind m k) key
  = match outcome m key with
    | Ok a => outcome (k a) key
    | Throw e => Throw e
    end.
Proof.
  intros Hm Hk. unfold outcome at 1, bind.
  rewrite (quiet_blank m key Hm). destruct (outcome m key) as [a|e]; [|done].
  by destruct (Hk a (extend (blank key) (logged m key))) as [-> _].
Qed.

Lemma outcome_try_catch {A} (m : M A) (h : JsError -> M A)
    (key : option jsstring) :
  quiet m -> (forall e, quiet (h e)) ->
  outcome (try_catch m h) key
  = match outcome m key with
    | Ok a => Ok a
    | Throw e => outcome (h e) key
    end.
Proof.
  intros Hm Hh. unfold outcome at 1, try_catch.
  rewrite (quiet_blank m key Hm). destruct (outcome m key) as [a|e]; [done|].
  by destruct (Hh e (extend (blank key) (logged m key))) as [-> _].
Qed.

Lemma outcome_for_of {A S} (xs : list A) (body : S -> A -> M S)
    (f : S -> A -> S) (acc : S) (key : option jsstring) :
  (forall acc x, quiet (body acc x)) ->
  (forall acc x, outcome (body acc x) key = Ok (f acc x)) ->
  outcome (for_of xs body acc) key = Ok (foldl f acc xs).
Proof.
  intros Hq Hf. revert acc. induction xs as [|x xs IH]; intros acc; [done|].
  cbn [for_of foldl]. rewrite outcome_bind, Hf; [apply IH|apply Hq|].
  intros acc'. by apply quiet_for_of.
Qed.

Lemma outcome_for_each {A} (xs : list A) (body : A -> M A) (f : A -> A)
    (key : option jsstring) :
  (forall x, quiet (body x)) ->
  (forall x, outcome (body x) key = Ok (f x)) ->
  outcome (for_each xs body) key = Ok (map f xs).
Proof.
  intros Hq Hf. induction xs as [|x xs IH]; [done|].
  cbn [for_each map].
  rewrite outcome_bind, Hf; [|apply Hq|].
  - rewrite outcome_bind, IH; [done|by apply quiet_for_each|].
    intros rest'. apply quiet_ret.
  - intros x'. apply quiet_bind; [by apply quiet_for_each|].
    intros rest'. apply quiet_ret.
Qed.

(** ** The hook: reads *)

Section Reads.

Variable L : NodeCrypto.

Lemma quiet_decrypt_field (item : JsValue) (field : jsstring) :
  quiet (decrypt_field L item field).
Proof.
  pose proof quiet_get_property. pose proof (quiet_decrypt L).
  unfold decrypt_field. repeat quiet_step.
Qed.

Lemma quiet_decrypt_item (item : JsValue) : quiet (decrypt_item L item).
Proof.
  unfold decrypt_item. destruct (truthy item); [|apply quiet_ret].
  apply quiet_for_of, quiet_decrypt_field.
Qed.

Lemma quiet_decrypt_result (params : Params) (result : JsValue) :
  quiet (decrypt_result L params result).
Proof.
  pose proof quiet_decrypt_item.
  pose proof (fun xs => quiet_for_each xs (decrypt_item L) quiet_decrypt_item).
  unfold decrypt_result. repeat quiet_step.
Qed.

Variable key : option jsstring.

Lemma outcome_decrypt_field_object (o : gmap jsstring JsValue)
    (field : jsstring) :
  outcome (decrypt_field L (VObj o) field) key
  = Ok (VObj (decrypt_field_of L key o field)).
Proof.
  unfold decrypt_field, decrypt_field_of. cbn [get_property].
  rewrite outcome_bind, outcome_ret; [|apply quiet_ret|].
  2:{ intros v. pose proof (quiet_decrypt L). repeat quiet_step. }
  destruct (truthy (own o (field ++ Encrypted))); [|done].
  rewrite outcome_try_catch.
  2:{ pose proof (quiet_decrypt L). repeat quiet_step. }
  2:{ intros e. repeat quiet_step. }
  rewrite outcome_bind; [|apply quiet_decrypt|intros; apply quiet_ret].
  unfold decrypt_value. destruct (outcome (decrypt L _) key) as [p|e]; [done|].
  rewrite outcome_bind; [done|apply quiet_console_error|intros; apply quiet_ret].
Qed.

(** An item that is not an object has no field to decrypt. *)
Lemma outcome_decrypt_field_other (item : JsValue) (field : jsstring) :
  truthy item = true -> (forall o, item <> VObj o) ->
  outcome (decrypt_field L item field) key = Ok item.
Proof.
  intros Ht Ho. unfold decrypt_field.
  destruct item; try discriminate Ht; try (by destruct (Ho o)); done.
Qed.

Lemma outcome_fields_object (fields : list jsstring)
    (o : gmap jsstring JsValue) :
  outcome (for_of fields (decrypt_field L) (VObj o)) key
  = Ok (VObj (foldl (decrypt_field_of L key) o fields)).
Proof.
  revert o. induction fields as [|f fs IH]; intros o; [done|].
  cbn [for_of foldl].
  rewrite outcome_bind, outcome_decrypt_field_object;
    [apply IH|apply quiet_decrypt_field|].
  intros acc. apply quiet_for_of, quiet_decrypt_field.
Qed.

Lemma outcome_fields_other (fields : list jsstring) (item : JsValue) :
  truthy item = true -> (forall o, item <> VObj o) ->
  outcome (for_of fields (decrypt_field L) item) key = Ok item.
Proof.
  intros Ht Ho. induction fields as [|f fs IH]; [done|].
  cbn [for_of].
  rewrite outcome_bind, outcome_decrypt_field_other by
    (done || apply quiet_decrypt_field
     || (intros; apply quiet_for_of, quiet_decrypt_field)).
  exact IH.
Qed.

Lemma outcome_decrypt_item (item : JsValue) :
  outcome (decrypt_item L item) key = Ok (decrypt_item_of L key item).
Proof.
  unfold decrypt_item. destruct (truthy item) eqn:Ht; [|by destruct item].
  destruct item; try discriminate Ht;
    first [apply outcome_fields_object | by apply outcome_fields_other].
Qed.

Lemma decrypt_result_array (params : Params) (items : list JsValue)
    (w : World) :
  is_read params = true -> ENCRYPTION_KEY w = key ->
  exists evs,
    decrypt_result L params (VArr items) w
    = (Ok (VArr (map (decrypt_item_of L key) items)), extend w evs).
Proof.
  intros Hr Hk.
  destruct (quiet_decrypt_result params (VArr items) w) as [-> _].
  eexists. f_equal. rewrite Hk.
  unfold decrypt_result. rewrite Hr. cbn [truthy].
  rewrite outcome_bind;
    [|apply quiet_for_each, quiet_decrypt_item|intros; apply quiet_ret].
  by rewrite (outcome_for_each _ _ (decrypt_item_of L key))
    by (apply quiet_decrypt_item || apply outcome_decrypt_item).
Qed.

End Reads.



Lemma field_ne_encrypted (f g : jsstring) :
  length f <= length g -> f <> g ++ Encrypted.
Proof. intros Hl Hf. apply (f_equal length) in Hf. rewrite length_app in Hf. cbn in Hf. lia. Qed.

Lemma encrypted_inj (f g : jsstring) :
  f ++ Encrypted = g ++ Encrypted -> f = g.
Proof. apply app_inv_tail. Qed.

Lemma sensitiveFields_NoDup : NoDup sensitiveFields.
Proof. apply (bool_decide_unpack (NoDup sensitiveFields)). by vm_compute. Qed.

Lemma sensitiveFields_plain (f g : jsstring) :
  f ∈ sensitiveFields -> g ∈ sensitiveFields -> f <> g ++ Encrypted.
Proof.
  assert (Forall (fun f => Forall (fun g => f <> g ++ Encrypted) sensitiveFields)
            sensitiveFields) as H
    by (apply (bool_decide_unpack (Forall _ _)); by vm_compute).
  intros Hf Hg. rewrite Forall_forall in H. specialize (H f Hf).
  rewrite Forall_forall in H. by apply H.
Qed.

Section Fields.

Variable L : NodeCrypto.
Variable key : option jsstring.

Lemma decrypt_field_of_lookup (o : gmap jsstring JsValue) (f k : jsstring) :
  decrypt_field_of L key o f !! k
  = if decide (k = f ++ Encrypted)
    then fst (after_decrypt L key (o !! (f ++ Encrypted)) (o !! f))
    else if decide (k = f)
         then snd (after_decrypt L key (o !! (f ++ Encrypted)) (o !! f))
         else o !! k.
Proof.
  pose proof (field_ne_encrypted f f (le_n _)) as Hne.
  unfold decrypt_field_of, after_decrypt, own.
  destruct (truthy (default VUndefined (o !! (f ++ Encrypted)))).
  - destruct (decrypt_value L key _) as [p|e].
    + destruct (decide (k = f ++ Encrypted)) as [->|Hk]; cbn [fst snd].
      * apply lookup_delete_eq.
      * rewrite lookup_delete_ne by done.
        destruct (decide (k = f)) as [->|Hk'].
        -- apply lookup_insert_eq.
        -- by rewrite lookup_insert_ne.
    + repeat case_decide; by subst.
  - repeat case_decide; by subst.
Qed.

(** The loop over a list of fields, none of which is the encrypted
    counterpart of another: every field gets its own turn, and nothing
    else changes. *)
Lemma decrypted_fields (fields : list jsstring) :
  NoDup fields ->
  (forall f g, f ∈ fields -> g ∈ fields -> f <> g ++ Encrypted) ->
  forall o,
    (forall f, f ∈ fields ->
       foldl (decrypt_field_of L key) o fields !! (f ++ Encrypted)
       = fst (after_decrypt L key (o !! (f ++ Encrypted)) (o !! f))
       /\ foldl (decrypt_field_of L key) o fields !! f
          = snd (after_decrypt L key (o !! (f ++ Encrypted)) (o !! f)))
    /\ (forall k, (forall f, f ∈ fields -> k <> f /\ k <> f ++ Encrypted) ->
          foldl (decrypt_field_of L key) o fields !! k = o !! k).
Proof.
  induction fields as [|f fs IH]; intros Hnd Hplain o.
  - split; [intros f Hf; by apply elem_of_nil in Hf|done].
  - apply NoDup_cons in Hnd as [Hf Hnd].
    assert (forall a b, a ∈ fs -> b ∈ fs -> a <> b ++ Encrypted) as Hplain'
      by (intros a b Ha Hb; apply Hplain; by right).
    destruct (IH Hnd Hplain' (decrypt_field_of L key o f)) as [IH1 IH2].
    cbn [foldl]. split.
    + intros g [->|Hg]%elem_of_cons.
      * rewrite !IH2, !decrypt_field_of_lookup.
        -- rewrite decide_True by done.
           rewrite (decide_False (P := f = f ++ Encrypted))
             by apply field_ne_encrypted, le_n.
           by rewrite decide_True by done.
        -- intros a Ha. split; [by intros ->|].
           apply Hplain; [by left|by right].
        -- intros a Ha. split.
           ++ intros E. symmetry in E. revert E. apply Hplain; [by right|by left].
           ++ intros E%encrypted_inj. by subst.
      * destruct (IH1 g Hg) as [-> ->].
        rewrite !decrypt_field_of_lookup.
        assert (g <> f) as Hgf by (by intros ->).
        rewrite (decide_False (P := g ++ Encrypted = f ++ Encrypted))
          by (by intros E%encrypted_inj).
        rewrite (decide_False (P := g ++ Encrypted = f)).
        2:{ intros E. symmetry in E. revert E. apply Hplain; [by left|by right]. }
        rewrite (decide_False (P := g = f ++ Encrypted))
          by (apply Hplain; [by right|by left]).
        by rewrite (decide_False (P := g = f)) by done.
    + intros k Hk. rewrite IH2 by (intros a Ha; apply Hk; by right).
      destruct (Hk f) as [Hk1 Hk2]; [by left|].
      rewrite decrypt_field_of_lookup.
      by rewrite !decide_False by done.
Qed.

End Fields.

(** C6: a read of several records never throws in the hook and returns as
    many records as the storage layer did. In every record that is an
    object, each sensitive field whose encrypted value [decrypt] accepts is
    replaced by its plaintext; a field whose encrypted value [decrypt]
    rejects keeps its encrypted key, and its plain key stays as it was; the
    other keys are untouched. [decrypt_value L key v] is what [decrypt]
    returns for [v] under the master key [key]. *)
Theorem bulk_decrypt_isolates_failures (L : NodeCrypto) (params : Params)
    (next : Params -> M JsValue) (w w1 : World) (items : list JsValue) :
  is_read params = true ->
  call_next next params w = (Ok (VArr items), w1) ->
  exists items' w2,
    createEncryptionMiddleware L params next w = (Ok (VArr items'), w2)
    /\ length items' = length items
    /\ (forall i o, items !! i = Some (VObj o) ->
        exists o',
          items' !! i = Some (VObj o')
          /\ (forall f, f ∈ sensitiveFields ->
              let v := own o (f ++ Encrypted) in
              (truthy v = true ->
               forall p, decrypt_value L (ENCRYPTION_KEY w1) v = Ok p ->
                 o' !! f = Some (VStr p) /\ o' !! (f ++ Encrypted) = None)
              /\ (truthy v = false
                  \/ (exists e, decrypt_value L (ENCRYPTION_KEY w1) v = Throw e) ->
                  o' !! (f ++ Encrypted) = o !! (f ++ Encrypted)
                  /\ o' !! f = o !! f))
          /\ (forall k,
                (forall f, f ∈ sensitiveFields -> k <> f /\ k <> f ++ Encrypted) ->
                o' !! k = o !! k))
    /\ (forall i item, items !! i = Some item ->
          (forall o, item <> VObj o) -> items' !! i = Some item).
Proof.
  intros Hr Hnext.
  destruct (decrypt_result_array L (ENCRYPTION_KEY w1) params items w1 Hr eq_refl)
    as [evs Hres].
  exists (map (decrypt_item_of L (ENCRYPTION_KEY w1)) items), (extend w1 evs).
  split; [|split; [|split]].
  - unfold createEncryptionMiddleware, bind at 1, encrypt_payload.
    rewrite (is_read_not_write params Hr). cbn [ret].
    unfold bind. by rewrite Hnext.
  - apply length_map.
  - intros i o Hi.
    exists (foldl (decrypt_field_of L (ENCRYPTION_KEY w1)) o sensitiveFields).
    split; [by rewrite list_lookup_fmap, Hi|].
    destruct (decrypted_fields L (ENCRYPTION_KEY w1) sensitiveFields
                sensitiveFields_NoDup sensitiveFields_plain o) as [Hf Hk].
    split; [|exact Hk].
    intros f Hin. cbv zeta. destruct (Hf f Hin) as [-> ->].
    unfold after_decrypt, own. split.
    + intros -> p ->. done.
    + intros [-> |[e ->]]; [done|].
      by destruct (truthy _).
  - intros i item Hi Ho. rewrite list_lookup_fmap, Hi. cbn. f_equal.
    destruct item; try done. by destruct (Ho o).
Qed.

Lemma bulk_decrypt_isolates_failures_witness :
  let w := Demo.world (Some Demo.key32) in
  let items := [VObj Demo.corrupted; VObj Demo.valid] in
  let w1 := extend w [StorageCall Demo.findMany] in
  exists items' w2,
    createEncryptionMiddleware Demo.crypto Demo.findMany Demo.records w
    = (Ok (VArr items'), w2)
    /\ length items' = length items
    /\ (forall i o, items !! i = Some (VObj o) ->
        exists o',
          items' !! i = Some (VObj o')
          /\ (forall f, f ∈ sensitiveFields ->
              let v := own o (f ++ Encrypted) in
              (truthy v = true ->
               forall p, decrypt_value Demo.crypto (ENCRYPTION_KEY w1) v = Ok p ->
                 o' !! f = Some (VStr p) /\ o' !! (f ++ Encrypted) = None)
              /\ (truthy v = false
                  \/ (exists e,
                        decrypt_value Demo.crypto (ENCRYPTION_KEY w1) v = Throw e) ->
                  o' !! (f ++ Encrypted) = o !! (f ++ Encrypted)
                  /\ o' !! f = o !! f))
          /\ (forall k,
                (forall f, f ∈ sensitiveFields -> k <> f /\ k <> f ++ Encrypted) ->
                o' !! k = o !! k))
    /\ (forall i item, items !! i = Some item ->
          (forall o, item <> VObj o) -> items' !! i = Some item).
Proof.
  cbv zeta.
  apply (bulk_decrypt_isolates_failures Demo.crypto Demo.findMany
           Demo.records (Demo.world (Some Demo.key32))).
  - reflexivity.
  - reflexivity.
Defined.

(** The two records of the example, as the hook returns them: the corrupted
    blob is still there, the valid one was replaced by ["555"]. *)
Example bulk_decrypt_example :
  fst (createEncryptionMiddleware Demo.crypto Demo.findMany Demo.records
         (Demo.world (Some Demo.key32)))
  = Ok (VArr
          [VObj (<[js "id" := VNum 1]>
                   (<[js "phoneEncrypted" := VStr (js "not a blob")]> ∅));
           VObj (<[js "id" := VNum 2]> (<[js "phone" := VStr (js "555")]> ∅))]).
Proof. vm_compute. reflexivity. Qed.

(** [decryptObject] has the same tolerance: it never throws. *)
Lemma decryptObject_loop_returns (L : NodeCrypto)
    (obj : gmap jsstring JsValue) (fields : list jsstring) :
  forall (r : gmap jsstring JsValue) (w : World),
    exists result w',
      for_of fields (decryptObject_step L obj) r w = (Ok result, w').
Proof.
  induction fields as [|f fs IH]; intros r w; [by eexists _, _|].
  cbn [for_of]. unfold bind.
  assert (exists r1 w1, decryptObject_step L obj r f w = (Ok r1, w1))
    as (r1 & w1 & ->); [|apply IH].
  unfold decryptObject_step. cbv zeta.
  destruct (truthy _); [|by eexists _, _].
  unfold try_catch, bind.
  destruct (decrypt L _ w) as [[p|e] w0]; by eexists _, _.
Qed.

Lemma decryptObject_never_throws (L : NodeCrypto)
    (obj : gmap jsstring JsValue) (fields : list jsstring) (w : World) :
  exists result w', decryptObject L obj fields w = (Ok result, w').
Proof. apply decryptObject_loop_returns. Qed.



(** ** [encryptObject] *)

Section EncryptObject.

Variable L : NodeCrypto.
Variable obj : gmap jsstring JsValue.
Variable k : jsstring.
Hypothesis key_ok : key_rejected (Some k) = false.

Lemma encrypt_string_returns (w : World) (s : jsstring) :
  ENCRYPTION_KEY w = Some k ->
  exists e w1,
    encrypt L (VStr s) w = (Ok e, w1) /\ ENCRYPTION_KEY w1 = Some k.
Proof.
  intros Hk. rewrite (encrypt_string L w k s Hk key_ok). cbv zeta.
  eexists _, _. split; [reflexivity|]. exact Hk.
Qed.



End EncryptObject.



Example encryptObject_example :
  fst (encryptObject Demo.crypto Demo.profile [js "firstName"]
         (Demo.world (Some Demo.key32)))
  = Ok (<[js "firstNameEncrypted" :=
            VStr (js "AwoRGB8mLTQ7QklQV15lbHN6gYiPlp2kq7K5wMfO1dzj6vH4/wYNFBsiKTA3PkVMjzw8PDw8PDw8PDw8PDw8PB47NDs=")]>
          (<[js "other" := VStr (js "x")]> ∅)).
Proof. vm_compute. reflexivity. Qed.


(* ===================================================================== *)
(** * Part V: further properties of the service and of the hook *)
(* ===================================================================== *)

(** Membership in a list written out: one goal for each element. *)
Ltac each_member H :=
  repeat (apply elem_of_cons in H as [H|H]);
  [..|apply elem_of_nil in H; destruct H].

(** ** Tokens *)

Lemma hex_encode_length (b : bytes) : length (Hex.encode b) = 2 * length b.
Proof. induction b as [|x b IH]; [done|]. cbn [Hex.encode length]. lia. Qed.

Lemma hex_digit_elem (v : N) : (v < 16)%N -> Hex.digit v ∈ hex_digits.
Proof.
  intros Hv.
  assert (Forall (fun n => Hex.digit (N.of_nat n) ∈ hex_digits) (seq 0 16)) as H
    by (apply (bool_decide_unpack (Forall _ _)); by vm_compute).
  rewrite Forall_forall in H.
  rewrite <- (N2Nat.id v). apply H, elem_of_seq. lia.
Qed.

Lemma hex_encode_chars (b : bytes) :
  Forall (fun c => c ∈ hex_digits) (Hex.encode b).
Proof.
  induction b as [|x b IH]; [constructor|].
  pose proof (to_N_lt x) as Hx.
  cbn [Hex.encode].
  apply Forall_cons_2; [|apply Forall_cons_2; [|exact IH]];
    apply hex_digit_elem; euclid.
Qed.

Lemma randomBytes_sized_run (size : N) (w : World) :
  (size <= 2147483647)%N ->
  randomBytes_sized size w
  = (Ok (draw w (drawn w) (N.to_nat size)),
     advance w (N.to_nat size) [Crypto (RandomBytes (N.to_nat size))]).
Proof.
  intros H. unfold randomBytes_sized.
  by rewrite (proj2 (N.leb_le _ _) H).
Qed.

Lemma generateSecureToken_run (size : option N) (w : World) :
  (2 * default 32 size <= max_string_length)%N ->
  generateSecureToken size w
  = (Ok (Hex.encode (draw w (drawn w) (N.to_nat (default 32%N size)))),
     advance w (N.to_nat (default 32%N size))
       [Crypto (RandomBytes (N.to_nat (default 32%N size)))]).
Proof.
  intros H. unfold generateSecureToken. cbv zeta. unfold bind.
  rewrite randomBytes_sized_run by (unfold max_string_length in H; lia).
  unfold Buffer_toString_hex. rewrite draw_length, N2Nat.id.
  by rewrite (proj2 (N.leb_le _ _) H).
Qed.

(** A length above [2^31 - 1] is refused by [randomBytes], before anything
    is drawn; a length up to there whose token would be longer than the
    longest string is drawn, and [toString] throws. *)
Lemma generateSecureToken_too_long (size : option N) (w : World) :
  (max_string_length < 2 * default 32 size)%N ->
  generateSecureToken size w
  = if (default 32 size <=? 2147483647)%N
    then (Throw (Error "Cannot create a string longer than 0x1fffffe8 characters"),
          advance w (N.to_nat (default 32%N size))
            [Crypto (RandomBytes (N.to_nat (default 32%N size)))])
    else (Throw (RangeError "The value of size is out of range"), w).
Proof.
  intros H. unfold generateSecureToken. cbv zeta. unfold bind.
  destruct (N.leb_spec (default 32%N size) 2147483647) as [Hle|Hgt].
  - rewrite randomBytes_sized_run by done.
    unfold Buffer_toString_hex. rewrite draw_length, N2Nat.id.
    by rewrite (proj2 (N.leb_gt _ _) H).
  - unfold randomBytes_sized. by rewrite (proj2 (N.leb_gt _ _) Hgt).
Qed.

(** X1: for a length [n] whose token fits in a string ([2 * n] at most
    [2^29 - 24], the longest string of V8; 32 when no length is given),
    [generateSecureToken] draws [n] random bytes, in one call of
    [randomBytes], and returns their hexadecimal writing: twice as many
    characters, all of them among [0123456789abcdef], from which the bytes
    drawn are read back. Two tokens are equal only if the bytes drawn were
    equal. *)
Theorem generateSecureToken_spec (w : World) (size : option N) :
  (2 * default 32 size <= max_string_length)%N ->
  exists token,
    generateSecureToken size w
    = (Ok token,
       advance w (N.to_nat (default 32%N size))
         [Crypto (RandomBytes (N.to_nat (default 32%N size)))])
    /\ length token = 2 * N.to_nat (default 32%N size)
    /\ Forall (fun c => c ∈ hex_digits) token
    /\ Hex.decode token = draw w (drawn w) (N.to_nat (default 32%N size))
    /\ forall w',
         fst (generateSecureToken size w') = Ok token ->
         draw w' (drawn w') (N.to_nat (default 32%N size))
         = draw w (drawn w) (N.to_nat (default 32%N size)).
Proof.
  intros Hfit.
  exists (Hex.encode (draw w (drawn w) (N.to_nat (default 32%N size)))).
  split; [by apply generateSecureToken_run|].
  split; [by rewrite hex_encode_length, draw_length|].
  split; [apply hex_encode_chars|]. split; [apply hex_decode_encode|].
  intros w' H. rewrite generateSecureToken_run in H by done.
  cbn [fst] in H. apply Ok_inj in H.
  apply (f_equal Hex.decode) in H. by rewrite !hex_decode_encode in H.
Qed.

Lemma generateSecureToken_spec_witness :
  exists token,
    generateSecureToken None (Demo.world None)
    = (Ok token, advance (Demo.world None) 32 [Crypto (RandomBytes 32)])
    /\ length token = 64
    /\ Forall (fun c => c ∈ hex_digits) token
    /\ Hex.decode token = draw (Demo.world None) 0 32
    /\ forall w',
         fst (generateSecureToken None w') = Ok token ->
         draw w' (drawn w') 32 = draw (Demo.world None) 0 32.
Proof.
  apply (generateSecureToken_spec (Demo.world None) None). vm_compute. discriminate.
Defined.

(** A token of [2^28] bytes would have [2^29] characters: the bytes are
    drawn and nothing is returned. A length of [2^31] is refused. *)
Example generateSecureToken_example :
  fst (generateSecureToken (Some 268435456%N) (Demo.world None))
  = Throw (Error "Cannot create a string longer than 0x1fffffe8 characters")
  /\ generateSecureToken (Some 2147483648%N) (Demo.world None)
     = (Throw (RangeError "The value of size is out of range"), Demo.world None).
Proof.
  split; rewrite generateSecureToken_too_long by (by vm_compute); reflexivity.
Qed.

(** ** What [encrypt] returns beside the blob *)

(** X2: whenever [encrypt] returns, the [iv] and the [authTag] it returns
    beside the blob are the hexadecimal writing, 32 characters each, of the
    bytes 32 to 47 and 48 to 63 of the decoded blob; the call has drawn 48
    random bytes and run the seven operations of [encrypt_events] and
    nothing else, so the fallback [randomBytes(16)] for a missing tag is
    never reached. *)
Theorem encrypt_parts_agree (L : NodeCrypto) (w w' : World) (text : JsValue)
    (e : EncryptedData) :
  NodeCryptoLaws L ->
  encrypt L text w = (Ok e, w') ->
  Hex.decode (iv e) = subarray (Base64.decode (encrypted e)) 32 48
  /\ Hex.decode (authTag e) = subarray (Base64.decode (encrypted e)) 48 64
  /\ length (iv e) = 32 /\ length (authTag e) = 32
  /\ w' = advance w 48 encrypt_events.
Proof.
  intros laws H.
  destruct (encrypt_Ok_inv L w w' text e H) as (k & s & -> & Hk & Hr).
  rewrite (encrypt_string L w k s Hk Hr) in H. cbv zeta in H.
  apply run_Ok_inj in H as [<- <-]. cbn [encrypted iv authTag].
  rewrite base64_decode_encode, !hex_decode_encode, !hex_encode_length.
  rewrite draw_length, (gcm_tag_length L laws). unfold sealed.
  split; [|split; [|done]].
  - symmetry.
    apply layout_iv; (apply draw_length || apply (gcm_tag_length L laws)).
  - symmetry.
    apply layout_tag; (apply draw_length || apply (gcm_tag_length L laws)).
Qed.

Lemma encrypt_parts_agree_witness :
  let w := Demo.world (Some Demo.key32) in
  exists e w',
    encrypt Demo.crypto (VStr (js "Dana")) w = (Ok e, w')
    /\ Hex.decode (iv e) = subarray (Base64.decode (encrypted e)) 32 48
    /\ Hex.decode (authTag e) = subarray (Base64.decode (encrypted e)) 48 64
    /\ length (iv e) = 32 /\ length (authTag e) = 32
    /\ w' = advance w 48 encrypt_events.
Proof.
  cbv zeta. eexists _, _. split; [vm_compute; reflexivity|].
  eapply (encrypt_parts_agree Demo.crypto (Demo.world (Some Demo.key32)) _
            (VStr (js "Dana")) _ demo_laws).
  vm_compute. reflexivity.
Defined.

(** ** The inputs of [decrypt] *)

Lemma decrypt_object_as_string (L : NodeCrypto) (o : gmap jsstring JsValue)
    (blob : jsstring) (w : World) :
  o !! js "encrypted" = Some (VStr blob) ->
  decrypt L (VObj o) w = decrypt L (VStr blob) w.
Proof.
  intros Ho. unfold decrypt. run. unfold own. rewrite Ho. reflexivity.
Qed.

Lemma short_tag_invalid (n : nat) : n < 4 -> valid_gcm_tag_length n = false.
Proof. intros Hn. by destruct n as [|[|[|[|n]]]]; [..|lia]. Qed.

Lemma opened_short (L : NodeCrypto) (k : jsstring) (combined : bytes) :
  length combined < 52 -> opened L k combined = None.
Proof.
  intros Hl. unfold opened. rewrite short_tag_invalid; [done|].
  unfold subarray. rewrite length_take, length_drop.
  unfold saltLength, ivLength, tagLength. lia.
Qed.

Lemma decrypt_not_buffer (L : NodeCrypto) (v : JsValue) (w : World) :
  match v with
  | VUndefined | VNull | VBool _ | VNum _ => True
  | _ => False
  end ->
  exists evs, decrypt L v w = (Throw decrypt_error, extend w evs).
Proof.
  intros Hv.
  destruct (key_missing (ENCRYPTION_KEY w)) eqn:Hm.
  { rewrite decrypt_missing by done. eauto. }
  destruct w as [[k|] ent dr tr]; [|discriminate Hm]. cbn [ENCRYPTION_KEY] in Hm.
  unfold decrypt. run. rewrite Hm.
  destruct v; try destruct Hv; run; unfold extend; cbn [ENCRYPTION_KEY entropy drawn trace];
    rewrite <- ?app_assoc; eexists; reflexivity.
Qed.

(** X3: [decrypt] never accepts [undefined], [null], a boolean, a number,
    or a string that decodes to fewer than 52 bytes, the empty string
    included: in every state it throws its generic error. The tag sliced
    from fewer than 52 bytes has fewer than 4 bytes, which [setAuthTag]
    rejects. *)
Theorem decrypt_rejects_short_input (L : NodeCrypto) (v : JsValue) (w : World) :
  too_short v ->
  exists evs, decrypt L v w = (Throw decrypt_error, extend w evs).
Proof.
  intros Hv.
  destruct v as [| |b|n|blob|o|l]; cbn [too_short] in Hv;
    [by apply decrypt_not_buffer..| |done|done].
  destruct (key_missing (ENCRYPTION_KEY w)) eqn:Hm.
  { rewrite decrypt_missing by done. eauto. }
  destruct (ENCRYPTION_KEY w) as [k|] eqn:Hk; [|discriminate Hm].
  rewrite (decrypt_string L w k blob Hk Hm), opened_short by done. eauto.
Qed.

Lemma decrypt_rejects_short_input_witness :
  exists evs,
    decrypt Demo.crypto (VStr []) (Demo.world (Some Demo.key32))
    = (Throw decrypt_error, extend (Demo.world (Some Demo.key32)) evs).
Proof.
  apply (decrypt_rejects_short_input Demo.crypto (VStr [])
           (Demo.world (Some Demo.key32))).
  vm_compute. lia.
Defined.

(** A blob with every code unit raised by 256 is read as the blob, and
    accepted. *)
Example decrypt_low_byte_example :
  fst (decrypt Demo.crypto (VStr (map (N.add 256) Demo.phone_blob))
         (Demo.world (Some Demo.key32)))
  = Ok (js "555").
Proof. vm_compute. reflexivity. Qed.

(** X4: of an object, [decrypt] reads the property [encrypted] and nothing
    else. When it holds a string, the call is the call on that string,
    whatever [authTag] and [iv] hold; when the object has no such property,
    the call throws the generic error. *)
Theorem decrypt_object_form (L : NodeCrypto) (o : gmap jsstring JsValue)
    (w : World) :
  (forall blob, o !! js "encrypted" = Some (VStr blob) ->
     decrypt L (VObj o) w = decrypt L (VStr blob) w)
  /\ (o !! js "encrypted" = None ->
      exists evs, decrypt L (VObj o) w = (Throw decrypt_error, extend w evs)).
Proof.
  split; [intros blob; apply decrypt_object_as_string|].
  intros Ho.
  destruct (key_missing (ENCRYPTION_KEY w)) eqn:Hm.
  { rewrite decrypt_missing by done. eauto. }
  destruct w as [[k|] ent dr tr]; [|discriminate Hm]. cbn [ENCRYPTION_KEY] in Hm.
  unfold decrypt. run. rewrite Hm. unfold own. rewrite Ho. run.
  unfold extend; cbn [ENCRYPTION_KEY entropy drawn trace].
  rewrite <- ?app_assoc. eexists. reflexivity.
Qed.

Lemma decrypt_object_form_witness :
  let o : gmap jsstring JsValue :=
    <[js "encrypted" := VStr Demo.phone_blob]> (<[js "iv" := VStr (js "zz")]> ∅) in
  let w := Demo.world (Some Demo.key32) in
  decrypt Demo.crypto (VObj o) w = decrypt Demo.crypto (VStr Demo.phone_blob) w
  /\ fst (decrypt Demo.crypto (VObj o) w) = Ok (js "555").
Proof.
  cbv zeta.
  destruct (decrypt_object_form Demo.crypto
              (<[js "encrypted" := VStr Demo.phone_blob]>
                 (<[js "iv" := VStr (js "zz")]> ∅))
              (Demo.world (Some Demo.key32))) as [H _].
  rewrite (H Demo.phone_blob) by apply lookup_insert_eq.
  split; [reflexivity|]. vm_compute. reflexivity.
Defined.

(** ** What [decrypt] depends on *)

(** X5: [decrypt] draws no random bytes and calls no storage, and what it
    returns or throws depends only on its argument and on the master key:
    in two states with the same key it gives the same result. *)
Theorem decrypt_reads_only (L : NodeCrypto) (v : JsValue) (w w' : World) :
  ENCRYPTION_KEY w' = ENCRYPTION_KEY w ->
  fst (decrypt L v w') = fst (decrypt L v w)
  /\ drawn (snd (decrypt L v w)) = drawn w
  /\ entropy (snd (decrypt L v w)) = entropy w
  /\ ENCRYPTION_KEY (snd (decrypt L v w)) = ENCRYPTION_KEY w
  /\ storage_calls (trace (snd (decrypt L v w))) = storage_calls (trace w).
Proof.
  intros Hk.
  destruct (quiet_decrypt L v w) as [Hw Hs].
  destruct (quiet_decrypt L v w') as [Hw' _].
  rewrite Hw, Hw', Hk. cbn [fst snd extend drawn entropy ENCRYPTION_KEY trace].
  repeat split. rewrite storage_calls_app, Hs. apply app_nil_r.
Qed.

Lemma decrypt_reads_only_witness :
  fst (decrypt Demo.crypto (VStr Demo.phone_blob) (Demo.stuck_world (Some Demo.key32)))
  = fst (decrypt Demo.crypto (VStr Demo.phone_blob) (Demo.world (Some Demo.key32)))
  /\ fst (decrypt Demo.crypto (VStr Demo.phone_blob) (Demo.world (Some Demo.key32)))
     = Ok (js "555").
Proof.
  destruct (decrypt_reads_only Demo.crypto (VStr Demo.phone_blob)
              (Demo.world (Some Demo.key32)) (Demo.stuck_world (Some Demo.key32))
              eq_refl) as [H _].
  split; [exact H|]. vm_compute. reflexivity.
Defined.

(** ** The initialization vector *)

(** X6: the initialization vector is not protected. After one bit of the
    bytes 32 to 47 of a blob of [encrypt] is inverted, the blob is another
    one and [decrypt] still returns the plaintext: [createCipher] and
    [createDecipher] take the derived key only, the IV drawn is packed into
    the blob and never read. For a well-formed string under a master key of
    at least 32 characters. *)
Theorem iv_flip_undetected (L : NodeCrypto) (w w1 w2 : World)
    (k s : jsstring) (e : EncryptedData) (i j : nat) :
  NodeCryptoLaws L ->
  ENCRYPTION_KEY w = Some k -> 32 <= length k ->
  Utf8.well_formed s = true ->
  encrypt L (VStr s) w = (Ok e, w1) ->
  saltLength <= i < saltLength + ivLength -> j < 8 ->
  ENCRYPTION_KEY w2 = Some k ->
  Base64.encode (flip_bit i j (Base64.decode (encrypted e))) <> encrypted e
  /\ fst (decrypt L (VStr (Base64.encode (flip_bit i j (Base64.decode (encrypted e)))))
            w2)
     = Ok s.
Proof.
  intros laws Hk Hlen Hwf H Hi Hj Hk2. destruct (key_accepted k Hlen) as [Hr Hm].
  rewrite (encrypt_string L w k s Hk Hr) in H. cbv zeta in H.
  apply run_Ok_inj in H as [<- _]. cbn [encrypted].
  rewrite base64_decode_encode. split.
  - intros E%base64_encode_inj. revert E. apply flip_bit_changes; [|done].
    unfold sealed. rewrite !length_app, !draw_length. lia.
  - rewrite (decrypt_string L w2 k _ Hk2 Hm). cbn [fst].
    rewrite base64_decode_encode. unfold sealed.
    pose proof (draw_length w (drawn w) saltLength) as Hs.
    rewrite flip_bit_app_r by lia. rewrite Hs.
    rewrite flip_bit_app_l by (rewrite draw_length; lia).
    pose proof (opened_sealed L laws k s (draw w (drawn w) saltLength)
                  (flip_bit (i - saltLength) j
                     (draw w (drawn w + saltLength) ivLength))) as Ho.
    unfold sealed in Ho. rewrite Ho; [done|done| |done].
    by rewrite flip_bit_length, draw_length.
Qed.

Lemma iv_flip_undetected_witness :
  let w := Demo.world (Some Demo.key32) in
  exists e w1,
    encrypt Demo.crypto (VStr (js "Dana")) w = (Ok e, w1)
    /\ Base64.encode (flip_bit 40 3 (Base64.decode (encrypted e))) <> encrypted e
    /\ fst (decrypt Demo.crypto
              (VStr (Base64.encode (flip_bit 40 3 (Base64.decode (encrypted e)))))
              w1)
       = Ok (js "Dana").
Proof.
  cbv zeta. eexists _, _. split; [vm_compute; reflexivity|].
  eapply (iv_flip_undetected Demo.crypto (Demo.world (Some Demo.key32)) _ _
            Demo.key32 (js "Dana") _ 40 3 demo_laws).
  - reflexivity.
  - vm_compute. lia.
  - reflexivity.
  - vm_compute. reflexivity.
  - vm_compute. lia.
  - lia.
  - reflexivity.
Defined.

(** ** [isEncrypted] on what [encrypt] returns *)

Lemma utf8_encode_cp_length (c : N) : 0 < length (Utf8.encode_cp c).
Proof. unfold Utf8.encode_cp. repeat case_match; cbn; lia. Qed.

Lemma utf8_encode_length (s : jsstring) :
  s <> [] -> 0 < length (Utf8.encode s).
Proof.
  destruct s as [|u rest]; [done|]. intros _.
  pose proof utf8_encode_cp_length as H.
  cbn [Utf8.encode]. repeat case_match; rewrite ?length_app;
    try match goal with |- 0 < length (Utf8.encode_cp ?c) + _ => specialize (H c); lia end;
    apply H.
Qed.

(** X7: [isEncrypted] answers [true] for the blob of every non-empty string
    and [false] for the blob of the empty string, whose buffer has 64 bytes,
    one fewer than the test asks for. Assumes of the cipher that its key
    stream writes as many bytes as it reads. *)
Theorem isEncrypted_of_encrypt (L : NodeCrypto) (w w' w2 : World)
    (s : jsstring) (e : EncryptedData) :
  NodeCryptoLaws L -> stream_keeps_length L ->
  encrypt L (VStr s) w = (Ok e, w') ->
  isEncrypted L (VStr (encrypted e)) w2
  = (Ok (negb (bool_decide (s = []))), w2).
Proof.
  intros laws Hlen H.
  destruct (encrypt_Ok_inv L w w' _ e H) as (k & s' & Hs & Hk & Hr).
  assert (s' = s) as -> by congruence.
  rewrite (encrypt_string L w k s Hk Hr) in H. cbv zeta in H.
  apply run_Ok_inj in H as [<- _]. cbn [encrypted].
  unfold isEncrypted. run. rewrite base64_decode_encode.
  f_equal. f_equal. unfold sealed.
  rewrite !length_app, !draw_length, (gcm_tag_length L laws), Hlen.
  unfold saltLength, ivLength, tagLength.
  destruct (decide (s = [])) as [->|Hne].
  - by rewrite bool_decide_eq_true_2.
  - rewrite bool_decide_eq_false_2 by done.
    pose proof (utf8_encode_length s Hne). apply Nat.leb_le. cbn [negb]. lia.
Qed.

Lemma demo_stream_keeps_length : stream_keeps_length Demo.crypto.
Proof. intros key data. apply length_map. Qed.

Lemma isEncrypted_of_encrypt_witness :
  let w := Demo.world (Some Demo.key32) in
  exists e w',
    encrypt Demo.crypto (VStr []) w = (Ok e, w')
    /\ isEncrypted Demo.crypto (VStr (encrypted e)) w' = (Ok false, w').
Proof.
  cbv zeta. eexists _, _. split; [vm_compute; reflexivity|].
  eapply (isEncrypted_of_encrypt Demo.crypto (Demo.world (Some Demo.key32)) _ _
            [] _ demo_laws demo_stream_keeps_length).
  vm_compute. reflexivity.
Defined.

(** ** Blobs that come back *)


Section Blobs.

Variable L : NodeCrypto.
Hypothesis laws : NodeCryptoLaws L.


End Blobs.

(** ** Assigning a string to a property *)

Lemma assign_string_ne (o : gmap jsstring JsValue) (k s x : jsstring) :
  x <> k -> assign_string o k s !! x = o !! x.
Proof.
  intros Hx. unfold assign_string. destruct (_ && _); [done|].
  by rewrite lookup_insert_ne.
Qed.

Lemma assign_string_eq (o : gmap jsstring JsValue) (k s : jsstring) :
  k <> js "__proto__" -> assign_string o k s !! k = Some (VStr s).
Proof.
  intros Hk. unfold assign_string. rewrite bool_decide_eq_false_2 by done.
  cbn [andb]. apply lookup_insert_eq.
Qed.

Lemma assign_string_keeps (o : gmap jsstring JsValue) (k s x : jsstring) :
  is_Some (o !! x) -> is_Some (assign_string o k s !! x).
Proof.
  intros Hx. unfold assign_string. destruct (_ && _); [done|].
  destruct (decide (x = k)) as [->|Hne].
  - rewrite lookup_insert_eq. eauto.
  - by rewrite lookup_insert_ne.
Qed.

(** An object without own property [__proto__] gains none. *)
Lemma assign_string_fresh (o : gmap jsstring JsValue) (k s : jsstring) :
  o !! js "__proto__" = None -> assign_string o k s !! js "__proto__" = None.
Proof.
  intros Ho. destruct (decide (k = js "__proto__")) as [->|Hk].
  - unfold assign_string. rewrite bool_decide_eq_true_2 by done.
    rewrite Ho, bool_decide_eq_false_2 by (by intros [? ?]). done.
  - by rewrite assign_string_ne.
Qed.

Lemma assign_string_lookup (o : gmap jsstring JsValue) (k s x : jsstring)
    (z : JsValue) :
  o !! js "__proto__" = None ->
  assign_string o k s !! x = Some z ->
  o !! x = Some z \/ (k <> js "__proto__" /\ x = k /\ z = VStr s).
Proof.
  intros Ho H. destruct (decide (x = k)) as [->|Hx].
  - destruct (decide (k = js "__proto__")) as [->|Hk].
    + by rewrite assign_string_fresh in H.
    + rewrite assign_string_eq in H by done. right. by injection H as <-.
  - rewrite assign_string_ne in H by done. by left.
Qed.

(** ** [decryptObject] *)

Section DecryptObject.

Variable L : NodeCrypto.
Variable obj : gmap jsstring JsValue.

Lemma quiet_decryptObject_step (r : gmap jsstring JsValue) (f : jsstring) :
  quiet (decryptObject_step L obj r f).
Proof.
  pose proof (quiet_decrypt L). unfold decryptObject_step. repeat quiet_step.
Qed.

Variable key : option jsstring.

Lemma outcome_decryptObject_step (r : gmap jsstring JsValue) (f : jsstring) :
  outcome (decryptObject_step L obj r f) key = Ok (decryptObject_of L key obj r f).
Proof.
  unfold decryptObject_step, decryptObject_of. cbv zeta.
  destruct (truthy (own obj (f ++ Encrypted))); [|done].
  rewrite outcome_try_catch.
  2:{ pose proof (quiet_decrypt L). repeat quiet_step. }
  2:{ intros e. repeat quiet_step. }
  rewrite outcome_bind; [|apply quiet_decrypt|intros; apply quiet_ret].
  unfold decrypt_value. destruct (outcome (decrypt L _) key) as [p|e]; [done|].
  rewrite outcome_bind; [done|apply quiet_console_error|intros; apply quiet_ret].
Qed.

Lemma decryptObject_fold (fields : list jsstring) (w : World) :
  ENCRYPTION_KEY w = key ->
  exists evs,
    decryptObject L obj fields w
    = (Ok (foldl (decryptObject_of L key obj) obj fields), extend w evs).
Proof.
  intros Hk. unfold decryptObject.
  destruct (quiet_for_of fields (decryptObject_step L obj) obj
              quiet_decryptObject_step w) as [-> _].
  eexists. f_equal. rewrite Hk.
  apply outcome_for_of;
    [apply quiet_decryptObject_step|apply outcome_decryptObject_step].
Qed.

(** A key that is neither a decrypted field nor its encrypted counterpart
    keeps its value. *)
Lemma decryptObject_fold_other (fields : list jsstring) :
  forall (r : gmap jsstring JsValue) (x : jsstring),
    (forall f p, f ∈ fields -> decrypts L key obj f p ->
       x <> f /\ x <> f ++ Encrypted) ->
    foldl (decryptObject_of L key obj) r fields !! x = r !! x.
Proof.
  induction fields as [|f fs IH]; intros r x Hx; [done|].
  cbn [foldl]. rewrite IH by (intros g p Hg; apply Hx; by right).
  unfold decryptObject_of.
  destruct (truthy (own obj (f ++ Encrypted))) eqn:Ht; [|done].
  destruct (decrypt_value L key (own obj (f ++ Encrypted))) as [p|e] eqn:Hd; [|done].
  destruct (Hx f p) as [Hx1 Hx2]; [by left|by split|].
  by rewrite lookup_delete_ne, assign_string_ne.
Qed.

Lemma decryptObject_fold_field (fields : list jsstring) :
  forall (r : gmap jsstring JsValue) (f p : jsstring),
    f ∈ fields -> decrypts L key obj f p -> f <> js "__proto__" ->
    (forall g q, g ∈ fields -> decrypts L key obj g q ->
       f <> g ++ Encrypted /\ g <> f ++ Encrypted) ->
    foldl (decryptObject_of L key obj) r fields !! f = Some (VStr p)
    /\ foldl (decryptObject_of L key obj) r fields !! (f ++ Encrypted) = None.
Proof.
  induction fields as [|a fs IH]; intros r f p Hin Hf Hproto Hplain.
  { by apply elem_of_nil in Hin. }
  cbn [foldl].
  destruct (decide (f ∈ fs)) as [Hfs|Hfs].
  { apply IH; [done..|]. intros g q Hg. apply Hplain. by right. }
  apply elem_of_cons in Hin as [<-|Hin]; [|done].
  assert (f <> f ++ Encrypted) as Hne by apply field_ne_encrypted, le_n.
  rewrite !decryptObject_fold_other.
  - unfold decryptObject_of. destruct Hf as [-> ->].
    rewrite lookup_delete_ne, assign_string_eq, lookup_delete_eq; done.
  - intros g q Hg Hq. destruct (Hplain g q) as [H1 H2]; [by right|done|].
    split; [done|]. intros E%encrypted_inj. by subst.
  - intros g q Hg Hq. destruct (Hplain g q) as [H1 H2]; [by right|done|].
    split; [|done]. by intros ->.
Qed.

End DecryptObject.

(** X8: [decryptObject] returns for every object and every list of fields
    (without [__proto__], a name under which an assignment makes no
    property). When no decrypted field is the encrypted counterpart of
    another, every listed field [f] whose value under [fEncrypted] is truthy
    and accepted by [decrypt] holds the plaintext in the result, and
    [fEncrypted] is gone; every key that is neither such a field nor its
    counterpart is as in [obj]: a listed field whose encrypted value is
    absent, falsy or rejected stays as it was, and so does that value. *)
Theorem decryptObject_spec (L : NodeCrypto) (obj : gmap jsstring JsValue)
    (fields : list jsstring) (w : World) :
  js "__proto__" ∉ fields ->
  (forall f g p q, f ∈ fields -> g ∈ fields ->
     decrypts L (ENCRYPTION_KEY w) obj f p ->
     decrypts L (ENCRYPTION_KEY w) obj g q -> f <> g ++ Encrypted) ->
  exists result evs,
    decryptObject L obj fields w = (Ok result, extend w evs)
    /\ (forall f p, f ∈ fields -> decrypts L (ENCRYPTION_KEY w) obj f p ->
          result !! f = Some (VStr p) /\ result !! (f ++ Encrypted) = None)
    /\ (forall x,
          (forall f p, f ∈ fields -> decrypts L (ENCRYPTION_KEY w) obj f p ->
             x <> f /\ x <> f ++ Encrypted) ->
          result !! x = obj !! x).
Proof.
  intros Hproto Hplain.
  destruct (decryptObject_fold L obj (ENCRYPTION_KEY w) fields w eq_refl)
    as [evs Hrun].
  eexists _, evs. split; [exact Hrun|]. split.
  - intros f p Hin Hf. apply decryptObject_fold_field; [done|done|by intros ->|].
    intros g q Hg Hq. split; [by eapply Hplain|].
    by eapply (Hplain g f).
  - intros x Hx. by apply decryptObject_fold_other.
Qed.

Lemma decryptObject_spec_witness :
  let obj := Samples.mixed in
  let w := Demo.world (Some Demo.key32) in
  exists result evs,
    decryptObject Demo.crypto obj sensitiveFields w = (Ok result, extend w evs)
    /\ (forall f p, f ∈ sensitiveFields ->
          decrypts Demo.crypto (ENCRYPTION_KEY w) obj f p ->
          result !! f = Some (VStr p) /\ result !! (f ++ Encrypted) = None)
    /\ (forall x,
          (forall f p, f ∈ sensitiveFields ->
             decrypts Demo.crypto (ENCRYPTION_KEY w) obj f p ->
             x <> f /\ x <> f ++ Encrypted) ->
          result !! x = obj !! x).
Proof.
  cbv zeta.
  apply (decryptObject_spec Demo.crypto Samples.mixed sensitiveFields
           (Demo.world (Some Demo.key32))).
  - apply (bool_decide_unpack (_ ∉ _)). by vm_compute.
  - intros f g p q Hf Hg _ _. by apply sensitiveFields_plain.
Defined.

(** [{id: 3, phoneEncrypted: <blob>, addressEncrypted: "not a blob"}]: the
    telephone number comes back, the address stays as it was. *)
Example decryptObject_example :
  fst (decryptObject Demo.crypto Samples.mixed sensitiveFields
         (Demo.world (Some Demo.key32)))
  = Ok (<[js "id" := VNum 3]>
          (<[js "phone" := VStr (js "555")]>
             (<[js "addressEncrypted" := VStr (js "not a blob")]> ∅))).
Proof. vm_compute. reflexivity. Qed.

(** Under the name [__proto__] the plaintext is written only where the
    object has an own property of that name; the encrypted value is deleted
    in both cases. *)
Example decryptObject_proto_example :
  let o : gmap jsstring JsValue :=
    <[js "__proto__Encrypted" := VStr Demo.phone_blob]> ∅ in
  let w := Demo.world (Some Demo.key32) in
  fst (decryptObject Demo.crypto o [js "__proto__"] w) = Ok ∅
  /\ fst (decryptObject Demo.crypto (<[js "__proto__" := VNum 1]> o)
            [js "__proto__"] w)
     = Ok (<[js "__proto__" := VStr (js "555")]> ∅).
Proof. vm_compute. split; reflexivity. Qed.

(** ** [encryptObject], then [decryptObject] *)



(** ** [encryptObject] without a key *)

Section EncryptObjectKey.

Variable L : NodeCrypto.
Variable obj : gmap jsstring JsValue.

Lemma encryptObject_idle (fields : list jsstring)
    (r : gmap jsstring JsValue) (w : World) :
  Forall (fun f => filled (own obj f) = false) fields ->
  for_of fields (encryptObject_step L obj) r w = (Ok r, w).
Proof.
  induction 1 as [|f rest Hv _ IH]; [done|].
  cbn [for_of]. unfold bind at 1, encryptObject_step at 1.
  unfold filled in Hv. by rewrite Hv.
Qed.

Lemma encryptObject_stops (fields : list jsstring)
    (r : gmap jsstring JsValue) (w : World) :
  key_rejected (ENCRYPTION_KEY w) = true ->
  Exists (fun f => filled (own obj f) = true) fields ->
  for_of fields (encryptObject_step L obj) r w
  = (Throw encrypt_error,
     extend w [ConsoleError (js "Error en cifrado:")
                 (Error "ENCRYPTION_KEY debe tener al menos 32 caracteres")]).
Proof.
  intros Hr. induction fields as [|f rest IH]; intros Hex.
  { by apply Exists_nil in Hex. }
  cbn [for_of]. unfold bind at 1, encryptObject_step at 1.
  destruct (truthy (own obj f) && is_string (own obj f)) eqn:Hv.
  - unfold bind. by rewrite encrypt_rejected.
  - cbn [ret]. apply IH. apply Exists_cons in Hex as [Hex|Hex]; [|done].
    unfold filled in Hex. congruence.
Qed.

End EncryptObjectKey.

(** X10: [encryptObject] on an object none of whose listed fields is a
    non-empty string returns the object as it is and draws nothing, with or
    without a master key. Without an accepted key (unset, or shorter than 32
    characters) it throws the generic error of [encrypt] as soon as one
    listed field is a non-empty string: no partial result is returned. *)
Theorem encryptObject_without_key (L : NodeCrypto)
    (obj : gmap jsstring JsValue) (fields : list jsstring) (w : World) :
  (Forall (fun f => filled (own obj f) = false) fields ->
   encryptObject L obj fields w = (Ok obj, w))
  /\ (key_rejected (ENCRYPTION_KEY w) = true ->
      Exists (fun f => filled (own obj f) = true) fields ->
      exists evs,
        encryptObject L obj fields w = (Throw encrypt_error, extend w evs)).
Proof.
  split.
  - apply encryptObject_idle.
  - intros Hr Hex. eexists. by apply encryptObject_stops.
Qed.

Lemma encryptObject_without_key_witness :
  let w := Demo.world None in
  encryptObject Demo.crypto Demo.profile [js "phone"] w = (Ok Demo.profile, w)
  /\ exists evs,
       encryptObject Demo.crypto Demo.profile [js "firstName"] w
       = (Throw encrypt_error, extend w evs).
Proof.
  cbv zeta.
  destruct (encryptObject_without_key Demo.crypto Demo.profile [js "phone"]
              (Demo.world None)) as [H1 _].
  destruct (encryptObject_without_key Demo.crypto Demo.profile [js "firstName"]
              (Demo.world None)) as [_ H2].
  split.
  - apply H1. by repeat constructor.
  - apply H2; [reflexivity|]. by apply Exists_cons_hd.
Defined.

(** ** The hook: what a write stores *)

Lemma is_write_not_read (params : Params) :
  is_write params = true -> is_read params = false.
Proof.
  intros Hw. destruct (is_read params) eqn:Hr; [|done].
  apply is_read_not_write in Hr. congruence.
Qed.

Section HookWrites.

Variable L : NodeCrypto.

(** One turn of the loop over the fields of a payload that is an object. *)
Lemma encrypt_field_object (o : gmap jsstring JsValue) (f : jsstring)
    (w : World) :
  encrypt_field L (VObj o) f w
  = if truthy (own o f) then
      match encrypt L (own o f) w with
      | (Ok e, w1) =>
          (Ok (VObj (delete f (<[f ++ Encrypted := VStr (encrypted e)]> o))), w1)
      | (Throw e, w1) => (Throw e, w1)
      end
    else (Ok (VObj o), w).
Proof.
  unfold encrypt_field. cbn [get_property]. unfold bind at 1, ret at 1.
  destruct (truthy (own o f)); [|done].
  unfold bind. by destruct (encrypt L (own o f) w) as [[e|e] w1].
Qed.

Lemma own_after_turn (o : gmap jsstring JsValue) (f g : jsstring) (v : JsValue) :
  g <> f -> g <> f ++ Encrypted ->
  own (delete f (<[f ++ Encrypted := v]> o)) g = own o g.
Proof.
  intros H1 H2. unfold own. by rewrite lookup_delete_ne, lookup_insert_ne.
Qed.

(** The write half after it has passed the payload to the loop. *)
Lemma encrypt_payload_object (params : Params) (a o : gmap jsstring JsValue)
    (w : World) :
  is_write params = true -> args params = VObj a ->
  a !! js "data" = Some (VObj o) ->
  encrypt_payload L params w
  = match for_of sensitiveFields (encrypt_field L) (VObj o) w with
    | (Ok data, w1) =>
        (Ok {| action := action params; model := model params;
               args := VObj (<[js "data" := data]> a) |}, w1)
    | (Throw e, w1) => (Throw e, w1)
    end.
Proof.
  intros Hw Ha Ho. unfold encrypt_payload. rewrite Hw, Ha.
  cbn [get_property]. unfold bind at 1, ret at 1. unfold own. rewrite Ho.
  change (default VUndefined (Some (VObj o))) with (VObj o).
  cbn [truthy]. unfold bind.
  by destruct (for_of sensitiveFields (encrypt_field L) (VObj o) w) as [[d|e] w1].
Qed.

(** After the write half, a write goes to the storage layer and its result
    comes back as it is. *)
Lemma write_reaches_storage (params params' : Params)
    (next : Params -> M JsValue) (w w1 : World) :
  is_write params = true ->
  action params' = action params -> model params' = model params ->
  encrypt_payload L params w = (Ok params', w1) ->
  createEncryptionMiddleware L params next w = call_next next params' w1.
Proof.
  intros Hw Hact Hmod Hp.
  unfold createEncryptionMiddleware, bind at 1. rewrite Hp. unfold bind.
  assert (is_read params' = false) as Hr.
  { apply is_write_not_read. revert Hw. unfold is_write, action_is, model_is.
    by rewrite Hact, Hmod. }
  destruct (call_next next params' w1) as [[result|e] w2]; [|done].
  unfold decrypt_result. by rewrite Hr.
Qed.

Section Loop.

Variable k : jsstring.
Hypothesis key_ok : key_rejected (Some k) = false.


End Loop.

(** A truthy value that is not a string stops the loop, whatever the key. *)
Lemma hook_write_loop_rejects (fields : list jsstring) :
  NoDup fields ->
  (forall f g, f ∈ fields -> g ∈ fields -> f <> g ++ Encrypted) ->
  forall (o : gmap jsstring JsValue) (w : World),
    (exists f, f ∈ fields /\ truthy (own o f) = true
               /\ is_string (own o f) = false) ->
    exists w', for_of fields (encrypt_field L) (VObj o) w = (Throw encrypt_error, w').
Proof.
  induction fields as [|f fs IH]; intros Hnd Hplain o w (g & Hg & Hgt & Hgs).
  { by apply elem_of_nil in Hg. }
  apply NoDup_cons in Hnd as [Hf Hnd].
  assert (forall a b, a ∈ fs -> b ∈ fs -> a <> b ++ Encrypted) as Hplain'
    by (intros a b Ha Hb; apply Hplain; by right).
  cbn [for_of]. unfold bind at 1. rewrite encrypt_field_object.
  destruct (truthy (own o f)) eqn:Ht.
  - destruct (encrypt L (own o f) w) as [[e|err] w1] eqn:Hrun.
    + destruct (encrypt_Ok_inv L w w1 _ e Hrun) as (k' & s & Hs & _ & _).
      apply elem_of_cons in Hg as [->|Hg]; [by rewrite Hs in Hgs|].
      apply IH; [done..|]. exists g. split; [done|].
      rewrite own_after_turn; [done|by intros ->|].
      apply Hplain; [by right|by left].
    + rewrite (encrypt_throws_generic L w w1 _ err Hrun). eauto.
  - apply elem_of_cons in Hg as [->|Hg]; [congruence|].
    apply IH; [done..|]. eauto.
Qed.

(** Nothing to encrypt: the loop draws nothing and changes nothing. *)
Lemma hook_write_loop_idle (fields : list jsstring)
    (o : gmap jsstring JsValue) (w : World) :
  (forall f, f ∈ fields -> truthy (own o f) = false) ->
  for_of fields (encrypt_field L) (VObj o) w = (Ok (VObj o), w).
Proof.
  induction fields as [|f fs IH]; intros Hf; [done|].
  cbn [for_of]. unfold bind at 1. rewrite encrypt_field_object.
  rewrite (Hf f) by (by left). apply IH. intros g Hg. apply Hf. by right.
Qed.

End HookWrites.



(** What the storage layer receives for [{firstName: "Dana", other: "x"}]. *)
Example hook_encrypts_write_example :
  storage_calls
    (trace (snd (createEncryptionMiddleware Demo.crypto (Demo.operation "create")
                   Demo.storage (Demo.world (Some Demo.key32)))))
  = [Samples.create
       (<[js "firstNameEncrypted" :=
            VStr (js "AwoRGB8mLTQ7QklQV15lbHN6gYiPlp2kq7K5wMfO1dzj6vH4/wYNFBsiKTA3PkVMjzw8PDw8PDw8PDw8PDw8PB47NDs=")]>
          (<[js "other" := VStr (js "x")]> ∅))].
Proof. vm_compute. reflexivity. Qed.

(** X12: in a [create] or [update] on [UserProfile], a sensitive field that
    holds a truthy value that is neither a string nor binary data ([true],
    a number other than 0, an array, or an object such as [{set: ...}])
    makes the hook throw the generic error of [encrypt]; the storage layer
    is not called, whatever the master key. Binary data (a [Buffer], a
    typed array, a [DataView]), which [cipher.update] takes as it takes a
    string, is outside this statement. *)
Theorem hook_rejects_non_string (L : NodeCrypto) (params : Params)
    (next : Params -> M JsValue) (w : World) (a o : gmap jsstring JsValue)
    (f : jsstring) :
  is_write params = true ->
  args params = VObj a -> a !! js "data" = Some (VObj o) ->
  f ∈ sensitiveFields ->
  truthy_non_string (own o f) ->
  exists w',
    createEncryptionMiddleware L params next w = (Throw encrypt_error, w')
    /\ storage_calls (trace w') = storage_calls (trace w).
Proof.
  intros Hw Ha Ho Hf Hv.
  assert (truthy (own o f) = true /\ is_string (own o f) = false) as [Ht Hs].
  { destruct (own o f) as [| |b|n|s|o'|l]; cbn in Hv |- *; try done.
    split; [|done]. by apply negb_true_iff, Z.eqb_neq. }
  destruct (hook_write_loop_rejects L sensitiveFields sensitiveFields_NoDup
              sensitiveFields_plain o w) as [w' Hloop]; [by exists f|].
  pose proof (encrypt_payload_object L params a o w Hw Ha Ho) as Hp.
  rewrite Hloop in Hp.
  exists w'. split.
  - unfold createEncryptionMiddleware, bind at 1. by rewrite Hp.
  - pose proof (internal_encrypt_payload L params w) as (_ & _ & Hs').
    by rewrite Hp in Hs'.
Qed.

Lemma hook_rejects_non_string_witness :
  let params := Samples.create Samples.numeric in
  let w := Demo.world (Some Demo.key32) in
  exists w',
    createEncryptionMiddleware Demo.crypto params Demo.storage w
    = (Throw encrypt_error, w')
    /\ storage_calls (trace w') = storage_calls (trace w).
Proof.
  cbv zeta.
  apply (hook_rejects_non_string Demo.crypto (Samples.create Samples.numeric)
           Demo.storage (Demo.world (Some Demo.key32))
           (<[js "data" := VObj Samples.numeric]> ∅) Samples.numeric (js "phone")).
  - reflexivity.
  - reflexivity.
  - apply lookup_insert_eq.
  - apply (bool_decide_unpack (_ ∈ _)). by vm_compute.
  - vm_compute. lia.
Defined.

(** A write with nothing to encrypt leaves the arguments as they are. *)
Lemma encrypt_payload_idle (L : NodeCrypto) (params : Params) (w : World)
    (a o : gmap jsstring JsValue) :
  is_write params = true ->
  args params = VObj a -> a !! js "data" = Some (VObj o) ->
  (forall f, f ∈ sensitiveFields -> truthy (own o f) = false) ->
  encrypt_payload L params w = (Ok params, w).
Proof.
  intros Hw Ha Ho Hf.
  rewrite (encrypt_payload_object L params a o w Hw Ha Ho).
  rewrite hook_write_loop_idle by done.
  rewrite insert_id by done. rewrite <- Ha. by destruct params.
Qed.

(** X13: a [create] or [update] on [UserProfile] whose data has no truthy
    sensitive field (the fields are absent, empty, or already stored under
    [fEncrypted]) passes through the hook unchanged: nothing is drawn,
    nothing is logged, and the storage layer receives the arguments as they
    were, with or without a master key. *)
Theorem hook_write_idle (L : NodeCrypto) (params : Params)
    (next : Params -> M JsValue) (w : World) (a o : gmap jsstring JsValue) :
  is_write params = true ->
  args params = VObj a -> a !! js "data" = Some (VObj o) ->
  (forall f, f ∈ sensitiveFields -> truthy (own o f) = false) ->
  encrypt_payload L params w = (Ok params, w)
  /\ createEncryptionMiddleware L params next w = call_next next params w.
Proof.
  intros Hw Ha Ho Hf.
  pose proof (encrypt_payload_idle L params w a o Hw Ha Ho Hf) as Hp.
  split; [exact Hp|].
  by apply (write_reaches_storage L params params next w w Hw).
Qed.

Lemma hook_write_idle_witness :
  let params := Samples.create Samples.sealed_payload in
  let w := Demo.world (Some Demo.key32) in
  encrypt_payload Demo.crypto params w = (Ok params, w)
  /\ createEncryptionMiddleware Demo.crypto params Demo.storage w
     = call_next Demo.storage params w.
Proof.
  cbv zeta.
  apply (hook_write_idle Demo.crypto (Samples.create Samples.sealed_payload)
           Demo.storage (Demo.world (Some Demo.key32))
           (<[js "data" := VObj Samples.sealed_payload]> ∅) Samples.sealed_payload).
  - reflexivity.
  - reflexivity.
  - apply lookup_insert_eq.
  - intros f Hf. each_member Hf; subst f; vm_compute; reflexivity.
Defined.

(** ** The hook: one record read *)

Section HookReads.

Variable L : NodeCrypto.

(** A read goes to the storage layer first; the read half gets its result. *)
Lemma read_from_storage (params : Params) (next : Params -> M JsValue)
    (w w1 : World) (result : JsValue) :
  is_read params = true ->
  call_next next params w = (Ok result, w1) ->
  createEncryptionMiddleware L params next w
  = decrypt_result L params result w1.
Proof.
  intros Hr Hnext.
  unfold createEncryptionMiddleware, bind at 1, encrypt_payload.
  rewrite (is_read_not_write params Hr). cbn [ret].
  unfold bind. by rewrite Hnext.
Qed.

(** What the read half returns, whatever the storage layer answered. *)
Lemma decrypt_result_returns (params : Params) (result : JsValue)
    (w : World) :
  is_read params = true ->
  exists evs,
    decrypt_result L params result w
    = (Ok match result with
          | VArr items => VArr (map (decrypt_item_of L (ENCRYPTION_KEY w)) items)
          | _ => decrypt_item_of L (ENCRYPTION_KEY w) result
          end,
       extend w evs).
Proof.
  intros Hr.
  destruct (quiet_decrypt_result L params result w) as [-> _].
  eexists. f_equal.
  unfold decrypt_result. rewrite Hr.
  destruct (truthy result) eqn:Ht; [|by destruct result].
  destruct result as [| |b|n|s|o|items]; try apply outcome_decrypt_item.
  rewrite outcome_bind;
    [|apply quiet_for_each, quiet_decrypt_item|intros; apply quiet_ret].
  by rewrite (outcome_for_each _ _ (decrypt_item_of L (ENCRYPTION_KEY w)))
    by (apply quiet_decrypt_item || apply outcome_decrypt_item).
Qed.

Lemma decrypt_result_falsy (params : Params) (result : JsValue) (w : World) :
  truthy result = false ->
  decrypt_result L params result w = (Ok result, w).
Proof.
  intros Ht. unfold decrypt_result. rewrite Ht. by destruct (is_read params).
Qed.

End HookReads.

(** X14: a read ([findUnique], [findFirst], [findMany] on [UserProfile])
    whose result is falsy ([null] when nothing was found) returns it as it
    is. When the result is one record, the hook returns a record: each
    sensitive field whose encrypted value [decrypt] accepts is replaced by
    its plaintext, a field whose encrypted value is rejected keeps its
    encrypted key and its plain key, and the other keys are untouched. *)
Theorem hook_read_single (L : NodeCrypto) (params : Params)
    (next : Params -> M JsValue) (w w1 : World) (result : JsValue) :
  is_read params = true ->
  call_next next params w = (Ok result, w1) ->
  (truthy result = false ->
   createEncryptionMiddleware L params next w = (Ok result, w1))
  /\ (forall o, result = VObj o ->
      exists o' evs,
        createEncryptionMiddleware L params next w
        = (Ok (VObj o'), extend w1 evs)
        /\ (forall f, f ∈ sensitiveFields ->
            let v := own o (f ++ Encrypted) in
            (truthy v = true ->
             forall p, decrypt_value L (ENCRYPTION_KEY w1) v = Ok p ->
               o' !! f = Some (VStr p) /\ o' !! (f ++ Encrypted) = None)
            /\ (truthy v = false
                \/ (exists e, decrypt_value L (ENCRYPTION_KEY w1) v = Throw e) ->
                o' !! (f ++ Encrypted) = o !! (f ++ Encrypted)
                /\ o' !! f = o !! f))
        /\ (forall x,
              (forall f, f ∈ sensitiveFields -> x <> f /\ x <> f ++ Encrypted) ->
              o' !! x = o !! x)).
Proof.
  intros Hr Hnext. rewrite (read_from_storage L params next w w1 result Hr Hnext).
  split; [apply decrypt_result_falsy|].
  intros o ->.
  destruct (decrypt_result_returns L params (VObj o) w1 Hr) as [evs ->].
  eexists _, evs. split; [reflexivity|].
  destruct (decrypted_fields L (ENCRYPTION_KEY w1) sensitiveFields
              sensitiveFields_NoDup sensitiveFields_plain o) as [Hf Hx].
  split; [|exact Hx].
  intros f Hin. cbv zeta. destruct (Hf f Hin) as [-> ->].
  unfold after_decrypt, own. split.
  - intros -> p ->. done.
  - intros [-> |[e ->]]; [done|]. by destruct (truthy _).
Qed.

Lemma hook_read_single_witness :
  let w := Demo.world (Some Demo.key32) in
  let w1 := extend w [StorageCall Samples.findUnique] in
  let result := VObj Demo.valid in
  (truthy result = false ->
   createEncryptionMiddleware Demo.crypto Samples.findUnique Samples.found w
   = (Ok result, w1))
  /\ (forall o, result = VObj o ->
      exists o' evs,
        createEncryptionMiddleware Demo.crypto Samples.findUnique Samples.found w
        = (Ok (VObj o'), extend w1 evs)
        /\ (forall f, f ∈ sensitiveFields ->
            let v := own o (f ++ Encrypted) in
            (truthy v = true ->
             forall p, decrypt_value Demo.crypto (ENCRYPTION_KEY w1) v = Ok p ->
               o' !! f = Some (VStr p) /\ o' !! (f ++ Encrypted) = None)
            /\ (truthy v = false
                \/ (exists e,
                      decrypt_value Demo.crypto (ENCRYPTION_KEY w1) v = Throw e) ->
                o' !! (f ++ Encrypted) = o !! (f ++ Encrypted)
                /\ o' !! f = o !! f))
        /\ (forall x,
              (forall f, f ∈ sensitiveFields -> x <> f /\ x <> f ++ Encrypted) ->
              o' !! x = o !! x)).
Proof.
  cbv zeta.
  apply (hook_read_single Demo.crypto Samples.findUnique Samples.found
           (Demo.world (Some Demo.key32))).
  - reflexivity.
  - reflexivity.
Defined.

(** ** The hook: what was written is read back *)



(** ** Reading without a key *)

Section NoKey.

Variable L : NodeCrypto.
Variable key : option jsstring.
Hypothesis no_key : key_missing key = true.

Lemma decrypt_value_missing (v : JsValue) :
  decrypt_value L key v = Throw decrypt_error.
Proof.
  unfold decrypt_value, outcome. by rewrite decrypt_missing.
Qed.

Lemma decrypt_field_of_missing (o : gmap jsstring JsValue) (f : jsstring) :
  decrypt_field_of L key o f = o.
Proof.
  unfold decrypt_field_of. rewrite decrypt_value_missing. by destruct (truthy _).
Qed.

Lemma decrypt_item_of_missing (item : JsValue) :
  decrypt_item_of L key item = item.
Proof.
  destruct item as [| | | | |o|]; try done. cbn [decrypt_item_of]. f_equal.
  induction sensitiveFields as [|f fs IH]; [done|].
  cbn [foldl]. by rewrite decrypt_field_of_missing.
Qed.

Lemma decryptObject_fold_missing (obj : gmap jsstring JsValue)
    (fields : list jsstring) (r : gmap jsstring JsValue) :
  foldl (decryptObject_of L key obj) r fields = r.
Proof.
  revert r. induction fields as [|f fs IH]; intros r; [done|].
  cbn [foldl]. rewrite IH. unfold decryptObject_of.
  rewrite decrypt_value_missing. by destruct (truthy _).
Qed.

End NoKey.

(** X16: without a master key (unset or empty) nothing is decrypted and
    nothing fails: [decryptObject] returns the object it was given, and a
    read through the hook returns what the storage layer answered, the
    encrypted values included. *)
Theorem reads_without_key (L : NodeCrypto) (w : World) :
  key_missing (ENCRYPTION_KEY w) = true ->
  (forall obj fields,
     exists evs, decryptObject L obj fields w = (Ok obj, extend w evs))
  /\ (forall params next w0 result,
        is_read params = true ->
        call_next next params w0 = (Ok result, w) ->
        exists evs,
          createEncryptionMiddleware L params next w0
          = (Ok result, extend w evs)).
Proof.
  intros Hm. split.
  - intros obj fields.
    destruct (decryptObject_fold L obj (ENCRYPTION_KEY w) fields w eq_refl)
      as [evs ->].
    exists evs. by rewrite (decryptObject_fold_missing L _ Hm).
  - intros params next w0 result Hr Hnext.
    rewrite (read_from_storage L params next w0 w result Hr Hnext).
    destruct (decrypt_result_returns L params result w Hr) as [evs ->].
    exists evs. do 2 f_equal.
    destruct result as [| |b|n|s|o|items];
      try (by apply (decrypt_item_of_missing L _ Hm)).
    f_equal. clear Hnext. induction items as [|item items IH]; [done|].
    cbn [map]. by rewrite (decrypt_item_of_missing L _ Hm), IH.
Qed.

Lemma reads_without_key_witness :
  let w := Demo.world None in
  (forall obj fields,
     exists evs, decryptObject Demo.crypto obj fields w = (Ok obj, extend w evs))
  /\ (forall params next w0 result,
        is_read params = true ->
        call_next next params w0 = (Ok result, w) ->
        exists evs,
          createEncryptionMiddleware Demo.crypto params next w0
          = (Ok result, extend w evs)).
Proof.
  cbv zeta. apply (reads_without_key Demo.crypto (Demo.world None)). reflexivity.
Defined.

(** The two records of the example, read without a key: both come back as
    they are stored. *)
Example reads_without_key_example :
  fst (createEncryptionMiddleware Demo.crypto Demo.findMany Demo.records
         (Demo.world None))
  = Ok (VArr [VObj Demo.corrupted; VObj Demo.valid]).
Proof. vm_compute. reflexivity. Qed.

(** ** Strings *)

Lemma startsWith_refl_app (p s : jsstring) : String_startsWith (p ++ s) p = true.
Proof.
  induction p as [|a p IH]; [by destruct s|].
  cbn. by rewrite N.eqb_refl, IH.
Qed.

Lemma endsWith_app (s p : jsstring) : String_endsWith (s ++ p) p = true.
Proof.
  unfold String_endsWith. apply bool_decide_eq_true_2.
  rewrite length_app. replace (length s + length p - length p) with (length s) by lia.
  by rewrite drop_app_length.
Qed.

Lemma endsWith_inv (s p : jsstring) :
  String_endsWith s p = true -> exists a, s = a ++ p.
Proof.
  unfold String_endsWith. intros H%bool_decide_eq_true.
  exists (take (length s - length p) s).
  transitivity (take (length s - length p) s ++ drop (length s - length p) s);
    [by rewrite take_drop|by rewrite H].
Qed.



(** The first occurrence is the one removed: the key
    [EncryptedNoteEncrypted] gives [NoteEncrypted], not [EncryptedNote]. *)
Example replace_first_occurrence :
  String_replace (js "EncryptedNoteEncrypted") Encrypted [] = js "NoteEncrypted".
Proof. reflexivity. Qed.

(** ** [encryptSensitiveUserData] *)

Lemma filled_string (v : JsValue) :
  filled v = true -> exists s, v = VStr s /\ s <> [].
Proof.
  unfold filled. intros [Ht Hs]%andb_true_iff.
  destruct v as [| | | |s| |]; try discriminate Hs.
  apply negb_true_iff, bool_decide_eq_false in Ht. eauto.
Qed.

Section EncryptUserData.

Variable L : NodeCrypto.

Lemma encryptSensitiveUserData_step_skip (r : gmap jsstring JsValue)
    (key : jsstring) (v : JsValue) (w : World) :
  filled v = false ->
  encryptSensitiveUserData_step L r (key, v) w = (Ok r, w).
Proof. intros Hv. unfold encryptSensitiveUserData_step, filled in *. cbn [fst snd]. by rewrite Hv. Qed.

Lemma encryptSensitiveUserData_step_run (r : gmap jsstring JsValue)
    (key : jsstring) (v : JsValue) (w : World) :
  filled v = true ->
  encryptSensitiveUserData_step L r (key, v) w
  = match encrypt L v w with
    | (Ok e, w1) => (Ok (<[key ++ Encrypted := VStr (encrypted e)]> r), w1)
    | (Throw e, w1) => (Throw e, w1)
    end.
Proof.
  intros Hv. unfold encryptSensitiveUserData_step, filled in *. cbn [fst snd].
  rewrite Hv. unfold bind. by destruct (encrypt L v w) as [[e|e] w1].
Qed.

(** Nothing to encrypt: the loop returns what it was given, with or
    without a key. *)
Lemma encryptSensitiveUserData_idle (userData : list (jsstring * JsValue))
    (r : gmap jsstring JsValue) (w : World) :
  Forall (fun entry => filled (snd entry) = false) userData ->
  for_of userData (encryptSensitiveUserData_step L) r w = (Ok r, w).
Proof.
  induction 1 as [|[key v] rest Hv _ IH]; [done|].
  cbn [for_of]. unfold bind at 1.
  by rewrite encryptSensitiveUserData_step_skip.
Qed.

(** Without an accepted key the first value to encrypt stops the loop. *)
Lemma encryptSensitiveUserData_stops (userData : list (jsstring * JsValue))
    (r : gmap jsstring JsValue) (w : World) :
  key_rejected (ENCRYPTION_KEY w) = true ->
  Exists (fun entry => filled (snd entry) = true) userData ->
  for_of userData (encryptSensitiveUserData_step L) r w
  = (Throw encrypt_error,
     extend w [ConsoleError (js "Error en cifrado:")
                 (Error "ENCRYPTION_KEY debe tener al menos 32 caracteres")]).
Proof.
  intros Hr. induction userData as [|[key v] rest IH]; intros Hex.
  { by apply Exists_nil in Hex. }
  cbn [for_of]. unfold bind at 1.
  destruct (filled v) eqn:Hv.
  - rewrite encryptSensitiveUserData_step_run by done.
    by rewrite encrypt_rejected.
  - rewrite encryptSensitiveUserData_step_skip by done.
    apply IH. apply Exists_cons in Hex as [Hex|Hex]; [|done].
    cbn in Hex. congruence.
Qed.

Variable k : jsstring.
Hypothesis key_ok : key_rejected (Some k) = false.

Lemma encryptSensitiveUserData_loop (userData : list (jsstring * JsValue)) :
  NoDup (userData.*1) ->
  forall (r : gmap jsstring JsValue) (w : World),
    ENCRYPTION_KEY w = Some k ->
    exists r' w',
      for_of userData (encryptSensitiveUserData_step L) r w = (Ok r', w')
      /\ ENCRYPTION_KEY w' = Some k
      /\ (forall key v, (key, v) ∈ userData -> filled v = true ->
            exists e wa wb,
              ENCRYPTION_KEY wa = Some k
              /\ encrypt L v wa = (Ok e, wb)
              /\ r' !! (key ++ Encrypted) = Some (VStr (encrypted e)))
      /\ (forall x,
            (forall key v, (key, v) ∈ userData -> filled v = true ->
               x <> key ++ Encrypted) ->
            r' !! x = r !! x).
Proof.
  induction userData as [|[key0 v0] rest IH]; intros Hnd r w Hk.
  { exists r, w. split; [done|]. split; [done|]. split; [|done].
    intros key v Hin. by apply elem_of_nil in Hin. }
  cbn [fmap list_fmap fst] in Hnd. apply NoDup_cons in Hnd as [Hkey Hnd].
  cbn [for_of]. unfold bind at 1.
  destruct (filled v0) eqn:Hv.
  - destruct (filled_string v0 Hv) as (s & -> & _).
    destruct (encrypt_string_returns L k key_ok w s Hk) as (e & w1 & Hrun & Hk1).
    rewrite encryptSensitiveUserData_step_run, Hrun by done.
    destruct (IH Hnd (<[key0 ++ Encrypted := VStr (encrypted e)]> r) w1 Hk1)
      as (r' & w' & Hloop & Hk' & Ha & Hb).
    exists r', w'. split; [exact Hloop|]. split; [exact Hk'|]. split.
    + intros key v [Heq|Hin]%elem_of_cons Hf; [|by apply Ha].
      injection Heq as -> ->. exists e, w, w1. split; [done|]. split; [done|].
      rewrite Hb; [apply lookup_insert_eq|].
      intros key v Hin _ E%encrypted_inj. subst key.
      apply Hkey, list_elem_of_fmap. by exists (key0, v).
    + intros x Hx. rewrite Hb.
      * apply lookup_insert_ne. intros E. symmetry in E. revert E.
        apply (Hx key0 (VStr s)); [by left|done].
      * intros key v Hin. apply Hx. by right.
  - rewrite encryptSensitiveUserData_step_skip by done.
    destruct (IH Hnd r w Hk) as (r' & w' & Hloop & Hk' & Ha & Hb).
    exists r', w'. split; [exact Hloop|]. split; [exact Hk'|]. split.
    + intros key v [Heq|Hin]%elem_of_cons Hf; [|by apply Ha].
      injection Heq as -> ->. congruence.
    + intros x Hx. apply Hb. intros key v Hin. apply Hx. by right.
Qed.


End EncryptUserData.


Lemma registration_NoDup : NoDup (Samples.registration.*1).
Proof. apply (bool_decide_unpack (NoDup _)). by vm_compute. Qed.


(** X18: [encryptSensitiveUserData] on entries none of which is a non-empty
    string returns the empty object and draws nothing, with or without a
    master key; without an accepted key it throws the generic error of
    [encrypt] as soon as one entry is a non-empty string. *)
Theorem encryptSensitiveUserData_without_key (L : NodeCrypto)
    (userData : list (jsstring * JsValue)) (w : World) :
  (Forall (fun entry => filled (snd entry) = false) userData ->
   encryptSensitiveUserData L userData w = (Ok ∅, w))
  /\ (key_rejected (ENCRYPTION_KEY w) = true ->
      Exists (fun entry => filled (snd entry) = true) userData ->
      exists evs,
        encryptSensitiveUserData L userData w
        = (Throw encrypt_error, extend w evs)).
Proof.
  split.
  - apply encryptSensitiveUserData_idle.
  - intros Hr Hex. eexists. by apply encryptSensitiveUserData_stops.
Qed.

Lemma encryptSensitiveUserData_without_key_witness :
  let w := Demo.world (Some Demo.key10) in
  encryptSensitiveUserData Demo.crypto [(js "phone", VUndefined)] w = (Ok ∅, w)
  /\ exists evs,
       encryptSensitiveUserData Demo.crypto Samples.registration w
       = (Throw encrypt_error, extend w evs).
Proof.
  cbv zeta.
  destruct (encryptSensitiveUserData_without_key Demo.crypto
              [(js "phone", VUndefined)] (Demo.world (Some Demo.key10)))
    as [H1 _].
  destruct (encryptSensitiveUserData_without_key Demo.crypto
              Samples.registration (Demo.world (Some Demo.key10)))
    as [_ H2].
  split.
  - apply H1. by repeat constructor.
  - apply H2; [reflexivity|]. by apply Exists_cons_hd.
Defined.

(** ** [decryptSensitiveUserData] *)

Section DecryptUserData.

Variable L : NodeCrypto.

Lemma quiet_decryptSensitiveUserData_step (r : gmap jsstring JsValue)
    (entry : jsstring * JsValue) :
  quiet (decryptSensitiveUserData_step L r entry).
Proof.
  pose proof (quiet_decrypt L). unfold decryptSensitiveUserData_step.
  repeat quiet_step.
Qed.

Variable key : option jsstring.

Lemma outcome_decryptSensitiveUserData_step (r : gmap jsstring JsValue)
    (entry : jsstring * JsValue) :
  outcome (decryptSensitiveUserData_step L r entry) key
  = Ok (decryptSensitiveUserData_of L key r entry).
Proof.
  unfold decryptSensitiveUserData_step, decryptSensitiveUserData_of. cbv zeta.
  destruct (String_endsWith (fst entry) Encrypted && truthy (snd entry)); [|done].
  rewrite outcome_try_catch.
  2:{ pose proof (quiet_decrypt L). repeat quiet_step. }
  2:{ intros e. repeat quiet_step. }
  rewrite outcome_bind; [|apply quiet_decrypt|intros; apply quiet_ret].
  unfold decrypt_value. destruct (outcome (decrypt L _) key) as [p|e]; [done|].
  rewrite outcome_bind; [done|apply quiet_console_error|intros; apply quiet_ret].
Qed.

Lemma decryptSensitiveUserData_fold (encryptedData : list (jsstring * JsValue))
    (w : World) :
  ENCRYPTION_KEY w = key ->
  exists evs,
    decryptSensitiveUserData L encryptedData w
    = (Ok (foldl (decryptSensitiveUserData_of L key) ∅ encryptedData),
       extend w evs).
Proof.
  intros Hk. unfold decryptSensitiveUserData.
  destruct (quiet_for_of encryptedData (decryptSensitiveUserData_step L) ∅
              quiet_decryptSensitiveUserData_step w) as [-> _].
  eexists. f_equal. rewrite Hk.
  apply outcome_for_of;
    [apply quiet_decryptSensitiveUserData_step
    |apply outcome_decryptSensitiveUserData_step].
Qed.

(** The object under construction has no own property [__proto__]. *)
Lemma decryptSensitiveUserData_of_fresh (r : gmap jsstring JsValue)
    (entry : jsstring * JsValue) :
  r !! js "__proto__" = None ->
  decryptSensitiveUserData_of L key r entry !! js "__proto__" = None.
Proof.
  intros Hr. unfold decryptSensitiveUserData_of.
  destruct (_ && _); [|done].
  destruct (decrypt_value L key (snd entry)) as [p|e]; [|done].
  by apply assign_string_fresh.
Qed.

Lemma decryptSensitiveUserData_of_lookup (r : gmap jsstring JsValue)
    (entry : jsstring * JsValue) (y : jsstring) (z : JsValue) :
  r !! js "__proto__" = None ->
  decryptSensitiveUserData_of L key r entry !! y = Some z ->
  r !! y = Some z
  \/ exists p, recovered_entry L key entry p
       /\ y = String_replace (fst entry) Encrypted [] /\ z = VStr p.
Proof.
  intros Hr. unfold decryptSensitiveUserData_of, recovered_entry.
  destruct (String_endsWith (fst entry) Encrypted) eqn:He; [|by left].
  destruct (truthy (snd entry)) eqn:Ht; [|by left]. cbn [andb].
  destruct (decrypt_value L key (snd entry)) as [p|e]; [|by left].
  intros H.
  destruct (assign_string_lookup _ _ _ _ _ Hr H) as [H'|(Hp & -> & ->)];
    [by left|].
  right. by exists p.
Qed.

Lemma decryptSensitiveUserData_of_keeps (r : gmap jsstring JsValue)
    (entry : jsstring * JsValue) (y : jsstring) :
  is_Some (r !! y) -> is_Some (decryptSensitiveUserData_of L key r entry !! y).
Proof.
  intros Hy. unfold decryptSensitiveUserData_of.
  destruct (_ && _); [|done].
  destruct (decrypt_value L key (snd entry)) as [p|e]; [|done].
  by apply assign_string_keeps.
Qed.

Lemma decryptSensitiveUserData_fold_sound
    (encryptedData : list (jsstring * JsValue)) :
  forall (r : gmap jsstring JsValue) (y : jsstring) (z : JsValue),
    r !! js "__proto__" = None ->
    foldl (decryptSensitiveUserData_of L key) r encryptedData !! y = Some z ->
    r !! y = Some z
    \/ exists entry p,
         entry ∈ encryptedData /\ recovered_entry L key entry p
         /\ y = String_replace (fst entry) Encrypted [] /\ z = VStr p.
Proof.
  induction encryptedData as [|entry rest IH]; intros r y z Hr H; [by left|].
  cbn [foldl] in H.
  destruct (IH _ y z (decryptSensitiveUserData_of_fresh r entry Hr) H)
    as [H'|(entry' & p & Hin & Hrec)].
  - destruct (decryptSensitiveUserData_of_lookup r entry y z Hr H')
      as [H''|(p & Hrec)]; [by left|].
    right. exists entry, p. split; [by left|done].
  - right. exists entry', p. split; [by right|done].
Qed.

Lemma decryptSensitiveUserData_fold_keeps
    (encryptedData : list (jsstring * JsValue)) :
  forall (r : gmap jsstring JsValue) (y : jsstring),
    is_Some (r !! y) ->
    is_Some (foldl (decryptSensitiveUserData_of L key) r encryptedData !! y).
Proof.
  induction encryptedData as [|entry rest IH]; intros r y Hy; [done|].
  cbn [foldl]. by apply IH, decryptSensitiveUserData_of_keeps.
Qed.

Lemma decryptSensitiveUserData_fold_complete
    (encryptedData : list (jsstring * JsValue)) :
  forall (r : gmap jsstring JsValue) (entry : jsstring * JsValue) (p : jsstring),
    entry ∈ encryptedData -> recovered_entry L key entry p ->
    is_Some (foldl (decryptSensitiveUserData_of L key) r encryptedData
               !! String_replace (fst entry) Encrypted []).
Proof.
  induction encryptedData as [|entry0 rest IH]; intros r entry p Hin Hrec.
  { by apply elem_of_nil in Hin. }
  cbn [foldl]. apply elem_of_cons in Hin as [->|Hin]; [|by eapply IH].
  apply decryptSensitiveUserData_fold_keeps.
  unfold decryptSensitiveUserData_of.
  destruct Hrec as (-> & -> & -> & Hp).
  cbn [andb]. rewrite assign_string_eq by done. eauto.
Qed.

End DecryptUserData.

(** X19: [decryptSensitiveUserData] never throws. Every key of its result
    comes from an entry whose key ends in [Encrypted], with the first
    occurrence of [Encrypted] removed, and holds what [decrypt] returned for
    the truthy value of that entry; entries with another key, a falsy value
    or a value [decrypt] rejects are left out. Every entry that [decrypt]
    accepts leaves its key in the result, unless that key is [__proto__]. *)
Theorem decryptSensitiveUserData_spec (L : NodeCrypto)
    (encryptedData : list (jsstring * JsValue)) (w : World) :
  exists result evs,
    decryptSensitiveUserData L encryptedData w = (Ok result, extend w evs)
    /\ (forall y z, result !! y = Some z ->
          exists key v p,
            (key, v) ∈ encryptedData
            /\ String_endsWith key Encrypted = true /\ truthy v = true
            /\ decrypt_value L (ENCRYPTION_KEY w) v = Ok p
            /\ y = String_replace key Encrypted [] /\ z = VStr p)
    /\ (forall key v p,
          (key, v) ∈ encryptedData ->
          String_endsWith key Encrypted = true -> truthy v = true ->
          decrypt_value L (ENCRYPTION_KEY w) v = Ok p ->
          String_replace key Encrypted [] <> js "__proto__" ->
          is_Some (result !! String_replace key Encrypted [])).
Proof.
  destruct (decryptSensitiveUserData_fold L (ENCRYPTION_KEY w) encryptedData w
              eq_refl) as [evs Hrun].
  eexists _, evs. split; [exact Hrun|]. split.
  - intros y z H.
    destruct (decryptSensitiveUserData_fold_sound L _ encryptedData ∅ y z
                (lookup_empty _) H)
      as [H'|([key v] & p & Hin & (He & Ht & Hd & _) & Hy & Hz)]; [done|].
    by exists key, v, p.
  - intros key v p Hin He Ht Hd Hp.
    by apply (decryptSensitiveUserData_fold_complete L _ encryptedData ∅
                (key, v) p).
Qed.

(** ** [encryptSensitiveUserData], then [decryptSensitiveUserData] *)



(** The sample registration, encrypted and decrypted again: the fields that
    were filled. *)
Example userData_round_trip_example :
  match encryptSensitiveUserData Demo.crypto Samples.registration
          (Demo.stuck_world (Some Demo.key32)) with
  | (Ok r, w1) => fst (decryptSensitiveUserData Demo.crypto (map_to_list r) w1)
  | (Throw e, _) => Throw e
  end
  = Ok (<[js "firstName" := VStr (js "Dana")]>
          (<[js "lastName" := VStr (js "Levi")]>
             (<[js "birthDate" := VStr (js "1990-01-01")]>
                (<[js "nationality" := VStr (js "AR")]> ∅)))).
Proof. vm_compute. reflexivity. Qed.

(** ** The data of a registration and the hook *)

Lemma encryptSensitiveUserData_loop_keys (L : NodeCrypto)
    (userData : list (jsstring * JsValue)) :
  forall (r r' : gmap jsstring JsValue) (w w' : World),
    for_of userData (encryptSensitiveUserData_step L) r w = (Ok r', w') ->
    forall x, is_Some (r' !! x) ->
      is_Some (r !! x) \/ String_endsWith x Encrypted = true.
Proof.
  induction userData as [|[key v] rest IH]; intros r r' w w' Hrun x Hx.
  { apply run_Ok_inj in Hrun as [-> _]. by left. }
  cbn [for_of] in Hrun. unfold bind at 1 in Hrun.
  destruct (filled v) eqn:Hv.
  - rewrite encryptSensitiveUserData_step_run in Hrun by done.
    destruct (encrypt L v w) as [[e|e] w1]; [|discriminate Hrun].
    destruct (IH _ _ _ _ Hrun x Hx) as [Hx'|Hx']; [|by right].
    destruct (decide (x = key ++ Encrypted)) as [->|Hne].
    + right. apply endsWith_app.
    + left. by rewrite lookup_insert_ne in Hx'.
  - rewrite encryptSensitiveUserData_step_skip in Hrun by done.
    by apply (IH _ _ _ _ Hrun).
Qed.

Lemma sensitiveFields_not_encrypted (f : jsstring) :
  f ∈ sensitiveFields -> String_endsWith f Encrypted = false.
Proof.
  assert (Forall (fun f => String_endsWith f Encrypted = false) sensitiveFields)
    as H by (apply (bool_decide_unpack (Forall _ _)); by vm_compute).
  rewrite Forall_forall in H. apply H.
Qed.

(** X21: a payload made of what [encryptSensitiveUserData] returned and of
    keys that are not sensitive fields, as the registration builds it for
    [userProfile.create], passes through the hook unchanged: nothing is
    encrypted a second time. *)
Theorem registration_payload_stored_as_is (L : NodeCrypto)
    (userData : list (jsstring * JsValue)) (w w1 w2 : World)
    (r extra a : gmap jsstring JsValue) (params : Params)
    (next : Params -> M JsValue) :
  encryptSensitiveUserData L userData w = (Ok r, w1) ->
  is_write params = true ->
  args params = VObj a -> a !! js "data" = Some (VObj (r ∪ extra)) ->
  (forall f, f ∈ sensitiveFields -> extra !! f = None) ->
  createEncryptionMiddleware L params next w2 = call_next next params w2.
Proof.
  intros Hrun Hw Ha Ho Hextra.
  apply (write_reaches_storage L params params next w2 w2 Hw); [done..|].
  apply (encrypt_payload_idle L params w2 a (r ∪ extra) Hw Ha Ho).
  intros f Hf. unfold own.
  assert ((r ∪ extra) !! f = None) as ->; [|done].
  apply lookup_union_None. split; [|by apply Hextra].
  destruct (r !! f) as [v|] eqn:Hv; [|done].
  destruct (encryptSensitiveUserData_loop_keys L userData ∅ r w w1 Hrun f)
    as [[? H]|H]; [by rewrite Hv|done|].
  by rewrite sensitiveFields_not_encrypted in H.
Qed.

Lemma registration_payload_stored_as_is_witness :
  let extra : gmap jsstring JsValue := <[js "userId" := VNum 7]> ∅ in
  exists r w1,
    encryptSensitiveUserData Demo.crypto Samples.registration
      (Demo.world (Some Demo.key32)) = (Ok r, w1)
    /\ createEncryptionMiddleware Demo.crypto (Samples.create (r ∪ extra))
         Demo.storage w1
       = call_next Demo.storage (Samples.create (r ∪ extra)) w1.
Proof.
  cbv zeta.
  destruct (encryptSensitiveUserData_loop Demo.crypto Demo.key32 eq_refl
              Samples.registration registration_NoDup ∅
              (Demo.world (Some Demo.key32)) eq_refl)
    as (r & w1 & Hrun & _).
  exists r, w1. split; [exact Hrun|].
  apply (registration_payload_stored_as_is Demo.crypto Samples.registration
           (Demo.world (Some Demo.key32)) w1 w1 r (<[js "userId" := VNum 7]> ∅)
           (<[js "data" := VObj (r ∪ <[js "userId" := VNum 7]> ∅)]> ∅)
           (Samples.create (r ∪ <[js "userId" := VNum 7]> ∅)) Demo.storage Hrun).
  - reflexivity.
  - reflexivity.
  - apply lookup_insert_eq.
  - intros f Hf. each_member Hf; subst f; vm_compute; reflexivity.
Defined.
